(** * daw-mcp: the correlated request bridge and the batch orchestrator

    A shallow embedding of the TypeScript sources of the MCP server
    ([daw-client.ts], [helpers/indices.ts], [helpers/clip-selection.ts],
    [helpers/daw-resolution.ts] and the batch handlers), followed by the
    properties the specification states about them.

    Further modules embed the framing of the socket stream
    ([DAWClient.handleData]), the request routing of the Bitwig extension
    ([MCPServer.processRequest], [CommandDispatcher], [ClipHandler]), the
    note statistics ([sortNotes], [computeClipStats]) and the remaining
    track, clip and note tools, each with the properties read off its
    source.

    Numbers that the sources use as indices, counts and millisecond delays
    are JavaScript numbers; in the handlers they hold integers far below
    2^53, where [+ 1] and [- 1] are exact, and are modelled by [Z] and
    [N]. The module [Double] gives the two index conversions as they are
    computed on doubles, for every integer a double can hold. *)

From Stdlib Require Import ZArith List Lia Sorted Permutation.
From stdpp Require Import base gmap strings list pretty.
Import ListNotations.

Open Scope Z_scope.

(** ** Shared data *)

(** [export type DAWType = 'bitwig' | 'ableton'] *)
Inductive DAWType := bitwig | ableton.

Definition DAWType_eqb (a b : DAWType) : bool :=
  match a, b with
  | bitwig, bitwig | ableton, ableton => true
  | _, _ => false
  end.

(** The text a [DAWType] has inside a template string. *)
Definition dawText (d : DAWType) : string :=
  match d with bitwig => "bitwig" | ableton => "ableton" end.

(** Payloads typed [unknown] in the sources. *)
#[warnings="-register-all"]
Inductive Json :=
| JNull
| JBool (b : bool)
| JNum (n : Z)
| JStr (s : string)
| JArr (items : list Json)
| JObj (fields : list (string * Json)).

(** ** daw-client.ts: one correlated channel *)

Module DAWClient.

(** [interface JsonRpcRequest] and [interface JsonRpcResponse]. An absent
    (or null) [error] is [None]: the source tests [if (response.error)]. *)
Record JsonRpcRequest := mkRequest {
  req_id : string;
  req_method : string;
  req_params : option Json }.

Record RpcError := mkRpcError { code : Z; message : string }.

Record JsonRpcResponse := mkResponse {
  resp_id : string;
  resp_result : option Json;
  resp_error : option RpcError }.

(** What a promise has been settled with; a JavaScript [Error] is
    represented by its message. *)
Inductive Settlement :=
| Resolved (value : option Json)
| Rejected (errMessage : string).

(** The part of a [net.Socket] the client looks at, and the frames
    handed to [write]. *)
Record Socket := mkSocket {
  destroyed : bool;
  written : list JsonRpcRequest }.

(** The fields of [class DAWClient]. An entry of [pendingRequests] is the
    pair [{ resolve, reject }] of one promise; it is represented by the
    handle of that promise. [host], [port] and [buffer] play no part in
    the correlation of responses and are left out. *)
Record DAWClient := mkClient {
  dawType : DAWType;
  timeout : N;
  socket : option Socket;
  requestId : N;
  pendingRequests : gmap string nat }.

(** A [setTimeout] callback of [send]: its closure holds [id] and
    [reject]; [due] is the time it is scheduled for. *)
Record Timer := mkTimer {
  due : N;
  timer_id : string;
  timer_reject : nat }.

(** The client together with the pieces of the JavaScript runtime its
    closures live in: the promises handed to callers, the timer queue, the
    callbacks given to [socket.write] (closure of [id] and [reject]), and
    the clock in milliseconds. *)
Record World := mkWorld {
  client : DAWClient;
  promises : gmap nat Settlement;
  nextPromise : nat;
  timers : list Timer;
  writeCallbacks : list (string * nat);
  now : N }.

(** A promise is settled at most once: later calls of [resolve] or
    [reject] have no effect. *)
Definition settle (p : nat) (o : Settlement) (ps : gmap nat Settlement)
  : gmap nat Settlement :=
  match ps !! p with
  | Some _ => ps
  | None => <[p := o]> ps
  end.

Definition with_pending (c : DAWClient) (m : gmap string nat) : DAWClient :=
  mkClient (dawType c) (timeout c) (socket c) (requestId c) m.

Definition with_socket (c : DAWClient) (s : option Socket) : DAWClient :=
  mkClient (dawType c) (timeout c) s (requestId c) (pendingRequests c).

(** [pendingRequests.delete(id)] followed by a call of the settling
    function of promise [p]. *)
Definition drop_and_settle (id : string) (p : nat) (o : Settlement) (w : World)
  : World :=
  mkWorld (with_pending (client w) (delete id (pendingRequests (client w))))
          (settle p o (promises w)) (nextPromise w) (timers w)
          (writeCallbacks w) (now w).

(** [isConnected()] *)
Definition isConnected (c : DAWClient) : bool :=
  match socket c with
  | Some s => negb (destroyed s)
  | None => false
  end.

(** [`Request timeout (${this.dawType})`] *)
Definition timeoutMessage (d : DAWType) : string :=
  "Request timeout (" +:+ dawText d +:+ ")".

(** The delay [setTimeout(callback, ms)] applies: Node sets a delay that
    is below 1 or above 2147483647 to 1. *)
Definition timerDelay (ms : N) : N :=
  if ((ms <? 1) || (2147483647 <? ms))%N then 1%N else ms.

(** The body of [send] once the socket [s] is in place: allocate the id
    [String(++this.requestId)], register the pending entry, write the
    frame, and start the timer. [p] is the promise returned to the caller. *)
Definition register (method : string) (params : option Json) (s : Socket)
    (w : World) : World :=
  let c := client w in
  let p := nextPromise w in
  let n := (requestId c + 1)%N in
  let id := pretty n in
  let request := mkRequest id method params in
  mkWorld
    (mkClient (dawType c) (timeout c)
       (Some (mkSocket (destroyed s) (written s ++ [request])))
       n (<[id := p]> (pendingRequests c)))
    (promises w) (S p)
    (timers w ++ [mkTimer (now w + timerDelay (timeout c))%N id p])
    (writeCallbacks w ++ [(id, p)])
    (now w).

(** The socket [isConnected()] accepts: present and not destroyed. *)
Definition liveSocket (c : DAWClient) : option Socket :=
  match socket c with
  | Some s => if destroyed s then None else Some s
  | None => None
  end.

(** [async send(method, params)]. The result is the new world and the
    promise the caller holds. When the client is not connected the call
    first awaits [connect()], which installs a new socket; [connectFails]
    is the outcome of that attempt ([Some err] when the socket reports an
    error: nothing is registered, the caller's promise is rejected with
    it, and the ['close'] handler clears [this.socket]). The attempt and
    the registration that follows it are taken as one step, as if
    nothing happened on the channel while [connect()] is awaited; on a
    connected client there is no such wait. *)
Definition send (method : string) (params : option Json)
    (connectFails : option string) (w : World) : World * nat :=
  let p := nextPromise w in
  match liveSocket (client w) with
  | Some s => (register method params s w, p)
  | None =>
      match connectFails with
      | None => (register method params (mkSocket false []) w, p)
      | Some err =>
          (mkWorld (with_socket (client w) None)
                   (settle p (Rejected err) (promises w))
                   (S p) (timers w) (writeCallbacks w) (now w), p)
      end
  end.

(** What a response settles the caller with. *)
Definition outcome (r : JsonRpcResponse) : Settlement :=
  match resp_error r with
  | Some e => Rejected (message e)
  | None => Resolved (resp_result r)
  end.

(** [handleResponse(response)] *)
Definition handleResponse (r : JsonRpcResponse) (w : World) : World :=
  match pendingRequests (client w) !! resp_id r with
  | Some pending => drop_and_settle (resp_id r) pending (outcome r) w
  | None => w
  end.

(** The callback passed to [setTimeout] in [send]. *)
Definition fireTimer (w : World) (t : Timer) : World :=
  match pendingRequests (client w) !! timer_id t with
  | Some _ =>
      drop_and_settle (timer_id t) (timer_reject t)
        (Rejected (timeoutMessage (dawType (client w)))) w
  | None => w
  end.

(** The callback passed to [socket.write] in [send], called with an error:
    [i] is the position of the callback among those registered so far. *)
Definition writeFailed (i : nat) (err : string) (w : World) : World :=
  match writeCallbacks w !! i with
  | Some (id, p) => drop_and_settle id p (Rejected err) w
  | None => w
  end.

Definition isDue (t : N) (tm : Timer) : bool := (due tm <=? t)%N.

(** The event loop reaches time [t]: the timers due by then run, in the
    order they were set (all timers of one client have the same delay),
    and leave the queue. *)
Definition advance (t : N) (w : World) : World :=
  let w' := fold_left fireTimer (List.filter (isDue t) (timers w)) w in
  mkWorld (client w') (promises w') (nextPromise w')
          (List.filter (fun tm => negb (isDue t tm)) (timers w))
          (writeCallbacks w') (N.max (now w) t).

(** The ['close'] handler of the socket and [disconnect()]: both leave
    [this.socket = null]. *)
Definition closed (w : World) : World :=
  mkWorld (with_socket (client w) None) (promises w) (nextPromise w)
          (timers w) (writeCallbacks w) (now w).

(** What can happen on one channel. *)
Inductive Event :=
| ESend (method : string) (params : option Json) (connectFails : option string)
| EResponse (r : JsonRpcResponse)
| EWriteError (i : nat) (err : string)
| EAdvance (t : N)
| EClose.

Definition step (w : World) (e : Event) : World :=
  match e with
  | ESend m ps cf => fst (send m ps cf w)
  | EResponse r => handleResponse r w
  | EWriteError i err => writeFailed i err w
  | EAdvance t => advance t w
  | EClose => closed w
  end.

Definition run (es : list Event) (w : World) : World := fold_left step es w.

(** [new DAWClient(dawType, 'localhost', port, timeout)] in a fresh runtime. *)
Definition init (d : DAWType) (timeoutMs : N) : World :=
  mkWorld (mkClient d timeoutMs None 0%N ∅) ∅ 0%nat [] [] 0%N.

End DAWClient.

(** ** helpers/indices.ts *)

(** Convert 1-based user index to 0-based internal index. *)
Definition toInternal (index : Z) : Z := index - 1.

(** Convert 0-based internal index to 1-based user index. *)
Definition toUser (index : Z) : Z := index + 1.

(** A JavaScript number is an IEEE 754 double. The handlers apply the
    two functions to indices, which stay far below 2^53, where [- 1] and
    [+ 1] are exact: the definitions above compute in [Z]. [Double] has
    the two functions on every double that holds an integer: the exact
    difference or sum is rounded to the nearest double, which has a
    significand of 53 bits, ties going to the even significand. *)
Module Double.

(** The distance between the doubles around [z]. *)
Definition ulp (z : Z) : Z := 2 ^ Z.max 0 (Z.log2 (Z.abs z) - 52).

Definition round (z : Z) : Z :=
  let u := ulp z in
  let q := z / u in
  let r := z mod u in
  if 2 * r <? u then q * u
  else if u <? 2 * r then (q + 1) * u
  else if Z.even q then q * u else (q + 1) * u.

(** The integers that are doubles. *)
Definition representable (z : Z) : Prop := round z = z.

Definition toInternal (index : Z) : Z := round (index - 1).

Definition toUser (index : Z) : Z := round (index + 1).

End Double.

(** ** The backend as the handlers see it

    Every handler talks to a DAW through [dawManager.send(method, params,
    daw)], which either yields the result of the remote method or throws
    (application error, connection error, timeout). The remote side is an
    arbitrary state machine [respond]; the commands a handler issues and
    the delays it waits are recorded in a trace. *)

Module Bridge.

(** Results of the remote methods, with the shapes the sources cast them
    to. *)
Record Selection := mkSelection {
  sel_trackIndex : Z;
  sel_slotIndex : Z }.

Record EmptySlots := mkEmptySlots {
  emptySlots : list Z;
  found : Z;
  requested : Z;
  es_sceneCount : Z }.

Record SceneCreation := mkSceneCreation {
  sc_success : bool;
  created : Z;
  sc_sceneCount : Z }.

(** The remote methods used by the handlers below, with their
    parameters. Note payloads are passed on untouched, and so are lengths
    in beats, taken whole here. A slot position of
    type [option Z] is one the handler computed from [emptySlots[0]]:
    [None] stands for the [undefined] (or [NaN]) that JavaScript yields
    on an empty array. *)
Inductive Command :=
| project_getInfo
| clip_getSelection
| clip_select (trackIndex : Z) (slotIndex : option Z)
| clip_hasContent (trackIndex slotIndex : Z)
| clip_findEmptySlots (trackIndex : Z) (startSlot : option Z) (count : Z)
| clip_createScene (count : Z)
| clip_getSceneCount
| clip_create (trackIndex : Z) (slotIndex : option Z) (lengthInBeats : Z)
| clip_delete (trackIndex slotIndex : Z)
| clip_setName (name : string)
| clip_moveNote (move : Json)
| clip_clearNote (note : Json)
| clip_clearAllNotes
| track_delete (index : Z).

Definition Reply (c : Command) : Type :=
  match c with
  | clip_getSelection => Selection
  | clip_hasContent _ _ => bool
  | clip_findEmptySlots _ _ _ => EmptySlots
  | clip_createScene _ => SceneCreation
  | clip_getSceneCount => Z
  | _ => Json
  end.

(** What a handler does to the outside, in order. *)
Inductive Action :=
| Sent (daw : DAWType) (c : Command)
| Slept (ms : Z).

(** The fields of [DAWClientManager] and of [Config] that are read. *)
Record DAWClientManager := mkManager {
  defaultDaw : DAWType;
  bitwigPort : Z;
  abletonPort : Z }.

Record Config := mkConfig {
  cfg_defaultDaw : DAWType;
  selectionDelayMs : Z }.

(** [interface BatchResult], with the optional fields the handlers below
    fill in. [None] is an omitted field. *)
Record ErrorEntry := mkError { index : Z; error : string }.

Record CreatedClip := mkCreatedClip {
  cc_trackIndex : Z;
  cc_slotIndex : option Z;
  cc_lengthInBeats : Z;
  cc_name : option string }.

Record BatchResult := mkBatchResult {
  success : bool;
  completed : Z;
  failed : Z;
  errors : option (list ErrorEntry);
  message : option string;
  createdClips : option (list CreatedClip);
  sceneCount : option Z;
  scenesCreated : option Z }.

(** One requested clip of [batch_create_clips] / [batch_delete_clips]. *)
Record ClipRequest := mkClipRequest {
  cr_trackIndex : option Z;
  cr_slotIndex : option Z;
  cr_lengthInBeats : option Z;
  cr_name : option string }.

(** [ctx.args], with the fields the handlers below read. *)
Record Args := mkArgs {
  arg_trackIndex : option Z;
  arg_slotIndex : option Z;
  arg_moves : list Json;
  arg_notes : option (list Json);
  arg_clips : option (list ClipRequest);
  arg_overwrite : option bool;
  arg_trackIndices : list Z }.

(** [connections] entries of [checkConnections]. *)
Record Connection := mkConnection {
  conn_daw : DAWType;
  connected : bool;
  isDefault : bool;
  port : Z }.

Inductive Outcome (A : Type) :=
| Returned (a : A)
| Thrown (msg : string).
Arguments Returned {A} a.
Arguments Thrown {A} msg.

Section WithBackend.

Context {B : Type}.
Variable respond : B -> DAWType -> forall c : Command, (string + Reply c) * B.
Variable dawManager : DAWClientManager.

Record World := mkWorld {
  backend : B;
  trace : list Action }.

(** An [async] function body: it reads and writes its [let] variables
    [S], acts on the world, and returns or throws. Assignments made before
    a [throw] stay in place, as in JavaScript. *)
Definition M (S A : Type) : Type := S -> World -> Outcome A * S * World.

Definition ret {S A} (a : A) : M S A := fun s w => (Returned a, s, w).

Definition throw {S A} (msg : string) : M S A := fun s w => (Thrown msg, s, w).

Definition bind {S A C} (m : M S A) (k : A -> M S C) : M S C :=
  fun s w =>
    match m s w with
    | (Returned a, s', w') => k a s' w'
    | (Thrown e, s', w') => (Thrown e, s', w')
    end.

(** [try { m } catch (e) { handler(e) }], [e] being the message. *)
Definition try_ {S A} (m : M S A) (handler : string -> M S A) : M S A :=
  fun s w =>
    match m s w with
    | (Returned a, s', w') => (Returned a, s', w')
    | (Thrown e, s', w') => handler e s' w'
    end.

Definition get {S} : M S S := fun s w => (Returned s, s, w).

Definition modify {S} (f : S -> S) : M S unit := fun s w => (Returned tt, f s, w).

(** A call of a function with its own [let] variables, starting at
    [locals]. *)
Definition call {S S' A} (locals : S') (m : M S' A) : M S A :=
  fun s w => let '(r, _, w') := m locals w in (r, s, w').

(** [dawManager.send(method, params, daw)]: the channel of
    [daw ?? this.defaultDaw] carries the command. *)
Definition send {S} (c : Command) (daw : option DAWType) : M S (Reply c) :=
  fun s w =>
    let target := default (defaultDaw dawManager) daw in
    let '(r, b) := respond (backend w) target c in
    (match r with inl e => Thrown e | inr v => Returned v end,
     s, mkWorld b (trace w ++ [Sent target c])).

(** [await new Promise(resolve => setTimeout(resolve, ms))] *)
Definition sleep {S} (ms : Z) : M S unit :=
  fun s w => (Returned tt, s, mkWorld (backend w) (trace w ++ [Slept ms])).


Notation "x <- m ;; k" := (bind m (fun x => k))
  (at level 100, m at next level, right associativity, only parsing).
Notation "m ;; k" := (bind m (fun _ => k))
  (at level 100, right associativity, only parsing).

(** [for (let i = 0; i < xs.length; i++) { body(i, xs[i]) }], started at
    index [i]. *)
Fixpoint forEach {S A} (body : Z -> A -> M S unit) (i : Z) (xs : list A)
  : M S unit :=
  match xs with
  | [] => ret tt
  | x :: rest => body i x ;; forEach body (i + 1) rest
  end.

(** *** daw-client.ts: [DAWClientManager] *)

Definition getPort (daw : DAWType) : Z :=
  match daw with
  | bitwig => bitwigPort dawManager
  | ableton => abletonPort dawManager
  end.

(** One element of the [dawTypes.map(async ...)] of [checkConnections]:
    [project.getInfo] is the ping. *)
Definition probe {S} (dawType : DAWType) : M S Connection :=
  isUp <- try_ (send project_getInfo (Some dawType) ;; ret true)
               (fun _ => ret false) ;;
  ret (mkConnection dawType isUp
         (DAWType_eqb dawType (defaultDaw dawManager)) (getPort dawType)).

(** [checkConnections()]: the two probes go to two different channels;
    [Promise.all] returns their results in the order of [dawTypes]. *)
Definition checkConnections {S} : M S (list Connection) :=
  b <- probe bitwig ;;
  a <- probe ableton ;;
  ret [b; a].

(** *** helpers/daw-resolution.ts *)

(** The test [explicitDaw === 'bitwig' || explicitDaw === 'ableton'] on
    the raw argument. *)
Definition explicitChoice (explicitDaw : option string) : option DAWType :=
  match explicitDaw with
  | Some text =>
      if String.eqb text "bitwig" then Some bitwig
      else if String.eqb text "ableton" then Some ableton
      else None
  | None => None
  end.

Definition resolveDaw {S} (explicitDaw : option string) (configDefault : DAWType)
  : M S DAWType :=
  match explicitChoice explicitDaw with
  | Some daw => ret daw
  | None =>
      connections <- checkConnections ;;
      match List.filter connected connections with
      | [only] => ret (conn_daw only)
      | _ => ret configDefault
      end
  end.

(** *** helpers/clip-selection.ts *)

Definition noSlotSelected : string :=
  "No clip slot selected. Select a slot in DAW or provide trackIndex/slotIndex (1-based).".

Definition resolveClipIndices {S} (daw : option DAWType)
    (trackIndex slotIndex : option Z) : M S (Z * Z) :=
  match trackIndex, slotIndex with
  | Some t, Some s => ret (toInternal t, toInternal s)
  | _, _ =>
      selection <- send clip_getSelection daw ;;
      if (sel_trackIndex selection =? -1) || (sel_slotIndex selection =? -1)
      then throw noSlotSelected
      else ret (sel_trackIndex selection, sel_slotIndex selection)
  end.

Definition slotHasContent {S} (daw : option DAWType) (trackIndex slotIndex : Z)
  : M S bool :=
  send (clip_hasContent trackIndex slotIndex) daw.

Definition findEmptySlots {S} (daw : option DAWType) (trackIndex : Z)
    (startSlot : option Z) (count : Z) : M S EmptySlots :=
  send (clip_findEmptySlots trackIndex startSlot count) daw.

Definition selectClipIfNeeded {S} (config : Config) (daw : option DAWType)
    (args : Args) : M S unit :=
  indices <- resolveClipIndices daw (arg_trackIndex args) (arg_slotIndex args) ;;
  match arg_trackIndex args, arg_slotIndex args with
  | Some _, Some _ =>
      send (clip_select (fst indices) (Some (snd indices))) daw ;;
      sleep (selectionDelayMs config)
  | _, _ => ret tt
  end.

(** *** handlers/batch-clips.ts: the auto-remediation policy *)

(** The [let] variables of [findEmptySlotsWithAutoCreate]. *)
Record AutoCreate := mkAutoCreate {
  emptyResult : EmptySlots;
  ac_scenesCreated : Z }.

(** The result is [{ ...emptyResult, scenesCreated }]. *)
Definition findEmptySlotsWithAutoCreate {S} (daw : option DAWType)
    (trackIndex : Z) (startSlot : option Z) (count : Z) : M S (EmptySlots * Z) :=
  first <- findEmptySlots daw trackIndex startSlot count ;;
  call (mkAutoCreate first 0)
    ((if found first <? count then
        let scenesNeeded := count - found first in
        try_
          (createResult <- send (clip_createScene scenesNeeded) daw ;;
           if sc_success createResult then
             modify (fun l => mkAutoCreate (emptyResult l) (created createResult)) ;;
             sleep 50 ;;
             again <- findEmptySlots daw trackIndex startSlot count ;;
             modify (fun l => mkAutoCreate again (ac_scenesCreated l))
           else ret tt)
          (fun _ => ret tt)
      else ret tt) ;;
     l <- get ;;
     ret (emptyResult l, ac_scenesCreated l)).

(** *** The batch handlers *)

(** The [let]/[const] accumulators of a batch handler: [completed],
    [errors], and for [handleBatchCreateClips] also [createdClips] and
    [cursorSlot]. *)
Record Locals := mkLocals {
  l_completed : Z;
  l_errors : list ErrorEntry;
  l_createdClips : list CreatedClip;
  l_cursorSlot : option Z }.

Definition start : Locals := mkLocals 0 [] [] None.

(** [completed++] *)
Definition incrCompleted : M Locals unit :=
  modify (fun l => mkLocals (l_completed l + 1) (l_errors l)
                            (l_createdClips l) (l_cursorSlot l)).

(** [errors.push({ index, error })] *)
Definition pushError (i : Z) (e : string) : M Locals unit :=
  modify (fun l => mkLocals (l_completed l) (l_errors l ++ [mkError i e])
                            (l_createdClips l) (l_cursorSlot l)).

(** [createdClips.push(clip)] *)
Definition pushCreated (c : CreatedClip) : M Locals unit :=
  modify (fun l => mkLocals (l_completed l) (l_errors l)
                            (l_createdClips l ++ [c]) (l_cursorSlot l)).

(** [cursorSlot = v] *)
Definition setCursorSlot (v : option Z) : M Locals unit :=
  modify (fun l => mkLocals (l_completed l) (l_errors l) (l_createdClips l) v).

Definition count {A} (xs : list A) : Z := Z.of_nat (length xs).

(** [...(errors.length > 0 && { errors })] *)
Definition errorsField (errs : list ErrorEntry) : option (list ErrorEntry) :=
  if 0 <? count errs then Some errs else None.

(** The object literal
    [{ success: errors.length === 0, completed, failed: errors.length,
       ...(errors.length > 0 && { errors }) }] that ends the handlers. *)
Definition tally (l : Locals) : BatchResult :=
  mkBatchResult (count (l_errors l) =? 0) (l_completed l) (count (l_errors l))
                (errorsField (l_errors l)) None None None None.

(** handlers/batch-notes.ts *)
Definition handleBatchMoveNotes {S} (config : Config) (daw : DAWType)
    (args : Args) : M S BatchResult :=
  call start
    (selectClipIfNeeded config (Some daw) args ;;
     forEach (fun i move =>
                try_ (send (clip_moveNote move) (Some daw) ;; incrCompleted)
                     (fun e => pushError i e))
             0 (arg_moves args) ;;
     l <- get ;;
     ret (tally l)).

Definition handleBatchClearNotes {S} (config : Config) (daw : DAWType)
    (args : Args) : M S BatchResult :=
  call start
    (selectClipIfNeeded config (Some daw) args ;;
     match arg_notes args with
     | None | Some [] =>
         try_ (send clip_clearAllNotes (Some daw) ;;
               ret (mkBatchResult true 1 0 None (Some "All notes cleared")
                                  None None None))
              (fun e => ret (mkBatchResult false 0 1 (Some [mkError 0 e])
                                           None None None None))
     | Some notes =>
         forEach (fun i note =>
                    try_ (send (clip_clearNote note) (Some daw) ;; incrCompleted)
                         (fun e => pushError i e))
                 0 notes ;;
         l <- get ;;
         ret (tally l)
     end).

(** handlers/batch-tracks.ts *)

(** [Array.prototype.sort(compare)] is a stable sort; for a comparator
    that is a consistent order its result is the one of this insertion
    sort, which puts an element behind those that do not compare greater. *)
Fixpoint insertBy (compare : Z -> Z -> Z) (x : Z) (sorted : list Z) : list Z :=
  match sorted with
  | [] => [x]
  | y :: rest =>
      if compare y x <=? 0 then y :: insertBy compare x rest
      else x :: y :: rest
  end.

Definition sort (compare : Z -> Z -> Z) (xs : list Z) : list Z :=
  fold_left (fun sorted x => insertBy compare x sorted) xs [].

Definition handleBatchDeleteTracks {S} (daw : DAWType) (args : Args)
  : M S BatchResult :=
  call start
    (let trackIndices := arg_trackIndices args in
     let internalIndices := map toInternal trackIndices in
     let sortedIndices := sort (fun a b => b - a) internalIndices in
     forEach (fun (i : Z) sortedIndex =>
                try_ (send (track_delete sortedIndex) (Some daw) ;; incrCompleted)
                     (fun e => pushError (toUser sortedIndex) e))
             0 sortedIndices ;;
     l <- get ;;
     ret (tally l)).


(** handlers/batch-clips.ts *)

(** A number inside a template string; [None] prints as [NaN]. *)
Definition numText (n : option Z) : string :=
  match n with
  | Some z => pretty z
  | None => "NaN"
  end.

(** [clip.name] where the source tests it for truthiness: the empty
    string counts as absent. *)
Definition givenName (name : option string) : option string :=
  match name with
  | Some text => if String.eqb text "" then None else Some text
  | None => None
  end.

(** The statements of [handleBatchCreateClips] from [// Create the clip]
    to [completed++]. *)
Definition createAt (config : Config) (daw : DAWType) (clip : ClipRequest)
    (trackIndex : Z) (slotIndex : option Z) (lengthInBeats : Z)
  : M Locals unit :=
  send (clip_create trackIndex slotIndex lengthInBeats) (Some daw) ;;
  match givenName (cr_name clip) with
  | Some name =>
      send (clip_select trackIndex slotIndex) (Some daw) ;;
      sleep (selectionDelayMs config) ;;
      send (clip_setName name) (Some daw) ;;
      ret tt
  | None => ret tt
  end ;;
  pushCreated (mkCreatedClip (toUser trackIndex) (option_map toUser slotIndex)
                             lengthInBeats (givenName (cr_name clip))) ;;
  incrCompleted.

(** The body of the loop [// Process each clip request]; leaving it early
    is the [continue] of the source. *)
Definition createOne (config : Config) (daw : DAWType) (overwrite : bool)
    (cursorTrack : Z) (i : Z) (clip : ClipRequest) : M Locals unit :=
  let lengthInBeats := default 4 (cr_lengthInBeats clip) in
  try_
    (let trackIndex :=
       match cr_trackIndex clip with
       | Some t => toInternal t
       | None => cursorTrack
       end in
     match cr_slotIndex clip with
     | Some requestedSlot =>
         let slotIndex := toInternal requestedSlot in
         hasContent <- slotHasContent (Some daw) trackIndex slotIndex ;;
         if hasContent && negb overwrite then
           pushError i
             ("Slot " +:+ pretty requestedSlot +:+ " on track "
              +:+ pretty (default (toUser cursorTrack) (cr_trackIndex clip))
              +:+ " has content. Use overwrite=true to replace.")
         else
           (if hasContent && overwrite
            then send (clip_delete trackIndex slotIndex) (Some daw) ;; ret tt
            else ret tt) ;;
           createAt config daw clip trackIndex (Some slotIndex) lengthInBeats
     | None =>
         l <- get ;;
         let cursorSlot := l_cursorSlot l in
         emptyResult <-
           findEmptySlotsWithAutoCreate (Some daw) trackIndex cursorSlot 1 ;;
         if found (fst emptyResult) =? 0 then
           pushError i
             ("No empty slots available from position "
              +:+ numText (option_map toUser cursorSlot)
              +:+ " even after attempting to create scenes. Scene count: "
              +:+ pretty (es_sceneCount (fst emptyResult)))
         else
           let slotIndex := head (emptySlots (fst emptyResult)) in
           setCursorSlot (option_map (fun v => v + 1) slotIndex) ;;
           createAt config daw clip trackIndex slotIndex lengthInBeats
     end)
    (fun e => pushError i e).

Definition handleBatchCreateClips {S} (config : Config) (daw : DAWType)
    (args : Args) : M S BatchResult :=
  call start
    (let overwrite := default false (arg_overwrite args) in
     cursor <- resolveClipIndices (Some daw) None None ;;
     let cursorTrack := fst cursor in
     setCursorSlot (Some (snd cursor)) ;;
     sceneCount <- send clip_getSceneCount (Some daw) ;;
     (if snd cursor >=? sceneCount then setCursorSlot (Some 0) else ret tt) ;;
     match arg_clips args with
     | None | Some [] =>
         l <- get ;;
         emptyResult <-
           findEmptySlotsWithAutoCreate (Some daw) cursorTrack (l_cursorSlot l) 1 ;;
         if found (fst emptyResult) =? 0 then
           ret (mkBatchResult false 0 1
                  (Some [mkError 0
                     ("No empty slots available even after attempting to create scenes. Scene count: "
                      +:+ pretty (es_sceneCount (fst emptyResult)))])
                  None None (Some (es_sceneCount (fst emptyResult))) None)
         else
           let targetSlot := head (emptySlots (fst emptyResult)) in
           try_
             (send (clip_create cursorTrack targetSlot 4) (Some daw) ;;
              pushCreated (mkCreatedClip (toUser cursorTrack)
                             (option_map toUser targetSlot) 4 None) ;;
              incrCompleted)
             (fun e => pushError 0 e) ;;
           l <- get ;;
           ret (mkBatchResult (count (l_errors l) =? 0) (l_completed l)
                  (count (l_errors l)) (errorsField (l_errors l)) None
                  (Some (l_createdClips l))
                  (Some (es_sceneCount (fst emptyResult)))
                  (if 0 <? snd emptyResult then Some (snd emptyResult) else None))
     | Some clips =>
         forEach (createOne config daw overwrite cursorTrack) 0 clips ;;
         l <- get ;;
         ret (mkBatchResult (count (l_errors l) =? 0) (l_completed l)
                (count (l_errors l)) (errorsField (l_errors l)) None
                (Some (l_createdClips l)) None None)
     end).

(** The body of the loop of [handleBatchDeleteClips]. *)
Definition deleteOne (daw : DAWType) (i : Z) (clip : ClipRequest)
  : M Locals unit :=
  try_
    (indices <- resolveClipIndices (Some daw) (cr_trackIndex clip) (cr_slotIndex clip) ;;
     send (clip_delete (fst indices) (snd indices)) (Some daw) ;;
     incrCompleted)
    (fun e => pushError i e).

Definition handleBatchDeleteClips {S} (daw : DAWType) (args : Args)
  : M S BatchResult :=
  call start
    (match arg_clips args with
     | None | Some [] =>
         indices <- resolveClipIndices (Some daw) None None ;;
         try_ (send (clip_delete (fst indices) (snd indices)) (Some daw) ;;
               incrCompleted)
              (fun e => pushError 0 e) ;;
         l <- get ;;
         ret (tally l)
     | Some clips =>
         forEach (deleteOne daw) 0 clips ;;
         l <- get ;;
         ret (tally l)
     end).

(** A handler run from a given state of the backend, with an empty
    trace. *)
Definition runFrom {A} (b : B) (m : M unit A) : Outcome A * list Action :=
  let '(r, _, w) := m tt (mkWorld b []) in (r, trace w).

End WithBackend.

End Bridge.

(** ** Predicates used to state the properties *)

Module ChannelSpec.
Import DAWClient.

(** The pending map of the channel. *)
Definition pending (w : World) : gmap string nat := pendingRequests (client w).

(** The requests made so far on the channel, as pairs of correlation id
    and caller promise. *)
Definition requests (w : World) : list (string * nat) := writeCallbacks w.

(** What holds of every world the channel can be in: ids and promises of
    the requests made so far are below the counters and determine each
    other, a pending entry belongs to a request whose promise is not yet
    settled, and timers belong to requests. *)
Record wf (w : World) : Prop := mkWf {
  wf_bound : forall id p, (id, p) ∈ requests w ->
      (p < nextPromise w)%nat /\
      exists n, (n <= requestId (client w))%N /\ id = pretty n;
  wf_fun : forall id p id' p', (id, p) ∈ requests w -> (id', p') ∈ requests w ->
      (id = id' <-> p = p');
  wf_nodup : NoDup (requests w).*1;
  wf_pending : forall id p, pending w !! id = Some p ->
      (id, p) ∈ requests w /\ promises w !! p = None;
  wf_timers : forall tm, tm ∈ timers w ->
      (timer_id tm, timer_reject tm) ∈ requests w;
  wf_promises : forall p o, promises w !! p = Some o -> (p < nextPromise w)%nat }.

(** Processing a list of response frames in the order given. *)
Definition handleResponses (rs : list JsonRpcResponse) (w : World) : World :=
  fold_left (fun w r => handleResponse r w) rs w.

(** An event that answers the request with correlation id [id] whose
    write callback is the [i]-th: a response frame bearing [id], or the
    failure of its write. *)
Definition answers (id : string) (i : nat) (e : Event) : bool :=
  match e with
  | EResponse r => String.eqb (resp_id r) id
  | EWriteError j _ => Nat.eqb j i
  | _ => false
  end.

Definition unanswered (id : string) (i : nat) (es : list Event) : bool :=
  forallb (fun e => negb (answers id i e)) es.

(** The event loop reaches the time [deadline]. *)
Definition reaches (deadline : N) (e : Event) : bool :=
  match e with
  | EAdvance t => (deadline <=? t)%N
  | _ => false
  end.

Definition expired (deadline : N) (es : list Event) : bool :=
  existsb (reaches deadline) es.

(** A channel with three requests in flight. *)
Definition threeInFlight : World :=
  run [ESend "track.list" None None; ESend "clip.list" None None;
       ESend "project.getInfo" None None] (init bitwig 10000%N).

End ChannelSpec.


(** ** Backends and predicates used to state the handler properties *)

Module BridgeSpec.
Import Bridge.

(** A scripted backend: it answers the [k]-th command it receives with
    the [k]-th entry of the script, and nothing once the script is used
    up (the request times out). *)
Definition Script : Type := list (forall c : Command, string + Reply c).

Definition scripted (b : Script) (daw : DAWType) (c : Command)
  : (string + Reply c) * Script :=
  match b with
  | [] => (inl (DAWClient.timeoutMessage daw), [])
  | answer :: rest => (answer c, rest)
  end.

(** Script entries: success with an unremarkable result, failure, and
    success with a given result for one method. *)
Definition ok (c : Command) : string + Reply c :=
  inr (match c return Reply c with
       | clip_getSelection => mkSelection 0 0
       | clip_hasContent _ _ => false
       | clip_findEmptySlots _ _ n => mkEmptySlots [0] 1 n 8
       | clip_createScene n => mkSceneCreation true n 9
       | clip_getSceneCount => 8
       | _ => JNull
       end).

Definition failing (msg : string) (c : Command) : string + Reply c := inl msg.

Definition selectionIs (sel : Selection) (c : Command) : string + Reply c :=
  match c return string + Reply c with
  | clip_getSelection => inr sel
  | other => ok other
  end.

Definition slotsAre (r : EmptySlots) (c : Command) : string + Reply c :=
  match c return string + Reply c with
  | clip_findEmptySlots _ _ _ => inr r
  | other => ok other
  end.

Definition sceneCreationIs (r : SceneCreation) (c : Command) : string + Reply c :=
  match c return string + Reply c with
  | clip_createScene _ => inr r
  | other => ok other
  end.

Definition manager : DAWClientManager := mkManager bitwig 8181 8182.

Definition config : Config := mkConfig bitwig 100.

Definition noArgs : Args := mkArgs None None [] None None None [].

(** A batch of five moves, with nothing addressed explicitly, and a
    backend that answers the selection query and then fails the moves at
    positions 1 and 3. *)
Definition fiveMoves : Args :=
  mkArgs None None [JNum 0; JNum 1; JNum 2; JNum 3; JNum 4] None None None [].

Definition fiveReplies : Script :=
  [ok; ok; failing "Invalid params: no note"; ok;
   failing "Request timeout (bitwig)"; ok].

(** Actions carried out one after the other until one fails, [run]
    telling how an action fares in a state: the error of the action that
    failed, if any, the actions that were carried out, that one
    included, and the state afterwards. *)
Fixpoint perform {X Act} (run : X -> Act -> option string * X) (x : X)
    (plan : list Act) : option string * list Act * X :=
  match plan with
  | [] => (None, [], x)
  | a :: rest =>
      match run x a with
      | (Some e, x') => (Some e, [a], x')
      | (None, x') =>
          let '(fate, done, x'') := perform run x' rest in
          (fate, a :: done, x'')
      end
  end.

(** The items of a batch handled in turn, each from the state the one
    before left behind, whatever its fate. [item x a] tells what handling
    [a] in state [x] comes to: the fate of the item ([None] when it
    completes, the error when it fails), what is sent and waited for, and
    the state afterwards. The result lists fate and actions item by
    item. *)
Fixpoint batch {X A Act} (item : X -> A -> option string * list Act * X)
    (x : X) (items : list A) : list (option string * list Act) * X :=
  match items with
  | [] => ([], x)
  | a :: rest =>
      let '(fate, acts, x') := item x a in
      let '(outs, x'') := batch item x' rest in
      ((fate, acts) :: outs, x'')
  end.

Section WithBackend.

Context {B : Type}.
Variable respond : B -> DAWType -> forall c : Command, (string + Reply c) * B.

(** The statements of [handleBatchCreateClips] that precede its loop:
    the cursor position and the scene count are fetched. *)
Definition cursorAndScenes {S} (dawManager : DAWClientManager) (daw : DAWType)
  : M S (Z * Z * Z) :=
  bind (resolveClipIndices respond dawManager (Some daw) None None)
    (fun cursor =>
       bind (send respond dawManager clip_getSceneCount (Some daw))
         (fun sceneCount => ret (cursor, sceneCount))).

(** Whether the liveness probe of [daw] succeeds in backend state [b]. *)
Definition reachable (b : B) (daw : DAWType) : bool :=
  match fst (respond b daw project_getInfo) with
  | inr _ => true
  | inl _ => false
  end.

(** The state of the backend after running [m] from state [b]. *)
Definition stateAfter {A} (b : B) (m : M unit A) : B :=
  backend (snd (m tt (mkWorld b []))).

(** The fate of a list of commands sent one after the other to [daw]
    from backend state [b]: for each the error message if it fails, and
    the state of the backend after the last. *)
Fixpoint attempt (b : B) (daw : DAWType) (cs : list Command)
  : list (option string) * B :=
  match cs with
  | [] => ([], b)
  | c :: rest =>
      let '(r, b') := respond b daw c in
      let '(os, b'') := attempt b' daw rest in
      (match r with inl e => Some e | inr _ => None end :: os, b'')
  end.

(** How one action fares in backend state [b]: the error if it is a
    command that fails, and the state afterwards. A delay does not touch
    the backend. *)
Definition carry (b : B) (a : Action) : option string * B :=
  match a with
  | Sent daw c =>
      let '(r, b') := respond b daw c in
      (match r with inl e => Some e | inr _ => None end, b')
  | Slept _ => (None, b)
  end.

(** Nothing is selected: the selection reports -1 for the track or the
    slot. *)
Definition unselected (sel : Selection) : bool :=
  (sel_trackIndex sel =? -1) || (sel_slotIndex sel =? -1).

(** What one item of [batch_delete_clips] comes to in backend state [b]:
    an item with both indices is deleted at once, one below each index;
    for any other item the selection is asked for, and the selected clip
    is deleted unless the query fails or nothing is selected. *)
Definition deletion (daw : DAWType) (b : B) (clip : ClipRequest)
  : option string * list Action * B :=
  match cr_trackIndex clip, cr_slotIndex clip with
  | Some t, Some s => perform carry b [Sent daw (clip_delete (t - 1) (s - 1))]
  | _, _ =>
      let query := Sent daw clip_getSelection in
      match respond b daw clip_getSelection with
      | (inl e, b1) => (Some e, [query], b1)
      | (inr sel, b1) =>
          if unselected sel then (Some noSlotSelected, [query], b1)
          else
            let '(fate, acts, b2) :=
              perform carry b1
                [Sent daw (clip_delete (sel_trackIndex sel) (sel_slotIndex sel))] in
            (fate, query :: acts, b2)
      end
  end.

(** One call of [findEmptySlotsWithAutoCreate] for one slot, from backend
    state [b]: its outcome, what it sends and waits for, and the state
    afterwards. *)
Definition capacity (dawManager : DAWClientManager) (daw : DAWType) (b : B)
    (trackIndex : Z) (startSlot : option Z)
  : Outcome (EmptySlots * Z) * list Action * B :=
  let '(r, _, w) :=
    findEmptySlotsWithAutoCreate respond dawManager (Some daw) trackIndex
      startSlot 1 tt (mkWorld b []) in
  (r, trace w, backend w).

(** What creating a clip at a given place takes: the creation, and for a
    clip with a name the selection of the new clip, the selection delay
    and the naming. *)
Definition createPlan (config : Config) (daw : DAWType) (clip : ClipRequest)
    (trackIndex : Z) (slotIndex : option Z) : list Action :=
  Sent daw (clip_create trackIndex slotIndex (default 4 (cr_lengthInBeats clip)))
  :: match givenName (cr_name clip) with
     | Some name =>
         [Sent daw (clip_select trackIndex slotIndex);
          Slept (selectionDelayMs config);
          Sent daw (clip_setName name)]
     | None => []
     end.

(** What one item of [batch_create_clips] comes to, in backend state
    [b] and with the cursor at slot [cursorSlot]. An item that names its
    slot asks whether the slot has content: an occupied slot is refused
    without [overwrite] and deleted first with it. An item that names no
    slot asks for an empty slot from the cursor on (expanding the scenes
    once if need be), is refused when there is none, and moves the
    cursor behind the slot it takes. The item fails with the error of
    the first command that fails. *)
Definition creation (dawManager : DAWClientManager) (config : Config)
    (daw : DAWType) (overwrite : bool) (cursorTrack : Z)
    (st : B * option Z) (clip : ClipRequest)
  : option string * list Action * (B * option Z) :=
  let b := fst st in
  let cursorSlot := snd st in
  let trackIndex :=
    match cr_trackIndex clip with
    | Some t => t - 1
    | None => cursorTrack
    end in
  match cr_slotIndex clip with
  | Some requestedSlot =>
      let query := Sent daw (clip_hasContent trackIndex (requestedSlot - 1)) in
      match respond b daw (clip_hasContent trackIndex (requestedSlot - 1)) with
      | (inl e, b1) => (Some e, [query], (b1, cursorSlot))
      | (inr hasContent, b1) =>
          if hasContent && negb overwrite then
            (Some ("Slot " +:+ pretty requestedSlot +:+ " on track "
                   +:+ pretty (default (cursorTrack + 1) (cr_trackIndex clip))
                   +:+ " has content. Use overwrite=true to replace."),
             [query], (b1, cursorSlot))
          else
            let '(fate, acts, b2) :=
              perform carry b1
                ((if hasContent
                  then [Sent daw (clip_delete trackIndex (requestedSlot - 1))]
                  else [])
                 ++ createPlan config daw clip trackIndex (Some (requestedSlot - 1))) in
            (fate, query :: acts, (b2, cursorSlot))
      end
  | None =>
      match capacity dawManager daw b trackIndex cursorSlot with
      | (Thrown e, queries, b1) => (Some e, queries, (b1, cursorSlot))
      | (Returned (emptyResult, _), queries, b1) =>
          if found emptyResult =? 0 then
            (Some ("No empty slots available from position "
                   +:+ numText (option_map (fun v => v + 1) cursorSlot)
                   +:+ " even after attempting to create scenes. Scene count: "
                   +:+ pretty (es_sceneCount emptyResult)),
             queries, (b1, cursorSlot))
          else
            let slotIndex := head (emptySlots emptyResult) in
            let '(fate, acts, b2) :=
              perform carry b1 (createPlan config daw clip trackIndex slotIndex) in
            (fate, queries ++ acts, (b2, option_map (fun v => v + 1) slotIndex))
      end
  end.

End WithBackend.

(** The error entries for the items that failed: item [x] at position
    [i] is reported under [tag i x]. *)
Fixpoint failures {A} (tag : Z -> A -> Z) (i : Z) (xs : list A)
    (os : list (option string)) : list ErrorEntry :=
  match xs, os with
  | x :: xs', o :: os' =>
      match o with
      | Some e => mkError (tag i x) e :: failures tag (i + 1) xs' os'
      | None => failures tag (i + 1) xs' os'
      end
  | _, _ => []
  end.

(** The number of items that succeeded. *)
Definition successes (os : list (option string)) : Z :=
  count (List.filter (fun o => match o with None => true | Some _ => false end) os).

(** A backend holding a bank of tracks, after [deleteTrack] of
    TrackHandler.java: [track.delete] removes the track at the index,
    which moves every later track one position down, and fails when no
    track exists there. *)
Definition trackBank (tracks : list string) (_ : DAWType) (c : Command)
  : (string + Reply c) * list string :=
  match c return (string + Reply c) * list string with
  | track_delete index =>
      if (0 <=? index) && (index <? count tracks)
      then (inr (JObj [("success", JBool true)]), delete (Z.to_nat index) tracks)
      else (inl ("Invalid params: Track does not exist at index: " +:+ pretty index),
            tracks)
  | _ => (inl "Method not found", tracks)
  end.

(** The items of a list whose position, counted from [i], satisfies
    [keep]. *)
Fixpoint keepFrom {A} (i : Z) (keep : Z -> bool) (xs : list A) : list A :=
  match xs with
  | [] => []
  | x :: rest =>
      if keep i then x :: keepFrom (i + 1) keep rest
      else keepFrom (i + 1) keep rest
  end.

Definition among (xs : list Z) (i : Z) : bool := existsb (Z.eqb i) xs.

(** The tracks that are not at one of the given 1-based positions. *)
Definition remaining (trackIndices : list Z) (tracks : list string) : list string :=
  keepFrom 1 (fun i => negb (among trackIndices i)) tracks.

Definition isSelect (a : Action) : bool :=
  match a with
  | Sent _ (clip_select _ _) => true
  | _ => false
  end.

Definition isSleep (a : Action) : bool :=
  match a with
  | Slept _ => true
  | _ => false
  end.

Definition isCreateScene (a : Action) : bool :=
  match a with
  | Sent _ (clip_createScene _) => true
  | _ => false
  end.

Definition isCapacityQuery (a : Action) : bool :=
  match a with
  | Sent _ (clip_findEmptySlots _ _ _) => true
  | _ => false
  end.

(** Exactly one of the two addressing arguments is supplied. *)
Definition partially (trackIndex slotIndex : option Z) : bool :=
  match trackIndex, slotIndex with
  | Some _, None | None, Some _ => true
  | _, _ => false
  end.

(** The result [r] reports a batch in which each item met the fate
    [fates] records for it ([None]: completed, [Some e]: failed with [e]):
    the completed items are counted, and the failed ones are listed in
    order, each by one entry tagged with its 0-based position. *)
Definition reportsByPosition (fates : list (option string)) (r : BatchResult)
  : Prop :=
  completed r = successes fates /\
  exists es,
    errors r = errorsField es /\ failed r = count es /\
    StronglySorted Z.lt (map index es) /\
    forall j e, mkError j e ∈ es <->
      exists k, fates !! k = Some (Some e) /\ j = Z.of_nat k.

(** The aggregate of a batch of [n] items. *)
Definition aggregated (n : Z) (r : BatchResult) : Prop :=
  completed r + failed r = n /\
  0 <= completed r /\ 0 <= failed r /\
  success r = (failed r =? 0) /\
  (errors r = None <-> failed r = 0) /\
  (forall es, errors r = Some es -> count es = failed r).

(** What a handler does when the step before its loop has done [step]:
    it throws what that step throws, having done no more than the step;
    and [after value before] tells what it does when the step returns
    [value], [before] being what the step sent and waited for. *)
Definition guarded {U R Act} (step : Outcome U * list Act)
    (run : Outcome R * list Act) (after : U -> list Act -> Prop) : Prop :=
  match step with
  | (Thrown e, before) => run = (Thrown e, before)
  | (Returned value, before) => after value before
  end.

(** The run of a handler returns a result whose summary is the aggregate
    of [n] items, and its trace is [acts]. *)
Definition aggregates {R Act} (summaryOf : R -> BatchResult)
    (run : Outcome R * list Act) (acts : list Act) (n : Z) : Prop :=
  exists r, run = (Returned r, acts) /\ aggregated n (summaryOf r).

(** The run of a handler returns a result that reports the fates
    [fates] by position. *)
Definition reports {R Act} (summaryOf : R -> BatchResult)
    (run : Outcome R * list Act) (fates : list (option string)) : Prop :=
  exists r, fst run = Returned r /\ reportsByPosition fates (summaryOf r).

End BridgeSpec.


(** ** daw-client.ts: framing of the inbound text

    The ['data'] listener hands [handleData] the text [data.toString()]
    of each chunk, decoded on its own; the model starts from these
    texts. *)

Module Framing.
Import DAWClient.

Definition newline : Ascii.ascii := Ascii.ascii_of_nat 10.

(** [text.split('\n')]: the pieces between the newlines; there is always
    at least one. *)
Fixpoint split (text : string) : list string :=
  match text with
  | EmptyString => [""]
  | String c rest =>
      if Ascii.eqb c newline then "" :: split rest
      else match split rest with
           | piece :: pieces => String c piece :: pieces
           | [] => [String c ""]
           end
  end.

Section Decoding.

(** What the guard [if (line.trim())] and [JSON.parse(line)] make of one
    line, read at the type [JsonRpcResponse] the source gives it: [None]
    for a blank line, which is skipped, and for a line the parser
    rejects, which the [catch] logs and skips. *)
Variable parse : string -> option JsonRpcResponse.

(** The body of the loop [for (const line of lines)]. *)
Definition handleLine (w : World) (line : string) : World :=
  match parse line with
  | Some response => handleResponse response w
  | None => w
  end.

(** [handleData(data)], on the field [buffer] and the rest of the
    world: [lines.pop() || ''] is the piece after the last newline. *)
Definition handleData (data : string) (st : string * World) : string * World :=
  let buffer := fst st +:+ data in
  let lines := split buffer in
  (List.last lines "", fold_left handleLine (removelast lines) (snd st)).

(** [handleData] called with the texts of the ['data'] events of a
    connection, in order. *)
Definition receive (chunks : list string) (st : string * World) : string * World :=
  fold_left (fun st data => handleData data st) chunks st.

End Decoding.

End Framing.

(** ** Predicates used to state the properties of the framing *)

Module FramingSpec.
Import DAWClient Framing.

(** Whether a text holds a newline, that is a complete line. *)
Fixpoint complete (text : string) : bool :=
  match text with
  | EmptyString => false
  | String c rest => Ascii.eqb c newline || complete rest
  end.

(** The text a list of chunks carries. *)
Definition joined (chunks : list string) : string :=
  foldr String.append "" chunks.

(** The pieces of a text that continues an unfinished line. *)
Definition glue (line : string) (pieces : list string) : list string :=
  match pieces with
  | piece :: rest => (line +:+ piece) :: rest
  | [] => [line]
  end.

(** A decoder that knows two frames. *)
Definition twoFrames (line : string) : option JsonRpcResponse :=
  if String.eqb line "{'id':'2','result':120}"
  then Some (mkResponse "2" (Some (JNum 120)) None)
  else if String.eqb line "{'id':'1','error':{'code':-32602,'message':'Invalid params: index'}}"
  then Some (mkResponse "1" None (Some (mkRpcError (-32602) "Invalid params: index")))
  else None.

Definition endOfLine : string := String newline "".

(** The ids [String(1)], ..., [String(n)]. *)
Definition idsUpTo (n : nat) : list string :=
  (fun k => pretty (N.of_nat k)) <$> seq 1 n.

End FramingSpec.


(** ** The Bitwig extension: MCPServer.java, CommandDispatcher.java and
    the handlers

    The other end of the channel. A [JsonObject] is a map from member
    names to values; a Java exception is represented by its class, as far
    as the [catch] clauses tell classes apart, and its message ([None]
    for [null]). *)

Module Extension.

Inductive Exception :=
| IllegalArgumentException (message : option string)
| OtherException (message : option string).

(** [e.getMessage()] inside a string concatenation. *)
Definition text (message : option string) : string := default "null" message.

(** [text.startsWith(prefix)] and [text.contains(needle)] *)
Definition startsWith (prefix text : string) : bool := String.prefix prefix text.

Fixpoint contains (needle text : string) : bool :=
  String.prefix needle text ||
  match text with
  | EmptyString => false
  | String _ rest => contains needle rest
  end.

(** [element.getAsString()] of Gson: a primitive yields its text, an
    array of one element the text of that element; [JsonNull], objects
    and other arrays throw ([None]). *)
Fixpoint getAsString (element : Json) : option string :=
  match element with
  | JStr s => Some s
  | JNum n => Some (pretty n)
  | JBool b => Some (if b then "true" else "false")
  | JArr [only] => getAsString only
  | JArr _ | JNull | JObj _ => None
  end.

(** [request.has('params') ? request.getAsJsonObject('params') : new
    JsonObject()]: the cast throws ([None]) on a member that is not an
    object. *)
Definition paramsOf (request : gmap string Json)
  : option (list (string * Json)) :=
  match request !! "params" with
  | None => Some []
  | Some (JObj fields) => Some fields
  | Some _ => None
  end.

(** The response of [processRequest]: a [JsonObject] with the member
    [jsonrpc] and the optional members [id], [result] and [error]. *)
Record RpcError := mkRpcError { code : Z; message : string }.

Record Response := mkResponse {
  jsonrpc : string;
  id : option Json;
  result : option Json;
  error : option RpcError }.

(** [createError(response, code, message)] *)
Definition createError (response : Response) (code : Z) (message : string)
  : Response :=
  mkResponse (jsonrpc response) (id response) (result response)
             (Some (mkRpcError code message)).

(** [method.split("\\.", 2)] when it yields two parts: the text before
    the first dot and the text after it. *)
Fixpoint splitAtDot (method : string) : option (string * string) :=
  match method with
  | EmptyString => None
  | String c rest =>
      if Ascii.eqb c (Ascii.ascii_of_nat 46) then Some ("", rest)
      else match splitAtDot rest with
           | Some (category, action) => Some (String c category, action)
           | None => None
           end
  end.

(** The cases of the [switch (category)] of [dispatch]. *)
Inductive Category := project | track | clip | transport | ping.

Definition categoryOf (category : string) : option Category :=
  if String.eqb category "project" then Some project
  else if String.eqb category "track" then Some track
  else if String.eqb category "clip" then Some clip
  else if String.eqb category "transport" then Some transport
  else if String.eqb category "ping" then Some ping
  else None.

Definition categoryName (c : Category) : string :=
  match c with
  | project => "project"
  | track => "track"
  | clip => "clip"
  | transport => "transport"
  | ping => "ping"
  end.

(** The cases of the [switch (action)] of the [handle] method of each
    handler. *)
Definition actions (c : Category) : list string :=
  match c with
  | project => ["getInfo"]
  | track =>
      ["list"; "get"; "create"; "delete"; "setName"; "setVolume"; "setPan";
       "setMute"; "setSolo"; "setArm"; "select"]
  | clip =>
      ["list"; "create"; "delete"; "stop"; "setName"; "select"; "getSelection";
       "getNotes"; "setNote"; "clearNote"; "clearAllNotes"; "clearNotesAtPitch";
       "transpose"; "setLength"; "setNoteVelocity"; "setNoteDuration";
       "setNoteGain"; "setNotePan"; "setNotePressure"; "setNoteTimbre";
       "setNoteTranspose"; "setNoteChance"; "setNoteMuted"; "moveNote";
       "hasContent"; "findEmptySlots"; "getSceneCount"; "createScene"]
  | transport => ["togglePlay"; "toggleRecord"; "setPosition"; "getStatus"]
  | ping => []
  end.

Section WithHost.

(** The state of the DAW, and what the body of each [case] does to it:
    it returns a result or throws. *)
Context {Host : Type}.
Variable perform : Category -> string -> list (string * Json) -> Host
                   -> (Exception + Json) * Host.

(** [handle(action, params)] of ProjectHandler, TrackHandler, ClipHandler
    and TransportHandler. *)
Definition handle (c : Category) (action : string)
    (params : list (string * Json)) (host : Host) : (Exception + Json) * Host :=
  if existsb (String.eqb action) (actions c) then perform c action params host
  else (inl (IllegalArgumentException
               (Some ("Unknown " +:+ categoryName c +:+ " action: " +:+ action))),
        host).

(** [dispatch(method, params)]; the case ["ping"] calls [handlePing()]
    whatever the action. *)
Definition dispatch (method : string) (params : list (string * Json))
    (host : Host) : (Exception + Json) * Host :=
  match splitAtDot method with
  | None =>
      (inl (IllegalArgumentException (Some ("Invalid method format: " +:+ method))),
       host)
  | Some (category, action) =>
      match categoryOf category with
      | Some ping => perform ping action params host
      | Some c => handle c action params host
      | None =>
          (inl (IllegalArgumentException (Some ("Unknown category: " +:+ category))),
           host)
      end
  end.

(** [processRequest(request)]. The result is [None] when an exception
    leaves the method, which happens before the [try] only: the task
    that called it then prints no response. *)
Definition processRequest (request : gmap string Json) (host : Host)
  : option Response * Host :=
  let response := mkResponse "2.0" (request !! "id") None None in
  match request !! "method" with
  | None => (Some (createError response (-32600) "Invalid Request: missing method"), host)
  | Some member =>
      match getAsString member with
      | None => (None, host)
      | Some method =>
          match paramsOf request with
          | None => (None, host)
          | Some params =>
              match dispatch method params host with
              | (inr result, host') =>
                  (Some (mkResponse (jsonrpc response) (id response) (Some result)
                           (error response)), host')
              | (inl (IllegalArgumentException message), host') =>
                  (Some
                     (match message with
                      | Some text =>
                          if contains " action:" text || contains "category:" text
                             || startsWith "Invalid method" text
                          then createError response (-32601)
                                 ("Method not found: " +:+ method)
                          else createError response (-32602)
                                 ("Invalid params: " +:+ text)
                      | None =>
                          createError response (-32602) ("Invalid params: " +:+ "null")
                      end), host')
              | (inl (OtherException message), host') =>
                  (Some (createError response (-32603)
                           ("Internal error: " +:+ text message)), host')
              end
          end
      end
  end.

End WithHost.

(** *** ClipHandler.java *)

(** [midiNoteToName(midiNote)]: [/] and [%] of Java truncate towards
    zero; a negative index into [noteNames] throws. *)
Definition noteNames : list string :=
  ["C"; "C#"; "D"; "D#"; "E"; "F"; "F#"; "G"; "G#"; "A"; "A#"; "B"].

Definition midiNoteToName (midiNote : Z) : option string :=
  let octave := Z.quot midiNote 12 - 2 in
  let noteIndex := Z.rem midiNote 12 in
  if noteIndex <? 0 then None
  else option_map (fun name => name +:+ pretty octave)
                  (noteNames !! Z.to_nat noteIndex).

(** The result of [findEmptySlots]. *)
Record EmptySlots := mkEmptySlots {
  es_trackIndex : Z;
  emptySlots : list Z;
  found : Z;
  requested : Z;
  sceneCount : Z }.

(** The loop [for (int i = startSlot; i < sceneCount && emptySlots.size()
    < count; i++)] of [findEmptySlots], over the positions [slots] that
    are still to come; [hasContent i] is
    [slotBank.getItemAt(i).hasContent().get()]. *)
Fixpoint scan (hasContent : Z -> bool) (count : Z) (slots : list Z)
    (emptySlots : list Z) : list Z :=
  match slots with
  | [] => emptySlots
  | i :: rest =>
      if Z.of_nat (length emptySlots) <? count
      then scan hasContent count rest
             (if hasContent i then emptySlots else emptySlots ++ [i])
      else emptySlots
  end.

(** [findEmptySlots(params)] once [trackIndex], [startSlot] and [count]
    are read from [params]; [exists] tells whether the track at
    [trackIndex] exists and [hasContent] which of its slots are filled. *)
Definition findEmptySlots (exists_ : bool) (hasContent : Z -> bool)
    (sceneCount : Z) (trackIndex startSlot count : Z) : Exception + EmptySlots :=
  if negb exists_ then
    inl (IllegalArgumentException
           (Some ("Track does not exist at index: " +:+ pretty trackIndex)))
  else
    let emptySlots :=
      scan hasContent count (seqZ startSlot (sceneCount - startSlot)) [] in
    inr (mkEmptySlots trackIndex emptySlots (Z.of_nat (length emptySlots))
                      count sceneCount).

End Extension.

(** ** Predicates used to state the properties of the extension *)

Module ExtensionSpec.
Import Extension.

(** Whether [method] names a case of the dispatcher and of the handler
    it is routed to. *)
Definition dispatchable (method : string) : bool :=
  match splitAtDot method with
  | Some (category, action) =>
      match categoryOf category with
      | Some ping => true
      | Some c => existsb (String.eqb action) (actions c)
      | None => false
      end
  | None => false
  end.

(** The requests [processRequest] is written for: [method], when
    present, is a string and [params], when present, an object. *)
Definition wellFormed (request : gmap string Json) : bool :=
  match request !! "method" with
  | None | Some (JStr _) => true
  | Some _ => false
  end &&
  match request !! "params" with
  | None | Some (JObj _) => true
  | Some _ => false
  end.

(** The error codes of JSON-RPC the server uses. *)
Definition errorCodes : list Z := [-32600; -32601; -32602; -32603].

(** A host that counts the calls it performs, and rejects the deletion
    of a track. *)
Definition counting (c : Category) (action : string)
    (params : list (string * Json)) (calls : nat)
  : (Exception + Json) * nat :=
  match c, action with
  | track, "delete" =>
      (inl (IllegalArgumentException (Some "Track does not exist at index: 7")),
       S calls)
  | _, _ => (inr (JObj [("success", JBool true)]), S calls)
  end.

(** A slot without content. *)
Definition isEmpty (hasContent : Z -> bool) (i : Z) : bool := negb (hasContent i).

(** The MIDI note numbers, and whether two of them are given the same
    name. *)
Definition midiNotes : list Z := seqZ 0 128.

Definition sameName (a b : Z) : bool :=
  match midiNoteToName a, midiNoteToName b with
  | Some x, Some y => String.eqb x y
  | _, _ => false
  end.

End ExtensionSpec.


From Stdlib Require QArith Qround.

(** ** handlers/index.ts and handlers/clip-stats.ts: notes

    Positions and lengths in beats are JavaScript numbers that need not
    be whole; they are modelled by rationals, which every finite number
    is, and on which [-], [<], [Math.floor] and [Math.ceil] are those of
    JavaScript. Pitches are MIDI note numbers, integers. *)

Module Notes.
Import QArith_base Qround.
Local Open Scope Z_scope.

Record Note := mkNote {
  x : Q;
  y : Z;
  velocity : Q;
  duration : Q }.

(** The comparator [(a, b) => a.x - b.x || a.y - b.y]: the difference of
    the positions unless it is zero. *)
Definition byTimeThenPitch (a b : Note) : Q :=
  let d := (x a - x b)%Q in
  if Qeq_bool d 0%Q then inject_Z (y a - y b) else d.

(** [Array.prototype.sort(compare)] is a stable sort; for a comparator
    that is a consistent order its result is the one of this insertion
    sort, which puts an element behind those that do not compare greater. *)
Fixpoint insertWith {A} (compare : A -> A -> Q) (item : A) (sorted : list A)
  : list A :=
  match sorted with
  | [] => [item]
  | other :: rest =>
      if Qle_bool (compare other item) 0%Q then other :: insertWith compare item rest
      else item :: other :: rest
  end.

Definition sortWith {A} (compare : A -> A -> Q) (items : list A) : list A :=
  fold_left (fun sorted item => insertWith compare item sorted) items [].

(** [sortNotes(notes)] *)
Definition sortNotes (notes : list Note) : list Note :=
  sortWith byTimeThenPitch notes.

(** *** The statements of [computeClipStats] on pitches and on the beat
    grid (clip-stats.ts) *)

(** [Math.min(...values)] and [Math.max(...values)] of a list that is
    not empty. *)
Definition minimum (first : Z) (rest : list Z) : Z := fold_left Z.min rest first.
Definition maximum (first : Z) (rest : list Z) : Z := fold_left Z.max rest first.

Record PitchRange := mkPitchRange { min : Z; max : Z; span : Z }.

(** The field [pitchRange]: [null] for a clip without notes. With
    notes, [Math.min(...pitches)] passes every pitch as an argument of
    one call; an engine takes only so many arguments ([spreadLimit], a
    bound that depends on the engine and on its stack) and throws a
    [RangeError] when there are more: the result is then [None]. *)
Definition pitchRange (spreadLimit : nat) (notes : list Note)
  : option (option PitchRange) :=
  match map y notes with
  | [] => Some None
  | first :: rest =>
      if (spreadLimit <? length notes)%nat then None
      else
        let minPitch := minimum first rest in
        let maxPitch := maximum first rest in
        Some (Some (mkPitchRange minPitch maxPitch (maxPitch - minPitch)))
  end.

(** [Array.from(new Set(values))]: the values in the order of their
    first occurrence. *)
Fixpoint distinct (seen values : list Z) : list Z :=
  match values with
  | [] => []
  | v :: rest =>
      if existsb (Z.eqb v) seen then distinct seen rest
      else v :: distinct (seen ++ [v]) rest
  end.

(** The field [pitchClasses], computed once [pitchRange] is; [%] is the
    remainder of JavaScript, which has the sign of the dividend. *)
Definition pitchClasses (notes : list Note) : list Z :=
  Bridge.sort (fun a b => a - b)
    (distinct [] (map (fun p => Z.rem p 12) (map y notes))).

(** The field [beatGrid]: [new Array(gridSize).fill(0)] throws (the
    result is [None]) unless [0 <= gridSize < 2^32]; a note marks the
    cell of the beat it starts in. *)
Definition markBeat (gridSize : Z) (beatGrid : list Z) (note : Note) : list Z :=
  let beatIndex := Qfloor (x note) in
  if (0 <=? beatIndex) && (beatIndex <? gridSize)
  then <[Z.to_nat beatIndex := 1]> beatGrid
  else beatGrid.

Definition beatGrid (notes : list Note) (clipLengthBeats : Q) : option (list Z) :=
  let gridSize := Qceiling clipLengthBeats in
  if (gridSize <? 0) || (4294967295 <? gridSize) then None
  else Some (fold_left (markBeat gridSize) notes (replicate (Z.to_nat gridSize) 0)).

End Notes.

(** ** Predicates used to state the properties of notes *)

Module NotesSpec.
Import QArith_base Qround Notes.
Local Open Scope Z_scope.

(** [a] may stand before [b]: it starts earlier, or at the same time and
    not higher. *)
Definition inOrder (a b : Note) : Prop :=
  (x a < x b)%Q \/ ((x a == x b)%Q /\ y a <= y b).

(** The notes that start when [k] does, at the pitch of [k]. *)
Definition sameKey (k a : Note) : bool :=
  Qeq_bool (x a) (x k) && (y a =? y k).

(** What a comparator says about two items. *)
Definition notAfter {A} (compare : A -> A -> Q) (a b : A) : Prop :=
  Qle_bool (compare a b) 0%Q = true.

Definition tied {A} (compare : A -> A -> Q) (k a : A) : bool :=
  Qle_bool (compare k a) 0%Q && Qle_bool (compare a k) 0%Q.

(** The note starts within beat [i], the beats counted from 0. *)
Definition startsIn (i : nat) (note : Note) : bool :=
  Qfloor (x note) =? Z.of_nat i.

(** A chord on the first beat behind a note on the second. *)
Definition phrase : list Note :=
  [mkNote (5 # 4) 60 (4 # 5) (1 # 4);
   mkNote 0%Q 67 (4 # 5) 1%Q;
   mkNote 0%Q 60 (4 # 5) 1%Q;
   mkNote 0%Q 64 (4 # 5) 1%Q].

End NotesSpec.


(** ** The other tool handlers

    The handlers of batch-notes.ts, batch-tracks.ts, batch-clips.ts and
    operations.ts that use remote methods beyond those above. They run
    in the same kind of world: an arbitrary backend that answers or
    fails each command, and a trace of what was sent and waited for.
    The arguments have the types the handlers cast them to. *)

Module Tools.
Import QArith_base.
Local Open Scope Z_scope.

(** One entry of the [clips] array that [clip.list] returns: its
    [slotIndex] and the members that are passed on as they are. *)
Record ClipInfo := mkClipInfo {
  ci_slotIndex : Z;
  ci_rest : Json }.

(** The result of [clip.getNotes], as the sources cast it. *)
Record NotesResult := mkNotesResult {
  nr_notes : option (list Notes.Note);
  nr_clipLength : option Q }.

(** The members of a note that [clip.setNote] and [clip.setNotes] are
    given; [None] is a member that is [undefined] (or the [NaN] that
    quantizing [undefined] yields). *)
Record NoteInput := mkNoteInput {
  ni_x : option Q;
  ni_y : option Z;
  ni_velocity : option Q;
  ni_duration : option Q }.

(** A note as [batch_set_notes] takes it: an array
    [[x, y, velocity, duration]], or an object with these members. *)
Inductive RawNote :=
| noteArray (arr : NoteInput)
| noteObject (note : NoteInput).

(** The properties [batch_set_note_properties] can set; [muted] is the
    one that holds a boolean. *)
Inductive Property :=
| velocity | duration | gain | pan | pressure | timbre | transpose | chance.

Inductive PropertyEntry :=
| numeric (prop : Property) (value : Q)
| muted (value : bool).

(** A note of [batch_set_note_properties]: [x], [y], and the entries of
    the other members in the order [Object.entries] lists them. *)
Record NoteProperties := mkNoteProperties {
  np_x : Q;
  np_y : Z;
  np_properties : list PropertyEntry }.

(** A clip of [batch_get_notes]. *)
Record ClipAddress := mkClipAddress {
  ca_trackIndex : Z;
  ca_slotIndex : Z }.

(** The [notes] of a clip as [batch_get_notes] returns them: whole notes
    when [verbose], else rows [[x, y, velocity, duration]]. *)
Inductive NotesPayload :=
| verboseNotes (notes : list Notes.Note)
| leanNotes (rows : list (Q * Z * Z * Q)).

Record ClipNotes := mkClipNotes {
  cn_trackIndex : Z;
  cn_slotIndex : Z;
  cn_notes : NotesPayload }.

(** The remote methods: those of the handlers above ([core]) and the
    further ones, each with the parameters the handlers below give it.
    An optional parameter that is [None] is left out of the request. *)
Inductive Command :=
| core (c : Bridge.Command)
| track_create (type : string) (position : option Z)
| track_setName (index : Z) (name : string)
| track_setVolume (index : Z) (volume : Q)
| track_setMute (index : Z) (mute : bool)
| track_setSolo (index : Z) (solo : bool)
| clip_list (trackIndex : Z)
| clip_getNotes
| clip_setNote (note : NoteInput)
| clip_setNotes (notes : list NoteInput)
| clip_setNoteProperty (prop : Property) (x : Q) (y : Z) (value : Q)
| clip_setNoteMuted (x : Q) (y : Z) (muted : bool)
| clip_moveNote (x : option Q) (y : option Z) (dx dy : Z)
| clip_clearNote (x : option Q) (y : option Z)
| clip_transpose (semitones : Z).

(** [track.create] answers [{ index?: number }]. *)
Definition Reply (c : Command) : Type :=
  match c with
  | core c' => Bridge.Reply c'
  | track_create _ _ => option Z
  | clip_list _ => list ClipInfo
  | clip_getNotes => NotesResult
  | _ => Json
  end.

Inductive Action :=
| Sent (daw : DAWType) (c : Command)
| Slept (ms : Z).

Definition coreAction (a : Bridge.Action) : Action :=
  match a with
  | Bridge.Sent daw c => Sent daw (core c)
  | Bridge.Slept ms => Slept ms
  end.

(** The elements of [args.tracks] and [args.operations]. *)
Record TrackRequest := mkTrackRequest {
  tr_type : string;
  tr_name : option string;
  tr_position : option Z }.

Record TrackProperties := mkTrackProperties {
  tp_index : Z;
  tp_name : option string;
  tp_volume : option Q;
  tp_mute : option bool;
  tp_solo : option bool }.

Record Operation := mkOperation {
  op_action : string;
  op_x : option Q;
  op_y : option Z;
  op_dx : option Z;
  op_dy : option Z;
  op_velocity : option Q;
  op_duration : option Q;
  op_semitones : option Z }.

(** An entry of the [tracks] member of the result of
    [handleBatchListClips]. *)
Record TrackClips := mkTrackClips {
  tc_trackIndex : Z;
  tc_clips : list ClipInfo }.

(** [interface BatchResult]: the members every handler fills in, and the
    optional ones the handlers below add ([None]: omitted). *)
Record Result := mkResult {
  summary : Bridge.BatchResult;
  createdIndices : option (list Z);
  tracks : option (list TrackClips);
  notesFound : option Z;
  clips : option (list ClipNotes) }.

Section WithBackend.

Context {B : Type}.
Variable respond : B -> DAWType -> forall c : Command, (string + Reply c) * B.
Variable dawManager : Bridge.DAWClientManager.

Record World := mkWorld {
  backend : B;
  trace : list Action }.

(** An [async] function body, as above. *)
Definition M (S A : Type) : Type := S -> World -> Bridge.Outcome A * S * World.

Definition ret {S A} (a : A) : M S A := fun s w => (Bridge.Returned a, s, w).

Definition throw {S A} (msg : string) : M S A :=
  fun s w => (Bridge.Thrown msg, s, w).

Definition bind {S A C} (m : M S A) (k : A -> M S C) : M S C :=
  fun s w =>
    match m s w with
    | (Bridge.Returned a, s', w') => k a s' w'
    | (Bridge.Thrown e, s', w') => (Bridge.Thrown e, s', w')
    end.

Definition try_ {S A} (m : M S A) (handler : string -> M S A) : M S A :=
  fun s w =>
    match m s w with
    | (Bridge.Returned a, s', w') => (Bridge.Returned a, s', w')
    | (Bridge.Thrown e, s', w') => handler e s' w'
    end.

Definition get {S} : M S S := fun s w => (Bridge.Returned s, s, w).

Definition modify {S} (f : S -> S) : M S unit :=
  fun s w => (Bridge.Returned tt, f s, w).

Definition call {S S' A} (locals : S') (m : M S' A) : M S A :=
  fun s w => let '(r, _, w') := m locals w in (r, s, w').

(** [dawManager.send(method, params, daw)] *)
Definition send {S} (c : Command) (daw : option DAWType) : M S (Reply c) :=
  fun s w =>
    let target := default (Bridge.defaultDaw dawManager) daw in
    let '(r, b) := respond (backend w) target c in
    (match r with inl e => Bridge.Thrown e | inr v => Bridge.Returned v end,
     s, mkWorld b (trace w ++ [Sent target c])).

(** [await new Promise(resolve => setTimeout(resolve, ms))] *)
Definition sleep {S} (ms : Z) : M S unit :=
  fun s w => (Bridge.Returned tt, s, mkWorld (backend w) (trace w ++ [Slept ms])).

(** A call of one of the functions above: it talks to the same backend,
    and what it sends and waits for comes behind what went before. *)
Definition lift {S A}
    (m : Bridge.M (B:=B) S A) : M S A :=
  fun s w =>
    let '(r, s', w') := m s (Bridge.mkWorld (backend w) []) in
    (r, s', mkWorld (Bridge.backend w') (trace w ++ map coreAction (Bridge.trace w'))).

Definition coreRespond (b : B) (daw : DAWType) (c : Bridge.Command)
  : (string + Bridge.Reply c) * B :=
  respond b daw (core c).

Definition selectClipIfNeeded {S} (config : Bridge.Config) (daw : option DAWType)
    (args : Bridge.Args) : M S unit :=
  lift (Bridge.selectClipIfNeeded coreRespond dawManager config daw args).

Notation "x <- m ;; k" := (bind m (fun x => k))
  (at level 100, m at next level, right associativity, only parsing).
Notation "m ;; k" := (bind m (fun _ => k))
  (at level 100, right associativity, only parsing).

Fixpoint forEach {S A} (body : Z -> A -> M S unit) (i : Z) (xs : list A)
  : M S unit :=
  match xs with
  | [] => ret tt
  | x :: rest => body i x ;; forEach body (i + 1) rest
  end.

(** [for (const x of xs) { body(x) }] *)
Fixpoint forOf {S A} (body : A -> M S unit) (xs : list A) : M S unit :=
  match xs with
  | [] => ret tt
  | x :: rest => body x ;; forOf body rest
  end.

(** The accumulators of the handlers below: [completed], [errors],
    [createdIndices], and [results] of [handleBatchListClips] and of
    [handleBatchGetNotes]. *)
Record Locals := mkLocals {
  l_completed : Z;
  l_errors : list Bridge.ErrorEntry;
  l_createdIndices : list Z;
  l_results : list TrackClips;
  l_clips : list ClipNotes }.

Definition start : Locals := mkLocals 0 [] [] [] [].

Definition incrCompleted : M Locals unit :=
  modify (fun l => mkLocals (l_completed l + 1) (l_errors l)
                            (l_createdIndices l) (l_results l) (l_clips l)).

Definition pushError (i : Z) (e : string) : M Locals unit :=
  modify (fun l => mkLocals (l_completed l) (l_errors l ++ [Bridge.mkError i e])
                            (l_createdIndices l) (l_results l) (l_clips l)).

Definition pushCreatedIndex (index : Z) : M Locals unit :=
  modify (fun l => mkLocals (l_completed l) (l_errors l)
                            (l_createdIndices l ++ [index]) (l_results l)
                            (l_clips l)).

Definition pushResult (r : TrackClips) : M Locals unit :=
  modify (fun l => mkLocals (l_completed l) (l_errors l)
                            (l_createdIndices l) (l_results l ++ [r])
                            (l_clips l)).

Definition pushClipNotes (r : ClipNotes) : M Locals unit :=
  modify (fun l => mkLocals (l_completed l) (l_errors l)
                            (l_createdIndices l) (l_results l)
                            (l_clips l ++ [r])).

(** The members [success], [completed], [failed] and [errors] of the
    object literals that end the handlers. *)
Definition tally (completed : Z) (errors : list Bridge.ErrorEntry)
  : Bridge.BatchResult :=
  Bridge.mkBatchResult (Bridge.count errors =? 0) completed (Bridge.count errors)
                       (Bridge.errorsField errors) None None None None.

(** *** handlers/batch-tracks.ts *)

(** A position of -1 stands for the end and stays as it is. *)
Definition internalPosition (position : Z) : Z :=
  if position =? -1 then -1 else toInternal position.

(** The body of the loop of [handleBatchCreateTracks]. *)
Definition createTrack (daw : DAWType) (i : Z) (track : TrackRequest)
  : M Locals unit :=
  try_
    (result <- send (track_create (tr_type track)
                       (option_map internalPosition (tr_position track)))
                    (Some daw) ;;
     match result with
     | Some index => pushCreatedIndex (toUser index)
     | None => ret tt
     end ;;
     match Bridge.givenName (tr_name track), result with
     | Some name, Some index =>
         send (track_setName index name) (Some daw) ;; ret tt
     | _, _ => ret tt
     end ;;
     incrCompleted)
    (fun e => pushError i e).

Definition handleBatchCreateTracks {S} (daw : DAWType) (tracks : list TrackRequest)
  : M S Result :=
  call start
    (forEach (createTrack daw) 0 tracks ;;
     l <- get ;;
     ret (mkResult (tally (l_completed l) (l_errors l))
                   (Some (l_createdIndices l)) None None None)).

(** The body of the loop of [handleBatchSetTrackProperties]. *)
Definition setTrackProperties (daw : DAWType) (i : Z) (track : TrackProperties)
  : M Locals unit :=
  let internalIndex := toInternal (tp_index track) in
  try_
    (match tp_name track with
     | Some name => send (track_setName internalIndex name) (Some daw) ;; ret tt
     | None => ret tt
     end ;;
     match tp_volume track with
     | Some volume => send (track_setVolume internalIndex volume) (Some daw) ;; ret tt
     | None => ret tt
     end ;;
     match tp_mute track with
     | Some mute => send (track_setMute internalIndex mute) (Some daw) ;; ret tt
     | None => ret tt
     end ;;
     match tp_solo track with
     | Some solo => send (track_setSolo internalIndex solo) (Some daw) ;; ret tt
     | None => ret tt
     end ;;
     incrCompleted)
    (fun e => pushError i e).

Definition handleBatchSetTrackProperties {S} (daw : DAWType)
    (tracks : list TrackProperties) : M S Result :=
  call start
    (forEach (setTrackProperties daw) 0 tracks ;;
     l <- get ;;
     ret (mkResult (tally (l_completed l) (l_errors l)) None None None None)).

(** *** handlers/batch-clips.ts *)

Definition noTrackSelected : string :=
  "No track selected. Select a track in DAW or provide trackIndex/trackIndices (1-based).".

(** The body of the loop of [handleBatchListClips]. *)
Definition listClips (daw : DAWType) (i : Z) (trackIndex : Z) : M Locals unit :=
  let internalTrack := toInternal trackIndex in
  try_
    (clips <- send (clip_list internalTrack) (Some daw) ;;
     let convertedClips :=
       map (fun clip => mkClipInfo (toUser (ci_slotIndex clip)) (ci_rest clip))
           clips in
     pushResult (mkTrackClips trackIndex convertedClips))
    (fun e => pushError i e).

(** The statements of [handleBatchListClips] from the loop on. *)
Definition listTracks (daw : DAWType) (trackIndices : list Z) : M Locals Result :=
  forEach (listClips daw) 0 trackIndices ;;
  l <- get ;;
  ret (mkResult (tally (Bridge.count (l_results l)) (l_errors l))
                None (Some (l_results l)) None None).

Definition handleBatchListClips {S} (daw : DAWType) (args : Bridge.Args)
  : M S Result :=
  call start
    (match Bridge.arg_trackIndices args, Bridge.arg_trackIndex args with
     | first :: more, _ => listTracks daw (first :: more)
     | [], Some trackIndex => listTracks daw [trackIndex]
     | [], None =>
         selection <- send (core Bridge.clip_getSelection) (Some daw) ;;
         if Bridge.sel_trackIndex selection =? -1 then
           ret (mkResult
                  (Bridge.mkBatchResult false 0 1
                     (Some [Bridge.mkError 0 noTrackSelected]) None None None None)
                  None None None None)
         else listTracks daw [toUser (Bridge.sel_trackIndex selection)]
     end).

(** *** handlers/operations.ts *)

(** The predicate of [notes.filter] in [handleTransposeRange]. *)
Definition inRange (startStep endStep : Q) (pitchFilter : option Z)
    (n : Notes.Note) : bool :=
  let inRange := Qle_bool startStep (Notes.x n) && Qle_bool (Notes.x n) endStep in
  let matchesPitch :=
    match pitchFilter with
    | None => true
    | Some pitch => Notes.y n =? pitch
    end in
  inRange && matchesPitch.

Definition handleTransposeRange {S} (config : Bridge.Config) (daw : DAWType)
    (args : Bridge.Args) (startStep endStep : Q) (semitones : Z)
    (pitchFilter : option Z) : M S Result :=
  call start
    (selectClipIfNeeded config (Some daw) args ;;
     notesResult <- send clip_getNotes (Some daw) ;;
     let notes := default [] (nr_notes notesResult) in
     let notesToMove := List.filter (inRange startStep endStep pitchFilter) notes in
     match notesToMove with
     | [] =>
         ret (mkResult
                (Bridge.mkBatchResult true 0 0 None
                   (Some "No notes found in specified range") None None None)
                None None None None)
     | _ =>
         forEach (fun i note =>
                    try_ (send (clip_moveNote (Some (Notes.x note)) (Some (Notes.y note))
                                  0 semitones) (Some daw) ;;
                          incrCompleted)
                         (fun e => pushError i e))
                 0 notesToMove ;;
         l <- get ;;
         ret (mkResult (tally (l_completed l) (l_errors l)) None None
                       (Some (Bridge.count notesToMove)) None)
     end).

(** The [switch (op.action)] of [handleBatchOperations]: an action that
    matches no case sends nothing. *)
Definition operate (daw : DAWType) (op : Operation) : M Locals unit :=
  if String.eqb (op_action op) "set" then
    send (clip_setNote
            (mkNoteInput (op_x op) (op_y op)
               (Some (default (inject_Z 100) (op_velocity op)))
               (Some (default (1 # 4)%Q (op_duration op))))) (Some daw) ;; ret tt
  else if String.eqb (op_action op) "move" then
    send (clip_moveNote (op_x op) (op_y op)
            (default 0 (op_dx op)) (default 0 (op_dy op))) (Some daw) ;; ret tt
  else if String.eqb (op_action op) "clear" then
    send (clip_clearNote (op_x op) (op_y op)) (Some daw) ;; ret tt
  else if String.eqb (op_action op) "transpose_clip" then
    send (clip_transpose (default 0 (op_semitones op))) (Some daw) ;; ret tt
  else ret tt.

Definition handleBatchOperations {S} (config : Bridge.Config) (daw : DAWType)
    (args : Bridge.Args) (operations : list Operation) : M S Result :=
  call start
    (selectClipIfNeeded config (Some daw) args ;;
     forEach (fun i op =>
                try_ (operate daw op ;; incrCompleted)
                     (fun e => pushError i e))
             0 operations ;;
     l <- get ;;
     ret (mkResult (tally (l_completed l) (l_errors l)) None None None None)).

(** *** handlers/batch-notes.ts *)

(** [n => quantizeForBitwig(n, config)] computes
    [Math.round(beats / stepSize) * stepSize] on floats; what it yields
    for a number is left open. *)
Variable quantizeForBitwig : Q -> Q.

(** The body of the loop [// Convert all notes to object format]. *)
Definition objectFormat (rawNote : RawNote) : NoteInput :=
  match rawNote with
  | noteArray arr =>
      mkNoteInput (ni_x arr) (ni_y arr)
        (Some (default (inject_Z 100) (ni_velocity arr)))
        (Some (default (1 # 4)%Q (ni_duration arr)))
  | noteObject note => note
  end.

(** The function mapped over the notes for Bitwig. *)
Definition quantized (n : NoteInput) : NoteInput :=
  mkNoteInput (option_map quantizeForBitwig (ni_x n)) (ni_y n) (ni_velocity n)
    (option_map quantizeForBitwig (ni_duration n)).

Definition handleBatchSetNotes {S} (config : Bridge.Config) (daw : DAWType)
    (args : Bridge.Args) (rawNotes : list RawNote) : M S Result :=
  call start
    (selectClipIfNeeded config (Some daw) args ;;
     let notes := map objectFormat rawNotes in
     let processedNotes :=
       match daw with
       | bitwig => map quantized notes
       | ableton => notes
       end in
     match daw with
     | ableton =>
         try_ (send (clip_setNotes processedNotes) (Some daw) ;;
               ret (mkResult
                      (Bridge.mkBatchResult true (Bridge.count processedNotes) 0
                         None None None None None)
                      None None None None))
              (fun e =>
                 ret (mkResult
                        (Bridge.mkBatchResult false 0 (Bridge.count processedNotes)
                           (Some [Bridge.mkError 0 e]) None None None None)
                        None None None None))
     | bitwig =>
         forEach (fun i note =>
                    try_ (send (clip_setNote note) (Some daw) ;; incrCompleted)
                         (fun e => pushError i e))
                 0 processedNotes ;;
         l <- get ;;
         ret (mkResult (tally (l_completed l) (l_errors l)) None None None None)
     end).

(** The command that sets one property of a note: [propertyCommands]
    gives the method, and [muted] has its own parameter. *)
Definition propertyCommand (note : NoteProperties) (entry : PropertyEntry)
  : Command :=
  match entry with
  | numeric prop value => clip_setNoteProperty prop (np_x note) (np_y note) value
  | muted value => clip_setNoteMuted (np_x note) (np_y note) value
  end.

(** The body of the loop of [handleBatchSetNoteProperties]. *)
Definition setNoteProperties (daw : DAWType) (i : Z) (note : NoteProperties)
  : M Locals unit :=
  try_
    (forOf (fun entry => send (propertyCommand note entry) (Some daw) ;; ret tt)
           (np_properties note) ;;
     incrCompleted)
    (fun e => pushError i e).

Definition handleBatchSetNoteProperties {S} (config : Bridge.Config)
    (daw : DAWType) (args : Bridge.Args) (notes : list NoteProperties)
  : M S Result :=
  call start
    (selectClipIfNeeded config (Some daw) args ;;
     forEach (setNoteProperties daw) 0 notes ;;
     l <- get ;;
     ret (mkResult (tally (l_completed l) (l_errors l)) None None None None)).

(** *** handlers/batch-clips.ts: [handleBatchGetNotes] *)

Definition noClipSelected : string :=
  "No clip selected. Select a clip in DAW or provide trackIndex/slotIndex (1-based).".

(** [Math.round(n.velocity * 127)] and [Math.round(n.duration * 100) / 100]
    are computed on floats; what they yield is left open. *)
Variable midiVelocity : Q -> Z.
Variable centiBeats : Q -> Q.

Definition lean (n : Notes.Note) : Q * Z * Z * Q :=
  (Notes.x n, Notes.y n, midiVelocity (Notes.velocity n),
   centiBeats (Notes.duration n)).

(** The body of the loop of [handleBatchGetNotes]; [n] is
    [clips.length]. *)
Definition getNotes (config : Bridge.Config) (daw : DAWType) (verbose : bool)
    (usedCursor : bool) (n : Z) (i : Z) (clip : ClipAddress) : M Locals unit :=
  let internalTrack := toInternal (ca_trackIndex clip) in
  let internalSlot := toInternal (ca_slotIndex clip) in
  try_
    ((if negb usedCursor || (1 <? n) then
        send (core (Bridge.clip_select internalTrack (Some internalSlot)))
             (Some daw) ;;
        sleep (Bridge.selectionDelayMs config)
      else ret tt) ;;
     notesResult <- send clip_getNotes (Some daw) ;;
     let rawNotes := default [] (nr_notes notesResult) in
     let sortedNotes := Notes.sortNotes rawNotes in
     let notes :=
       if verbose then verboseNotes sortedNotes
       else leanNotes (map lean sortedNotes) in
     pushClipNotes (mkClipNotes (ca_trackIndex clip) (ca_slotIndex clip) notes))
    (fun e => pushError i e).

(** The statements of [handleBatchGetNotes] from the loop on. *)
Definition getClips (config : Bridge.Config) (daw : DAWType) (verbose : bool)
    (usedCursor : bool) (clips : list ClipAddress) : M Locals Result :=
  forEach (getNotes config daw verbose usedCursor (Bridge.count clips)) 0 clips ;;
  l <- get ;;
  ret (mkResult (tally (Bridge.count (l_clips l)) (l_errors l))
                None None None (Some (l_clips l))).

(** [clips] is [args.clips], empty when the argument is missing. *)
Definition handleBatchGetNotes {S} (config : Bridge.Config) (daw : DAWType)
    (args : Bridge.Args) (verbose : option bool) (clips : list ClipAddress)
  : M S Result :=
  call start
    (let verbose := default false verbose in
     match clips, Bridge.arg_trackIndex args, Bridge.arg_slotIndex args with
     | first :: more, _, _ => getClips config daw verbose false (first :: more)
     | [], Some trackIndex, Some slotIndex =>
         getClips config daw verbose false [mkClipAddress trackIndex slotIndex]
     | [], _, _ =>
         selection <- send (core Bridge.clip_getSelection) (Some daw) ;;
         if (Bridge.sel_trackIndex selection =? -1)
            || (Bridge.sel_slotIndex selection =? -1) then
           ret (mkResult
                  (Bridge.mkBatchResult false 0 1
                     (Some [Bridge.mkError 0 noClipSelected]) None None None None)
                  None None None None)
         else
           getClips config daw verbose true
             [mkClipAddress (toUser (Bridge.sel_trackIndex selection))
                            (toUser (Bridge.sel_slotIndex selection))]
     end).

(** A handler run from a given state of the backend, with an empty
    trace. *)
Definition runFrom {A} (b : B) (m : M unit A) : Bridge.Outcome A * list Action :=
  let '(r, _, w) := m tt (mkWorld b []) in (r, trace w).

End WithBackend.

End Tools.

(** ** Predicates used to state the properties of the tool handlers *)

Module ToolsSpec.
Import QArith_base Tools.
Local Open Scope Z_scope.

(** The commands the properties supplied for a track call for, in the
    order in which they are sent. *)
Definition wanted (track : TrackProperties) : list Command :=
  let index := toInternal (tp_index track) in
  match tp_name track with Some name => [track_setName index name] | None => [] end
  ++ match tp_volume track with Some volume => [track_setVolume index volume] | None => [] end
  ++ match tp_mute track with Some mute => [track_setMute index mute] | None => [] end
  ++ match tp_solo track with Some solo => [track_setSolo index solo] | None => [] end.

(** What was carried out of a plan, given the fate of the item: all of
    it when the item completes, and otherwise the plan up to the action
    that failed. *)
Definition carriedOut {Act} (plan : list Act) (fate : option string)
    (acts : list Act) : Prop :=
  match fate with
  | None => acts = plan
  | Some _ => acts `prefix_of` plan /\ acts <> []
  end.

(** The creation command of a requested track. *)
Definition createCommand (track : TrackRequest) : Command :=
  track_create (tr_type track) (option_map internalPosition (tr_position track)).

(** The command an operation of [batch_operations] stands for; none for
    an action the handler does not know. *)
Definition commandOf (op : Operation) : option Command :=
  if String.eqb (op_action op) "set" then
    Some (clip_setNote
            (mkNoteInput (op_x op) (op_y op)
               (Some (default (inject_Z 100) (op_velocity op)))
               (Some (default (1 # 4)%Q (op_duration op)))))
  else if String.eqb (op_action op) "move" then
    Some (clip_moveNote (op_x op) (op_y op)
            (default 0 (op_dx op)) (default 0 (op_dy op)))
  else if String.eqb (op_action op) "clear" then
    Some (clip_clearNote (op_x op) (op_y op))
  else if String.eqb (op_action op) "transpose_clip" then
    Some (clip_transpose (default 0 (op_semitones op)))
  else None.

(** The move that transposes one note. *)
Definition transposition (semitones : Z) (n : Notes.Note) : Command :=
  clip_moveNote (Some (Notes.x n)) (Some (Notes.y n)) 0 semitones.

(** What the handlers send for one item, where that does not depend on
    what the backend answers: the properties of a track, an operation, a
    note to transpose, a note to set, the properties of a note, and the
    notes of a clip, which is selected first when [selecting]. *)
Definition trackPlan (daw : DAWType) (track : TrackProperties) : list Action :=
  map (Sent daw) (wanted track).

Definition operationPlan (daw : DAWType) (op : Operation) : list Action :=
  match commandOf op with
  | Some c => [Sent daw c]
  | None => []
  end.

Definition transposePlan (daw : DAWType) (semitones : Z) (n : Notes.Note)
  : list Action :=
  [Sent daw (transposition semitones n)].

Definition notePlan (daw : DAWType) (note : NoteInput) : list Action :=
  [Sent daw (clip_setNote note)].

Definition notePropertiesPlan (daw : DAWType) (note : NoteProperties)
  : list Action :=
  map (fun entry => Sent daw (propertyCommand note entry)) (np_properties note).

Definition getNotesPlan (config : Bridge.Config) (daw : DAWType)
    (selecting : bool) (clip : ClipAddress) : list Action :=
  (if selecting then
     [Sent daw (core (Bridge.clip_select (ca_trackIndex clip - 1)
                        (Some (ca_slotIndex clip - 1))));
      Slept (Bridge.selectionDelayMs config)]
   else [])
  ++ [Sent daw clip_getNotes].

Section WithBackend.

Context {B : Type}.
Variable respond : B -> DAWType -> forall c : Command, (string + Reply c) * B.

(** How one action fares in backend state [b]: the error if it is a
    command that fails, and the state afterwards. *)
Definition carry (b : B) (a : Action) : option string * B :=
  match a with
  | Sent daw c =>
      let '(r, b') := respond b daw c in
      (match r with inl e => Some e | inr _ => None end, b')
  | Slept _ => (None, b)
  end.

(** An item that has a plan: the plan is carried out until a command
    fails, and the item fails with the error of that command. *)
Definition planned {A} (plan : A -> list Action) (b : B) (a : A)
  : option string * list Action * B :=
  BridgeSpec.perform carry b (plan a).

(** What one track of [batch_create_tracks] comes to, in backend state
    [b] and with the indices [created] reported so far: the track is
    created; the index the DAW returns, if any, is reported one higher;
    and a track that has a name and an index is then named under that
    index. The item fails with the error of the command that fails. *)
Definition trackCreation (daw : DAWType) (st : B * list Z) (track : TrackRequest)
  : option string * list Action * (B * list Z) :=
  let create :=
    track_create (tr_type track) (option_map internalPosition (tr_position track)) in
  match respond (fst st) daw create with
  | (inl e, b1) => (Some e, [Sent daw create], (b1, snd st))
  | (inr None, b1) => (None, [Sent daw create], (b1, snd st))
  | (inr (Some index), b1) =>
      match Bridge.givenName (tr_name track) with
      | None => (None, [Sent daw create], (b1, snd st ++ [index + 1]))
      | Some name =>
          let '(fate, acts, b2) :=
            BridgeSpec.perform carry b1 [Sent daw (track_setName index name)] in
          (fate, Sent daw create :: acts, (b2, snd st ++ [index + 1]))
      end
  end.

(** The state of the backend after running [m] from state [b]. *)
Definition stateAfter {A} (b : B) (m : M unit A) : B :=
  backend (snd (m tt (mkWorld b []))).

(** The answers of the backend to the listing of each track in turn,
    from state [b]. *)
Fixpoint listings (b : B) (daw : DAWType) (trackIndices : list Z)
  : list (string + list ClipInfo) * B :=
  match trackIndices with
  | [] => ([], b)
  | trackIndex :: rest =>
      let '(r, b') := respond b daw (clip_list (toInternal trackIndex)) in
      let '(rs, b'') := listings b' daw rest in
      (r :: rs, b'')
  end.

End WithBackend.

(** The entry reported for a track whose listing succeeded. *)
Definition listed (trackIndex : Z) (answer : string + list ClipInfo)
  : option TrackClips :=
  match answer with
  | inr clips =>
      Some (mkTrackClips trackIndex
              (map (fun clip => mkClipInfo (toUser (ci_slotIndex clip)) (ci_rest clip))
                   clips))
  | inl _ => None
  end.

Definition fateOf {A} (answer : string + A) : option string :=
  match answer with
  | inl e => Some e
  | inr _ => None
  end.

(** The entries reported for the tracks [trackIndices] whose listings
    were answered by [answers]. *)
Fixpoint reported (trackIndices : list Z) (answers : list (string + list ClipInfo))
  : list TrackClips :=
  match trackIndices, answers with
  | trackIndex :: rest, answer :: more =>
      match listed trackIndex answer with
      | Some entry => entry :: reported rest more
      | None => reported rest more
      end
  | _, _ => []
  end.

(** The tracks [handleBatchListClips] is asked for: the list
    [trackIndices] when it is given and not empty, else the single
    [trackIndex], else none, which stands for the track of the cursor. *)
Definition requestedTracks (args : Bridge.Args) : option (list Z) :=
  match Bridge.arg_trackIndices args, Bridge.arg_trackIndex args with
  | first :: more, _ => Some (first :: more)
  | [], Some trackIndex => Some [trackIndex]
  | [], None => None
  end.

(** A scripted backend, as above. *)
Definition Script : Type := list (forall c : Command, string + Reply c).

Definition scripted (b : Script) (daw : DAWType) (c : Command)
  : (string + Reply c) * Script :=
  match b with
  | [] => (inl (DAWClient.timeoutMessage daw), [])
  | answer :: rest => (answer c, rest)
  end.

Definition ok (c : Command) : string + Reply c :=
  match c return string + Reply c with
  | core c' => BridgeSpec.ok c'
  | track_create _ _ => inr (Some 3)
  | clip_list _ => inr [mkClipInfo 0 JNull]
  | clip_getNotes => inr (mkNotesResult (Some NotesSpec.phrase) None)
  | _ => inr JNull
  end.

Definition failing (msg : string) (c : Command) : string + Reply c := inl msg.

(** A backend that answers the selection query and then fails the
    commands at positions 1 and 3 of a batch of five. *)
Definition fiveReplies : Script :=
  [ok; ok; failing "Invalid params: no note"; ok;
   failing "Request timeout (bitwig)"; ok].

(** Arguments that name the tracks 2 and 5. *)
Definition twoTracks : Bridge.Args := Bridge.mkArgs None None [] None None None [2; 5].

End ToolsSpec.


(** ** Properties of the channel *)

Module Channel.
Import DAWClient ChannelSpec.

Lemma settle_fresh p o (ps : gmap nat Settlement) :
  ps !! p = None -> settle p o ps !! p = Some o.
Proof. intros H. unfold settle. rewrite H. apply lookup_insert_eq. Qed.

Lemma settle_other p q o (ps : gmap nat Settlement) :
  q <> p -> settle p o ps !! q = ps !! q.
Proof.
  intros H. unfold settle. destruct (ps !! p); [done|].
  by rewrite lookup_insert_ne.
Qed.

Lemma settle_keeps p q o o' (ps : gmap nat Settlement) :
  ps !! q = Some o' -> settle p o ps !! q = Some o'.
Proof.
  intros H. unfold settle. destruct (ps !! p) eqn:E; [done|].
  rewrite lookup_insert_ne; [done|]. intros ->. congruence.
Qed.

Lemma settle_Some p q o o' (ps : gmap nat Settlement) :
  settle p o ps !! q = Some o' -> ps !! q = Some o' \/ (q = p /\ o' = o).
Proof.
  unfold settle. destruct (ps !! p) eqn:E; [auto|].
  destruct (decide (p = q)) as [->|Hne].
  - rewrite lookup_insert_eq. intros [= <-]. auto.
  - rewrite lookup_insert_ne by done. auto.
Qed.

Lemma wf_init d t : wf (init d t).
Proof.
  split; unfold requests, pending; simpl.
  - intros id p H. by apply elem_of_nil in H.
  - intros id p id' p' H. by apply elem_of_nil in H.
  - constructor.
  - intros id p H. by rewrite lookup_empty in H.
  - intros tm H. by apply elem_of_nil in H.
  - intros p o H. by rewrite lookup_empty in H.
Qed.

(** A request that is being registered is new: its id and its promise
    occur in no earlier request. *)
Lemma fresh_request w id p :
  wf w -> (id, p) ∈ requests w ->
  id <> pretty (requestId (client w) + 1)%N /\ p <> nextPromise w.
Proof.
  intros Hwf Hin. destruct (wf_bound _ Hwf _ _ Hin) as [Hp (n & Hn & ->)].
  split; [|lia]. intros Heq. apply (inj pretty) in Heq. lia.
Qed.

Lemma wf_register m ps s w : wf w -> wf (register m ps s w).
Proof.
  intros Hwf. split; unfold requests, pending; simpl.
  - intros id p [Hin|Hin]%elem_of_app.
    + destruct (wf_bound _ Hwf _ _ Hin) as [Hp (n & Hn & ->)].
      split; [lia|]. exists n. split; [lia|done].
    + apply list_elem_of_singleton in Hin. injection Hin as -> ->.
      split; [lia|]. eexists. split; [|done]. lia.
  - intros id p id' p' [Hin|Hin]%elem_of_app [Hin'|Hin']%elem_of_app.
    + by apply (wf_fun _ Hwf).
    + apply list_elem_of_singleton in Hin'. injection Hin' as -> ->.
      destruct (fresh_request _ _ _ Hwf Hin). tauto.
    + apply list_elem_of_singleton in Hin. injection Hin as -> ->.
      destruct (fresh_request _ _ _ Hwf Hin'). split; intros; by subst.
    + apply list_elem_of_singleton in Hin, Hin'.
      injection Hin as -> ->. injection Hin' as -> ->. tauto.
  - rewrite fmap_app. apply NoDup_app. split; [apply (wf_nodup _ Hwf)|].
    split; [|apply NoDup_singleton].
    intros id ([id' p] & -> & Hin)%list_elem_of_fmap Hid. simpl in Hid.
    apply list_elem_of_singleton in Hid.
    by destruct (fresh_request _ _ _ Hwf Hin).
  - intros id p Hl.
    destruct (decide (pretty (requestId (client w) + 1)%N = id)) as [<-|Hne].
    + rewrite lookup_insert_eq in Hl. injection Hl as <-. split.
      * apply elem_of_app. right. by apply list_elem_of_singleton.
      * destruct (promises w !! nextPromise w) eqn:E; [|done].
        apply (wf_promises _ Hwf) in E. lia.
    + rewrite lookup_insert_ne in Hl by done.
      destruct (wf_pending _ Hwf _ _ Hl). split; [|done].
      apply elem_of_app. by left.
  - intros tm [Hin|Hin]%elem_of_app.
    + apply elem_of_app. left. by apply (wf_timers _ Hwf).
    + apply list_elem_of_singleton in Hin. subst tm. simpl.
      apply elem_of_app. right. by apply list_elem_of_singleton.
  - intros p o Hl. apply (wf_promises _ Hwf) in Hl. lia.
Qed.

Lemma wf_connect_failed err w :
  wf w ->
  wf (mkWorld (with_socket (client w) None)
              (settle (nextPromise w) (Rejected err) (promises w))
              (S (nextPromise w)) (timers w) (writeCallbacks w) (now w)).
Proof.
  intros Hwf. split; unfold requests, pending; simpl.
  - intros id p Hin. destruct (wf_bound _ Hwf _ _ Hin) as [Hp Hn].
    split; [lia|done].
  - apply (wf_fun _ Hwf).
  - apply (wf_nodup _ Hwf).
  - intros id p Hl. destruct (wf_pending _ Hwf _ _ Hl) as [Hin Hnone].
    split; [done|]. rewrite settle_other; [done|].
    destruct (wf_bound _ Hwf _ _ Hin). lia.
  - apply (wf_timers _ Hwf).
  - intros p o [Hl|[-> _]]%settle_Some; [|lia].
    apply (wf_promises _ Hwf) in Hl. lia.
Qed.

Lemma wf_send m ps cf w : wf w -> wf (fst (send m ps cf w)).
Proof.
  intros Hwf. unfold send.
  destruct (liveSocket (client w)); simpl; [by apply wf_register|].
  destruct cf; simpl; [by apply wf_connect_failed | by apply wf_register].
Qed.

Lemma wf_drop_and_settle id p o w :
  wf w -> (id, p) ∈ requests w -> wf (drop_and_settle id p o w).
Proof.
  intros Hwf Hin. split; unfold requests, pending; simpl.
  - apply (wf_bound _ Hwf).
  - apply (wf_fun _ Hwf).
  - apply (wf_nodup _ Hwf).
  - intros id' p' Hl.
    destruct (decide (id = id')) as [<-|Hne].
    + by rewrite lookup_delete_eq in Hl.
    + rewrite lookup_delete_ne in Hl by done.
      destruct (wf_pending _ Hwf _ _ Hl) as [Hin' Hnone]. split; [done|].
      rewrite settle_other; [done|].
      intros ->. by apply Hne, (wf_fun _ Hwf id p id' p).
  - apply (wf_timers _ Hwf).
  - intros q o' [Hl|[-> _]]%settle_Some.
    + by apply (wf_promises _ Hwf) in Hl.
    + by destruct (wf_bound _ Hwf _ _ Hin).
Qed.

Lemma wf_handleResponse r w : wf w -> wf (handleResponse r w).
Proof.
  intros Hwf. unfold handleResponse.
  destruct (pendingRequests (client w) !! resp_id r) as [p|] eqn:E; [|done].
  apply wf_drop_and_settle; [done|]. by apply (wf_pending _ Hwf).
Qed.

Lemma wf_fireTimer tm w :
  wf w -> (timer_id tm, timer_reject tm) ∈ requests w -> wf (fireTimer w tm).
Proof.
  intros Hwf Hin. unfold fireTimer.
  destruct (pendingRequests (client w) !! timer_id tm); [|done].
  by apply wf_drop_and_settle.
Qed.

Lemma fireTimer_frame tm w :
  timers (fireTimer w tm) = timers w /\
  writeCallbacks (fireTimer w tm) = writeCallbacks w /\
  nextPromise (fireTimer w tm) = nextPromise w /\
  now (fireTimer w tm) = now w /\
  socket (client (fireTimer w tm)) = socket (client w) /\
  requestId (client (fireTimer w tm)) = requestId (client w) /\
  dawType (client (fireTimer w tm)) = dawType (client w) /\
  timeout (client (fireTimer w tm)) = timeout (client w).
Proof.
  unfold fireTimer. by destruct (pendingRequests (client w) !! timer_id tm).
Qed.

Lemma fireTimers_frame l w :
  let w' := fold_left fireTimer l w in
  timers w' = timers w /\
  writeCallbacks w' = writeCallbacks w /\
  nextPromise w' = nextPromise w /\
  now w' = now w /\
  socket (client w') = socket (client w) /\
  requestId (client w') = requestId (client w) /\
  dawType (client w') = dawType (client w) /\
  timeout (client w') = timeout (client w).
Proof.
  revert w. induction l as [|tm l IH]; intros w; simpl; [tauto|].
  specialize (IH (fireTimer w tm)). simpl in IH.
  pose proof (fireTimer_frame tm w). intuition congruence.
Qed.

Lemma wf_fireTimers l w :
  wf w -> (forall tm, tm ∈ l -> (timer_id tm, timer_reject tm) ∈ requests w) ->
  wf (fold_left fireTimer l w).
Proof.
  revert w. induction l as [|tm l IH]; intros w Hwf Hl; simpl; [done|].
  apply IH.
  - apply wf_fireTimer; [done|]. apply Hl. by left.
  - intros tm' Hin. unfold requests.
    destruct (fireTimer_frame tm w) as (_ & -> & _). apply Hl. by right.
Qed.

Lemma wf_advance t w : wf w -> wf (advance t w).
Proof.
  intros Hwf.
  assert (Hdue : forall tm, tm ∈ List.filter (isDue t) (timers w) ->
                 (timer_id tm, timer_reject tm) ∈ requests w).
  { intros tm Hin. apply list_elem_of_In, filter_In in Hin as [Hin _].
    apply (wf_timers _ Hwf). by apply list_elem_of_In. }
  pose proof (wf_fireTimers _ _ Hwf Hdue) as Hwf'.
  destruct (fireTimers_frame (List.filter (isDue t) (timers w)) w)
    as (Ht & Hc & Hn & _).
  unfold advance. split; unfold requests, pending; simpl.
  - apply (wf_bound _ Hwf').
  - apply (wf_fun _ Hwf').
  - apply (wf_nodup _ Hwf').
  - apply (wf_pending _ Hwf').
  - intros tm Hin. apply list_elem_of_In, filter_In in Hin as [Hin _].
    apply (wf_timers _ Hwf'). rewrite Ht. by apply list_elem_of_In.
  - apply (wf_promises _ Hwf').
Qed.

Lemma wf_writeFailed i err w : wf w -> wf (writeFailed i err w).
Proof.
  intros Hwf. unfold writeFailed.
  destruct (writeCallbacks w !! i) as [[id p]|] eqn:E; [|done].
  apply wf_drop_and_settle; [done|]. by apply list_elem_of_lookup_2 in E.
Qed.

Lemma wf_closed w : wf w -> wf (closed w).
Proof. intros [H1 H2 H3 H4 H5 H6]. by split. Qed.

Lemma wf_step e w : wf w -> wf (step w e).
Proof.
  destruct e; simpl; auto using wf_send, wf_handleResponse, wf_writeFailed,
    wf_advance, wf_closed.
Qed.

(** Every world reached from a well-formed one is well-formed; in
    particular every world reached from a new client. *)
Lemma wf_run es w : wf w -> wf (run es w).
Proof.
  revert w. induction es as [|e es IH]; intros w Hwf; simpl; [done|].
  apply IH. by apply wf_step.
Qed.


(** *** Correlation *)

Lemma handleResponse_absent r w :
  pending w !! resp_id r = None -> handleResponse r w = w.
Proof. unfold handleResponse, pending. by intros ->. Qed.

Lemma handleResponse_pending r p w :
  wf w -> pending w !! resp_id r = Some p ->
  promises (handleResponse r w) !! p = Some (outcome r) /\
  pending (handleResponse r w) = delete (resp_id r) (pending w) /\
  (forall q, q <> p -> promises (handleResponse r w) !! q = promises w !! q).
Proof.
  intros Hwf Hp. unfold handleResponse. unfold pending in Hp. rewrite Hp.
  unfold pending. simpl. split; [|split; [done|]].
  - apply settle_fresh. by destruct (wf_pending _ Hwf _ _ Hp).
  - intros q Hq. by apply settle_other.
Qed.

Lemma handleResponse_settled r p o w :
  promises w !! p = Some o -> promises (handleResponse r w) !! p = Some o.
Proof.
  intros H. unfold handleResponse.
  destruct (pendingRequests (client w) !! resp_id r); [|done].
  simpl. by apply settle_keeps.
Qed.

Lemma handleResponses_settled rs p o w :
  promises w !! p = Some o -> promises (handleResponses rs w) !! p = Some o.
Proof.
  revert w. induction rs as [|r rs IH]; intros w H; simpl; [done|].
  by apply IH, handleResponse_settled.
Qed.

Lemma wf_handleResponses rs w : wf w -> wf (handleResponses rs w).
Proof.
  revert w. induction rs as [|r rs IH]; intros w H; simpl; [done|].
  by apply IH, wf_handleResponse.
Qed.

Lemma handleResponse_other r id w :
  resp_id r <> id -> pending (handleResponse r w) !! id = pending w !! id.
Proof.
  intros Hne. unfold handleResponse, pending.
  destruct (pendingRequests (client w) !! resp_id r); [|done].
  simpl. by rewrite lookup_delete_ne.
Qed.

(** Frames for distinct pending ids settle distinct promises, so each
    caller gets the outcome of the frame bearing its id, whatever the
    order of the frames. *)
Lemma handleResponses_each rs w :
  wf w -> NoDup (resp_id <$> rs) ->
  forall r p, r ∈ rs -> pending w !! resp_id r = Some p ->
  promises (handleResponses rs w) !! p = Some (outcome r).
Proof.
  revert w. induction rs as [|r0 rs IH]; intros w Hwf Hnd r p Hin Hp.
  - by apply elem_of_nil in Hin.
  - rewrite fmap_cons in Hnd. apply NoDup_cons in Hnd as [Hfresh Hnd]. simpl.
    apply elem_of_cons in Hin as [->|Hin].
    + apply handleResponses_settled.
      by destruct (handleResponse_pending _ _ _ Hwf Hp).
    + apply IH; [by apply wf_handleResponse|done|done|].
      rewrite handleResponse_other; [done|].
      intros Heq. apply Hfresh. rewrite Heq. by apply list_elem_of_fmap_2.
Qed.

Lemma handleResponse_gone r w : pending (handleResponse r w) !! resp_id r = None.
Proof.
  unfold handleResponse, pending.
  destruct (pendingRequests (client w) !! resp_id r) eqn:E; [|done].
  simpl. apply lookup_delete_eq.
Qed.

Lemma handleResponse_stays_gone r id w :
  pending w !! id = None -> pending (handleResponse r w) !! id = None.
Proof.
  intros H. unfold handleResponse, pending.
  destruct (pendingRequests (client w) !! resp_id r) eqn:E; [|done].
  simpl. apply lookup_delete_None. by right.
Qed.

Lemma handleResponses_stays_gone rs id w :
  pending w !! id = None -> pending (handleResponses rs w) !! id = None.
Proof.
  revert w. induction rs as [|r rs IH]; intros w H; simpl; [done|].
  by apply IH, handleResponse_stays_gone.
Qed.

Lemma handleResponses_gone rs r w :
  r ∈ rs -> pending (handleResponses rs w) !! resp_id r = None.
Proof.
  revert w. induction rs as [|r0 rs IH]; intros w Hin; simpl.
  - by apply elem_of_nil in Hin.
  - destruct (decide (resp_id r0 = resp_id r)) as [Heq|Hne].
    + apply handleResponses_stays_gone. rewrite <- Heq. apply handleResponse_gone.
    + apply IH. apply elem_of_cons in Hin as [->|Hin]; [done|done].
Qed.

(** Callers whose id no frame bears are left waiting. *)
Lemma handleResponses_untouched rs w id p :
  wf w -> id ∉ resp_id <$> rs -> pending w !! id = Some p ->
  pending (handleResponses rs w) !! id = Some p /\
  promises (handleResponses rs w) !! p = None.
Proof.
  revert w. induction rs as [|r0 rs IH]; intros w Hwf Hnot Hp; simpl.
  - split; [done|]. by destruct (wf_pending _ Hwf _ _ Hp).
  - rewrite fmap_cons in Hnot. apply not_elem_of_cons in Hnot as [Hne Hnot].
    apply IH; [by apply wf_handleResponse|done|].
    by rewrite handleResponse_other.
Qed.

Lemma lookup_settle p o (ps : gmap nat Settlement) k :
  settle p o ps !! k =
  if decide (k = p) then Some (default o (ps !! p)) else ps !! k.
Proof.
  unfold settle. destruct (ps !! p) eqn:E; case_decide; subst; simpl;
    rewrite ?lookup_insert_eq, ?lookup_insert_ne; done.
Qed.

Lemma settle_commute p q o o' (ps : gmap nat Settlement) :
  p <> q -> settle p o (settle q o' ps) = settle q o' (settle p o ps).
Proof.
  intros Hne. apply map_eq. intros k. rewrite !lookup_settle.
  repeat case_decide; subst; done.
Qed.

Lemma handleResponse_commute r1 r2 w :
  wf w -> resp_id r1 <> resp_id r2 ->
  handleResponse r1 (handleResponse r2 w) = handleResponse r2 (handleResponse r1 w).
Proof.
  intros Hwf Hne.
  destruct (pendingRequests (client w) !! resp_id r1) as [p1|] eqn:E1;
  destruct (pendingRequests (client w) !! resp_id r2) as [p2|] eqn:E2;
  unfold handleResponse; rewrite ?E1, ?E2; simpl;
  rewrite ?lookup_delete_ne by done; rewrite ?E1, ?E2; try done.
  unfold drop_and_settle, with_pending. simpl.
  rewrite (delete_delete _ (resp_id r1) (resp_id r2)).
  rewrite settle_commute; [done|]. intros ->. apply Hne.
  apply (wf_pending _ Hwf) in E1 as [H1 _]. apply (wf_pending _ Hwf) in E2 as [H2 _].
  by apply (wf_fun _ Hwf _ p2 _ p2).
Qed.

(** The world reached does not depend on the order in which the frames
    arrive. *)
Lemma handleResponses_perm rs rs' w :
  wf w -> NoDup (resp_id <$> rs) -> rs ≡ₚ rs' ->
  handleResponses rs' w = handleResponses rs w.
Proof.
  intros Hwf Hnd Hperm. revert w Hwf Hnd.
  induction Hperm as [|r rs rs' _ IH|r1 r2 rs|rs1 rs2 rs3 H12 IH12 H23 IH23];
    intros w Hwf Hnd; simpl.
  - done.
  - rewrite fmap_cons in Hnd. apply NoDup_cons in Hnd as [_ Hnd].
    apply IH; [by apply wf_handleResponse|done].
  - f_equal. rewrite !fmap_cons in Hnd. apply NoDup_cons in Hnd as [Hne _].
    apply handleResponse_commute; [done|].
    intros Heq. apply Hne. rewrite Heq. by left.
  - rewrite IH23; [by apply IH12|done|]. by rewrite <- H12.
Qed.

(** C1. Correlation correctness on one channel. In every world [w] the
    channel can be in (any set of requests in flight): a response frame
    whose id has a pending entry settles the promise registered under that
    id, and only that one, with the frame's result, or with the message
    of the frame's error, and removes the entry; a frame whose id has no
    pending entry changes nothing; and frames with distinct ids, processed
    in any order, settle each the caller registered under their id, leave
    the callers no frame names waiting, and reach the same world whatever
    the order. *)
Theorem correlation_correct (w : World) :
  wf w ->
  (forall r p, pending w !! resp_id r = Some p ->
     (forall e, resp_error r = Some e ->
        promises (handleResponse r w) !! p = Some (Rejected (message e))) /\
     (resp_error r = None ->
        promises (handleResponse r w) !! p = Some (Resolved (resp_result r))) /\
     pending (handleResponse r w) = delete (resp_id r) (pending w) /\
     (forall q, q <> p -> promises (handleResponse r w) !! q = promises w !! q)) /\
  (forall r, pending w !! resp_id r = None -> handleResponse r w = w) /\
  (forall rs, NoDup (resp_id <$> rs) ->
     (forall r p, r ∈ rs -> pending w !! resp_id r = Some p ->
        promises (handleResponses rs w) !! p = Some (outcome r) /\
        pending (handleResponses rs w) !! resp_id r = None) /\
     (forall id p, id ∉ resp_id <$> rs -> pending w !! id = Some p ->
        pending (handleResponses rs w) !! id = Some p /\
        promises (handleResponses rs w) !! p = None) /\
     (forall rs', rs ≡ₚ rs' -> handleResponses rs' w = handleResponses rs w)).
Proof.
  intros Hwf. split; [|split].
  - intros r p Hp.
    destruct (handleResponse_pending _ _ _ Hwf Hp) as (Hs & Hd & Ho).
    unfold outcome in Hs. repeat split; [| |done|done].
    + intros e He. by rewrite He in Hs.
    + intros He. by rewrite He in Hs.
  - intros r. apply handleResponse_absent.
  - intros rs Hnd. split; [|split].
    + intros r p Hin Hp. split; [by apply handleResponses_each|].
      by apply handleResponses_gone.
    + intros id p Hnot Hp. by apply handleResponses_untouched.
    + intros rs' Hperm. by apply handleResponses_perm.
Qed.


(** *** Timeouts *)

Section OneRequest.

(** One request: its correlation id, the caller's promise, the position
    of its write callback, the time its timer is due, and the DAW named in
    its timeout error. *)
Variables (id : string) (p : nat) (i : nat) (deadline : N) (d : DAWType).

(** The request waits for its response and its timer is still set. *)
Record Waiting (w : World) : Prop := mkWaiting {
  wt_wf : wf w;
  wt_pending : pending w !! id = Some p;
  wt_unsettled : promises w !! p = None;
  wt_timer : mkTimer deadline id p ∈ timers w;
  wt_timers : forall tm, tm ∈ timers w -> timer_id tm = id ->
      tm = mkTimer deadline id p;
  wt_callback : writeCallbacks w !! i = Some (id, p);
  wt_daw : dawType (client w) = d }.

(** The request has timed out. *)
Record TimedOut (w : World) : Prop := mkTimedOut {
  to_wf : wf w;
  to_request : (id, p) ∈ requests w;
  to_removed : pending w !! id = None;
  to_rejected : promises w !! p = Some (Rejected (timeoutMessage d)) }.

Lemma waiting_request w : Waiting w -> (id, p) ∈ requests w.
Proof. intros H. by destruct (wf_pending _ (wt_wf _ H) _ _ (wt_pending _ H)). Qed.

Lemma waiting_drop id' p' o w :
  Waiting w -> (id', p') ∈ requests w -> id' <> id ->
  Waiting (drop_and_settle id' p' o w).
Proof.
  intros H Hin Hne. pose proof (waiting_request _ H) as Hreq.
  destruct H as [Hwf Hp Hu Ht Hts Hcb Hd].
  split; unfold pending; simpl; try done.
  - by apply wf_drop_and_settle.
  - by rewrite lookup_delete_ne.
  - rewrite settle_other; [done|]. intros ->.
    by apply Hne, (wf_fun _ Hwf _ p' _ p').
Qed.

Lemma timedOut_drop id' p' o w :
  TimedOut w -> (id', p') ∈ requests w -> TimedOut (drop_and_settle id' p' o w).
Proof.
  intros [Hwf Hreq Hp Hr] Hin. split; unfold pending; simpl; try done.
  - by apply wf_drop_and_settle.
  - apply lookup_delete_None. by right.
  - by apply settle_keeps.
Qed.

Lemma waiting_fire tm w :
  Waiting w -> tm ∈ timers w ->
  if decide (timer_id tm = id) then TimedOut (fireTimer w tm)
  else Waiting (fireTimer w tm).
Proof.
  intros H Hin. case_decide as Hid.
  - rewrite (wt_timers _ H _ Hin Hid). unfold fireTimer. simpl.
    pose proof (wt_pending _ H) as Hp. unfold pending in Hp. rewrite Hp.
    pose proof (waiting_request _ H) as Hreq.
    destruct H as [Hwf _ Hu Ht Hts Hcb Hd].
    split; unfold pending; simpl.
    + by apply wf_drop_and_settle.
    + done.
    + apply lookup_delete_eq.
    + rewrite Hd. by apply settle_fresh.
  - unfold fireTimer.
    destruct (pendingRequests (client w) !! timer_id tm); [|done].
    apply waiting_drop; [done| |done].
    by apply (wf_timers _ (wt_wf _ H)).
Qed.

Lemma timedOut_fire tm w :
  TimedOut w -> tm ∈ timers w -> TimedOut (fireTimer w tm).
Proof.
  intros H Hin. unfold fireTimer.
  destruct (pendingRequests (client w) !! timer_id tm); [|done].
  apply timedOut_drop; [done|]. by apply (wf_timers _ (to_wf _ H)).
Qed.

Lemma timedOut_fires l w :
  TimedOut w -> (forall tm, tm ∈ l -> tm ∈ timers w) ->
  TimedOut (fold_left fireTimer l w).
Proof.
  revert w. induction l as [|tm l IH]; intros w H Hl; simpl; [done|].
  apply IH.
  - apply timedOut_fire; [done|]. apply Hl. by left.
  - intros tm' Hin. destruct (fireTimer_frame tm w) as (-> & _).
    apply Hl. by right.
Qed.

Lemma waiting_fires l w :
  Waiting w -> (forall tm, tm ∈ l -> tm ∈ timers w) ->
  (mkTimer deadline id p ∈ l -> TimedOut (fold_left fireTimer l w)) /\
  (mkTimer deadline id p ∉ l -> Waiting (fold_left fireTimer l w)).
Proof.
  revert w. induction l as [|tm l IH]; intros w H Hl; simpl.
  - split; [|done]. intros Hin. by apply elem_of_nil in Hin.
  - assert (Hl' : forall tm', tm' ∈ l -> tm' ∈ timers (fireTimer w tm)).
    { intros tm' Hin. destruct (fireTimer_frame tm w) as (-> & _).
      apply Hl. by right. }
    assert (Htm : tm ∈ timers w) by (apply Hl; by left).
    pose proof (waiting_fire tm w H Htm) as Hfire.
    case_decide as Hid.
    + split; [intros _; by apply timedOut_fires|].
      intros Hnot. exfalso. apply Hnot.
      rewrite <- (wt_timers _ H _ Htm Hid). by left.
    + destruct (IH _ Hfire Hl') as [IH1 IH2]. split.
      * intros [Heq|Hin]%elem_of_cons; [|by apply IH1].
        exfalso. apply Hid. by rewrite <- Heq.
      * intros Hnot. apply IH2. intros Hin. apply Hnot. by right.
Qed.

Lemma waiting_advance t w :
  Waiting w ->
  if (deadline <=? t)%N then TimedOut (advance t w) else Waiting (advance t w).
Proof.
  intros H.
  assert (Hsub : forall tm, tm ∈ List.filter (isDue t) (timers w) -> tm ∈ timers w).
  { intros tm Hin. apply list_elem_of_In, filter_In in Hin as [Hin _].
    by apply list_elem_of_In. }
  destruct (waiting_fires _ w H Hsub) as [Hfired Hkept].
  destruct (fireTimers_frame (List.filter (isDue t) (timers w)) w)
    as (Ht & Hc & Hn & Hnow & Hs & Hr & Hd & Hto).
  pose proof (wf_advance t w (wt_wf _ H)) as Hwf'.
  destruct (N.leb_spec deadline t) as [Hle|Hlt].
  - destruct Hfired as [_ Hreq Hp Hr'].
    + apply list_elem_of_In, filter_In. split.
      * apply list_elem_of_In, (wt_timer _ H).
      * unfold isDue. simpl. by apply N.leb_le.
    + split; try done.
  - destruct Hkept as [_ Hp Hu Htm Htms Hcb Hdaw].
    + intros Hin. apply list_elem_of_In, filter_In in Hin as [_ Hdue].
      unfold isDue in Hdue. simpl in Hdue. apply N.leb_le in Hdue. lia.
    + split; unfold pending; simpl; try done.
      * apply list_elem_of_In, filter_In. split.
        -- apply list_elem_of_In. apply (wt_timer _ H).
        -- unfold isDue. simpl. apply negb_true_iff, N.leb_gt. lia.
      * intros tm Hin' Hid. apply list_elem_of_In, filter_In in Hin' as [Hin' _].
        apply (wt_timers _ H); [|done]. by apply list_elem_of_In.
Qed.

Lemma timedOut_advance t w : TimedOut w -> TimedOut (advance t w).
Proof.
  intros H.
  assert (Hsub : forall tm, tm ∈ List.filter (isDue t) (timers w) -> tm ∈ timers w).
  { intros tm Hin. apply list_elem_of_In, filter_In in Hin as [Hin _].
    by apply list_elem_of_In. }
  pose proof (timedOut_fires _ w H Hsub) as [_ Hreq Hp Hr].
  split; try done. apply wf_advance, (to_wf _ H).
Qed.

Lemma waiting_register m ps s w :
  Waiting w -> Waiting (register m ps s w).
Proof.
  intros H. pose proof (waiting_request _ H) as Hreq.
  destruct (fresh_request _ _ _ (wt_wf _ H) Hreq) as [Hid Hp].
  destruct H as [Hwf Hpend Hu Ht Hts Hcb Hd].
  split; unfold pending; simpl; try done.
  - by apply wf_register.
  - by rewrite lookup_insert_ne.
  - apply elem_of_app. by left.
  - intros tm [Hin|Hin]%elem_of_app Htid; [by apply Hts|].
    apply list_elem_of_singleton in Hin. subst tm. simpl in Htid. congruence.
  - by apply lookup_app_l_Some.
Qed.

Lemma timedOut_register m ps s w :
  TimedOut w -> TimedOut (register m ps s w).
Proof.
  intros [Hwf Hreq Hp Hr].
  destruct (fresh_request _ _ _ Hwf Hreq) as [Hid _].
  split; unfold pending, requests; simpl; try done.
  - by apply wf_register.
  - apply elem_of_app. by left.
  - by rewrite lookup_insert_ne.
Qed.

Lemma waiting_send m ps cf w : Waiting w -> Waiting (fst (send m ps cf w)).
Proof.
  intros H. unfold send.
  destruct (liveSocket (client w)); simpl; [by apply waiting_register|].
  destruct cf; simpl; [|by apply waiting_register].
  pose proof (waiting_request _ H) as Hreq.
  destruct (wf_bound _ (wt_wf _ H) _ _ Hreq) as [Hlt _].
  destruct H as [Hwf Hpend Hu Ht Hts Hcb Hd].
  split; unfold pending; simpl; try done.
  - by apply wf_connect_failed.
  - rewrite settle_other; [done|lia].
Qed.

Lemma timedOut_send m ps cf w : TimedOut w -> TimedOut (fst (send m ps cf w)).
Proof.
  intros H. unfold send.
  destruct (liveSocket (client w)); simpl; [by apply timedOut_register|].
  destruct cf; simpl; [|by apply timedOut_register].
  destruct H as [Hwf Hreq Hp Hr].
  split; unfold pending; simpl; try done.
  - by apply wf_connect_failed.
  - by apply settle_keeps.
Qed.

Lemma waiting_step e w :
  Waiting w -> answers id i e = false ->
  if reaches deadline e then TimedOut (step w e) else Waiting (step w e).
Proof.
  intros H Hquiet. destruct e as [m ps cf|r|j err|t|]; simpl in *.
  - by apply waiting_send.
  - apply String.eqb_neq in Hquiet. unfold handleResponse.
    destruct (pendingRequests (client w) !! resp_id r) as [p'|] eqn:E; [|done].
    apply waiting_drop; [done| |done].
    by destruct (wf_pending _ (wt_wf _ H) _ _ E).
  - apply Nat.eqb_neq in Hquiet. unfold writeFailed.
    destruct (writeCallbacks w !! j) as [[id' p']|] eqn:E; [|done].
    apply waiting_drop; [done|by apply list_elem_of_lookup_2 in E|].
    intros ->. apply Hquiet.
    apply (NoDup_lookup _ j i id (wf_nodup _ (wt_wf _ H))).
    + unfold requests. by rewrite list_lookup_fmap, E.
    + unfold requests. by rewrite list_lookup_fmap, (wt_callback _ H).
  - by apply waiting_advance.
  - pose proof (wf_closed _ (wt_wf _ H)). destruct H. by split.
Qed.

Lemma timedOut_step e w : TimedOut w -> TimedOut (step w e).
Proof.
  intros H. destruct e as [m ps cf|r|j err|t|]; simpl.
  - by apply timedOut_send.
  - unfold handleResponse.
    destruct (pendingRequests (client w) !! resp_id r) as [p'|] eqn:E; [|done].
    apply timedOut_drop; [done|].
    by destruct (wf_pending _ (to_wf _ H) _ _ E).
  - unfold writeFailed.
    destruct (writeCallbacks w !! j) as [[id' p']|] eqn:E; [|done].
    apply timedOut_drop; [done|]. by apply list_elem_of_lookup_2 in E.
  - by apply timedOut_advance.
  - pose proof (wf_closed _ (to_wf _ H)). destruct H. by split.
Qed.

Lemma timedOut_run es w : TimedOut w -> TimedOut (run es w).
Proof.
  revert w. induction es as [|e es IH]; intros w H; simpl; [done|].
  by apply IH, timedOut_step.
Qed.

Lemma waiting_run es w :
  Waiting w -> unanswered id i es = true ->
  if expired deadline es then TimedOut (run es w) else Waiting (run es w).
Proof.
  revert w. induction es as [|e es IH]; intros w H Hquiet; simpl; [done|].
  simpl in Hquiet. apply andb_true_iff in Hquiet as [He Hes].
  apply negb_true_iff in He.
  pose proof (waiting_step e w H He) as Hstep.
  destruct (reaches deadline e); simpl.
  - by apply timedOut_run.
  - by apply IH.
Qed.

End OneRequest.

Lemma isConnected_liveSocket c :
  isConnected c = true <-> exists s, liveSocket c = Some s /\ socket c = Some s.
Proof.
  unfold isConnected, liveSocket. destruct (socket c) as [s|].
  - destruct (destroyed s); simpl; split; try done.
    + by intros (s' & ? & _).
    + intros _. by exists s.
  - split; [done|]. by intros (s' & ? & _).
Qed.

(** A request registered in a well-formed world waits, with its timer
    set to the configured delay from now. *)
Lemma register_waiting m ps s w :
  wf w ->
  Waiting (pretty (requestId (client w) + 1)%N) (nextPromise w)
          (length (writeCallbacks w)) (now w + timerDelay (timeout (client w)))%N
          (dawType (client w)) (register m ps s w).
Proof.
  intros Hwf. split; unfold pending; simpl.
  - by apply wf_register.
  - apply lookup_insert_eq.
  - destruct (promises w !! nextPromise w) eqn:E; [|done].
    apply (wf_promises _ Hwf) in E. lia.
  - apply elem_of_app. right. by apply list_elem_of_singleton.
  - intros tm [Hin|Hin]%elem_of_app Hid.
    + apply (wf_timers _ Hwf) in Hin.
      by destruct (fresh_request _ _ _ Hwf Hin).
    + by apply list_elem_of_singleton in Hin.
  - rewrite lookup_app_r by done. by rewrite Nat.sub_diag.
  - done.
Qed.

Lemma send_registers m ps cf w :
  isConnected (client w) = true \/ cf = None ->
  snd (send m ps cf w) = nextPromise w /\
  exists s, fst (send m ps cf w) = register m ps s w.
Proof.
  intros H. unfold send. destruct (liveSocket (client w)) as [s|] eqn:E.
  - split; [done|]. by exists s.
  - destruct H as [H| ->].
    + apply isConnected_liveSocket in H as (s & H & _). congruence.
    + split; [done|]. by eexists.
Qed.

(** Neither a timer nor a response frame touches the socket. *)
Lemma advance_socket t w : socket (client (advance t w)) = socket (client w).
Proof.
  unfold advance. simpl.
  by destruct (fireTimers_frame (List.filter (isDue t) (timers w)) w)
    as (_ & _ & _ & _ & -> & _).
Qed.

Lemma handleResponse_socket r w :
  socket (client (handleResponse r w)) = socket (client w).
Proof.
  unfold handleResponse. by destruct (pendingRequests (client w) !! resp_id r).
Qed.

(** A send on a connected channel writes its frame and registers the
    caller under a new id. *)
Lemma send_connected m ps cf w :
  wf w -> isConnected (client w) = true ->
  let id' := pretty (requestId (client w) + 1)%N in
  let w' := fst (send m ps cf w) in
  pending w' !! id' = Some (snd (send m ps cf w)) /\
  promises w' !! snd (send m ps cf w) = None /\
  (exists s, socket (client w') = Some s /\
             last (written s) = Some (mkRequest id' m ps)) /\
  (forall id p, (id, p) ∈ requests w ->
     id <> id' /\ p <> snd (send m ps cf w) /\
     pending w' !! id = pending w !! id /\ promises w' !! p = promises w !! p).
Proof.
  intros Hwf Hc. apply isConnected_liveSocket in Hc as (s & Hs & _).
  unfold send. rewrite Hs. simpl. unfold pending. simpl.
  split; [apply lookup_insert_eq|]. split.
  { destruct (promises w !! nextPromise w) eqn:E; [|done].
    apply (wf_promises _ Hwf) in E. lia. }
  split.
  { eexists. split; [done|]. simpl. apply last_snoc. }
  intros id p Hin. destruct (fresh_request _ _ _ Hwf Hin) as [Hid Hp].
  repeat split; try done. by rewrite lookup_insert_ne.
Qed.

(** Within these bounds [setTimeout] takes the delay as it is. *)
Lemma timerDelay_exact ms :
  (1 <= ms <= 2147483647)%N -> timerDelay ms = ms.
Proof.
  intros [Hlo Hhi]. unfold timerDelay.
  destruct (N.ltb_spec ms 1); [lia|].
  destruct (N.ltb_spec 2147483647 ms); [lia|done].
Qed.

(** C2. Timeout isolation. A request is sent on a connected channel, in
    any world the channel can be in, with a configured timeout that
    [setTimeout] takes as it is (1 to 2147483647 ms): [send] registers it
    at once. As long as no response bearing its id arrives (and its
    write does not fail), whatever else happens on the channel: before the
    clock reaches the configured delay the request stays pending and its
    promise unsettled; once the clock has reached it the pending entry is
    gone and the caller's promise is rejected with the timeout error. From
    then on a response frame bearing that id changes nothing at all, and
    nothing that happens later changes the rejection. Timers and response
    frames never touch the socket, and a later send on the connected
    channel writes its frame and registers its caller under a new id. *)
Theorem timeout_isolation (w : World) (m : string) (ps : option Json)
    (cf : option string) (es : list Event) :
  wf w ->
  isConnected (client w) = true ->
  (1 <= timeout (client w) <= 2147483647)%N ->
  unanswered (pretty (requestId (client w) + 1)%N) (length (writeCallbacks w)) es
    = true ->
  let id := pretty (requestId (client w) + 1)%N in
  let p := snd (send m ps cf w) in
  let deadline := (now w + timeout (client w))%N in
  let w1 := fst (send m ps cf w) in
  let w2 := run es w1 in
  pending w1 !! id = Some p /\
  (expired deadline es = false ->
     pending w2 !! id = Some p /\ promises w2 !! p = None) /\
  (expired deadline es = true ->
     pending w2 !! id = None /\
     promises w2 !! p = Some (Rejected (timeoutMessage (dawType (client w)))) /\
     (forall r, resp_id r = id -> handleResponse r w2 = w2) /\
     (forall later,
        pending (run later w2) !! id = None /\
        promises (run later w2) !! p
          = Some (Rejected (timeoutMessage (dawType (client w)))))) /\
  (forall t v, socket (client (advance t v)) = socket (client v)) /\
  (forall r v, socket (client (handleResponse r v)) = socket (client v)) /\
  (isConnected (client w2) = true ->
   forall m' ps' cf',
     let id' := pretty (requestId (client w2) + 1)%N in
     let w3 := fst (send m' ps' cf' w2) in
     let p' := snd (send m' ps' cf' w2) in
     id' <> id /\ p' <> p /\
     pending w3 !! id' = Some p' /\ promises w3 !! p' = None /\
     exists s, socket (client w3) = Some s /\
               last (written s) = Some (mkRequest id' m' ps')).
Proof.
  intros Hwf Hconn Hdelay Hquiet id p deadline w1 w2.
  destruct (send_registers m ps cf w (or_introl Hconn)) as [Hp [s Hw1]].
  pose proof (register_waiting m ps s w Hwf) as Hwait.
  rewrite (timerDelay_exact _ Hdelay) in Hwait.
  fold id deadline in Hwait. rewrite <- Hw1, <- Hp in Hwait.
  fold w1 p in Hwait.
  pose proof (waiting_run _ _ _ _ _ es w1 Hwait Hquiet) as Hrun. fold w2 in Hrun.
  split; [apply (wt_pending _ _ _ _ _ _ Hwait)|].
  split; [|split; [|split; [|split]]].
  - intros Hexp. rewrite Hexp in Hrun.
    split; [apply (wt_pending _ _ _ _ _ _ Hrun)|apply (wt_unsettled _ _ _ _ _ _ Hrun)].
  - intros Hexp. rewrite Hexp in Hrun.
    split; [apply (to_removed _ _ _ _ Hrun)|].
    split; [apply (to_rejected _ _ _ _ Hrun)|]. split.
    + intros r Hr. apply handleResponse_absent. rewrite Hr.
      apply (to_removed _ _ _ _ Hrun).
    + intros later. pose proof (timedOut_run _ _ _ later _ Hrun) as Hlater.
      split; [apply (to_removed _ _ _ _ Hlater)|apply (to_rejected _ _ _ _ Hlater)].
  - apply advance_socket.
  - intros r v. apply handleResponse_socket.
  - intros Hc2 m' ps' cf' id' w3 p'.
    assert (wf w2 /\ (id, p) ∈ requests w2) as [Hwf2 Hreq].
    { destruct (expired deadline es).
      - split; [apply (to_wf _ _ _ _ Hrun)|apply (to_request _ _ _ _ Hrun)].
      - split; [apply (wt_wf _ _ _ _ _ _ Hrun)|].
        apply (waiting_request _ _ _ _ _ _ Hrun). }
    destruct (send_connected m' ps' cf' w2 Hwf2 Hc2) as (H1 & H2 & H3 & H4).
    destruct (H4 _ _ Hreq) as (Hid & Hpp & _).
    repeat split; try done.
Qed.

Lemma correlation_correct_witness :
  wf threeInFlight /\
  let frames := [mkResponse "3" (Some (JNum 120)) None;
                 mkResponse "1" None (Some (mkRpcError (-32602) "Invalid params: index"))] in
  promises (handleResponses frames threeInFlight) !! 2%nat
    = Some (Resolved (Some (JNum 120))) /\
  promises (handleResponses frames threeInFlight) !! 0%nat
    = Some (Rejected "Invalid params: index") /\
  promises (handleResponses frames threeInFlight) !! 1%nat = None.
Proof.
  assert (Hwf : wf threeInFlight) by apply wf_run, wf_init.
  split; [exact Hwf|]. intros frames.
  destruct (correlation_correct threeInFlight Hwf) as (_ & _ & Hany).
  destruct (Hany frames) as (Heach & Hrest & _).
  { apply (bool_decide_unpack _). vm_compute. exact I. }
  split; [|split].
  - refine (proj1 (Heach (mkResponse "3" (Some (JNum 120)) None) 2%nat _ _)).
    + by left.
    + vm_compute. reflexivity.
  - refine (proj1 (Heach (mkResponse "1" None
                           (Some (mkRpcError (-32602) "Invalid params: index"))) 0%nat _ _)).
    + right. by left.
    + vm_compute. reflexivity.
  - refine (proj2 (Hrest "2" 1%nat _ _)).
    + apply (bool_decide_unpack _). vm_compute. exact I.
    + vm_compute. reflexivity.
Defined.

Lemma timeout_isolation_witness :
  let w := threeInFlight in
  let es := [EAdvance 9999%N; ESend "track.list" None None; EAdvance 10000%N] in
  let w2 := run es (fst (send "transport.play" None None w)) in
  wf w /\
  isConnected (client w) = true /\
  (1 <= timeout (client w) <= 2147483647)%N /\
  pending w2 !! "4" = None /\
  promises w2 !! 3%nat = Some (Rejected "Request timeout (bitwig)") /\
  handleResponse (mkResponse "4" (Some JNull) None) w2 = w2 /\
  pending w2 !! "5" = Some 4%nat.
Proof.
  intros w es w2.
  assert (Hwf : wf w) by apply wf_run, wf_init.
  assert (Hdelay : (1 <= timeout (client w) <= 2147483647)%N)
    by (vm_compute; split; discriminate).
  destruct (timeout_isolation w "transport.play" None None es
              Hwf eq_refl Hdelay eq_refl)
    as (_ & _ & Hexp & _).
  destruct (Hexp eq_refl) as (Hgone & Hrej & Hlate & _).
  split; [exact Hwf|]. split; [reflexivity|]. split; [exact Hdelay|].
  split; [exact Hgone|]. split; [exact Hrej|].
  split; [apply Hlate; reflexivity|]. vm_compute. reflexivity.
Defined.

End Channel.

(** ** Properties of the helpers and handlers *)

Module Handlers.
Import Bridge BridgeSpec.

Lemma ulp_safe z : Z.abs z < 2 ^ 53 -> Double.ulp z = 1.
Proof.
  intros H. unfold Double.ulp.
  assert (Z.log2 (Z.abs z) < 53).
  { destruct (Z.eq_dec (Z.abs z) 0) as [->|Hne]; [done|].
    apply Z.log2_lt_pow2; lia. }
  by replace (Z.max 0 (Z.log2 (Z.abs z) - 52)) with 0 by lia.
Qed.

(** Up to 2^53 in absolute value every integer is a double. *)
Lemma round_exact z : Z.abs z <= 2 ^ 53 -> Double.round z = z.
Proof.
  intros H. destruct (Z.eq_dec (Z.abs z) (2 ^ 53)) as [Heq|Hne].
  - assert (z = 2 ^ 53 \/ z = - 2 ^ 53) as [-> | ->] by lia; reflexivity.
  - unfold Double.round. rewrite ulp_safe by lia.
    rewrite Z.mod_1_r, Z.div_1_r. simpl. lia.
Qed.

(** C9, as the code has it. On the safe integers of a JavaScript number
    (those strictly between -2^53 and 2^53), and so on every index a
    DAW can have, [toUser] and [toInternal] undo each other, the
    internal index is the public one minus one, and the two functions
    are the ones on [Z] that the handlers are modelled with. *)
Theorem index_round_trip (n : Z) :
  - 2 ^ 53 < n < 2 ^ 53 ->
  Double.toUser (Double.toInternal n) = n /\
  Double.toInternal (Double.toUser n) = n /\
  Double.toInternal n = n - 1 /\ (1 <= n -> 0 <= Double.toInternal n) /\
  Double.toInternal n = toInternal n /\ Double.toUser n = toUser n.
Proof.
  intros Hn. unfold Double.toUser, Double.toInternal, toInternal, toUser.
  rewrite (round_exact (n - 1)) by lia. rewrite (round_exact (n + 1)) by lia.
  rewrite !round_exact by lia. lia.
Qed.

(** The outcomes of a batch are as many as its items. *)
Lemma batch_length {X A Act} (item : X -> A -> option string * list Act * X)
    (x : X) (items : list A) :
  length (batch item x items).1 = length items.
Proof.
  revert x. induction items as [|a rest IH]; intros x; simpl; [done|].
  destruct (item x a) as [[fate acts] x']. specialize (IH x').
  destruct (batch item x' rest) as [outs x'']. simpl in *. by rewrite IH.
Qed.

Section WithBackend.

Context {B : Type}.
Variable respond : B -> DAWType -> forall c : Command, (string + Reply c) * B.
Variable dawManager : DAWClientManager.


(** *** Backend resolution *)

Lemma explicitChoice_spec explicitDaw d :
  explicitChoice explicitDaw = Some d <-> explicitDaw = Some (dawText d).
Proof.
  unfold explicitChoice. destruct explicitDaw as [text|]; [|by destruct d].
  destruct (String.eqb_spec text "bitwig") as [->|Hb].
  - destruct d; simpl; split; congruence.
  - destruct (String.eqb_spec text "ableton") as [->|Ha].
    + destruct d; simpl; split; congruence.
    + split; [done|]. destruct d; simpl; congruence.
Qed.

Lemma probe_run {S} d (s : S) (w : World) :
  probe respond dawManager d s w =
  (Returned (mkConnection d (reachable respond (backend w) d)
               (DAWType_eqb d (defaultDaw dawManager))
               (getPort dawManager d)),
   s, mkWorld (snd (respond (backend w) d project_getInfo))
              (trace w ++ [Sent d project_getInfo])).
Proof.
  unfold probe, bind, try_, Bridge.send, ret, reachable. simpl.
  destruct (respond (backend w) d project_getInfo) as [[e|v] b']; done.
Qed.

(** C5. Backend resolution policy. An explicit ['bitwig'] or ['ableton']
    is returned as it is and nothing is probed (the world is untouched).
    Otherwise both backends are probed, bitwig then ableton; if exactly
    one of the probes succeeds that backend is returned, whatever the
    configured default, and if none or both succeed the configured
    default is returned. *)
Theorem resolveDaw_policy {S} (explicitDaw : option string)
    (configDefault : DAWType) (s : S) (w : World) :
  (forall d, explicitDaw = Some (dawText d) ->
     resolveDaw respond dawManager explicitDaw configDefault s w
     = (Returned d, s, w)) /\
  (explicitDaw <> Some "bitwig" -> explicitDaw <> Some "ableton" ->
     let afterBitwig := snd (respond (backend w) bitwig project_getInfo) in
     let afterAbleton := snd (respond afterBitwig ableton project_getInfo) in
     resolveDaw respond dawManager explicitDaw configDefault s w
     = (Returned
          match reachable respond (backend w) bitwig,
                reachable respond afterBitwig ableton with
          | true, false => bitwig
          | false, true => ableton
          | true, true | false, false => configDefault
          end,
        s,
        mkWorld afterAbleton
          (trace w ++ [Sent bitwig project_getInfo; Sent ableton project_getInfo]))).
Proof.
  split.
  - intros d Hd. apply explicitChoice_spec in Hd. unfold resolveDaw.
    by rewrite Hd.
  - intros Hb Ha afterBitwig afterAbleton. unfold resolveDaw.
    destruct (explicitChoice explicitDaw) as [d|] eqn:E.
    { apply explicitChoice_spec in E. destruct d; simpl in E; congruence. }
    unfold checkConnections, bind. rewrite !probe_run. simpl.
    subst afterBitwig afterAbleton. rewrite <- app_assoc. simpl.
    repeat match goal with
           | |- context [reachable respond ?b ?d] =>
               destruct (reachable respond b d)
           end; done.
Qed.


(** *** Implicit context *)

Lemma resolveClipIndices_explicit {S} daw t sl (s : S) (w : @World B) :
  resolveClipIndices respond dawManager daw (Some t) (Some sl) s w
  = (Returned (t - 1, sl - 1), s, w).
Proof. done. Qed.

Lemma resolveClipIndices_cursor {S} daw t sl (s : S) (w : @World B) :
  t = None \/ sl = None ->
  let target := default (defaultDaw dawManager) daw in
  resolveClipIndices respond dawManager daw t sl s w
  = (match fst (respond (backend w) target clip_getSelection) with
     | inl e => Thrown e
     | inr sel =>
         if (sel_trackIndex sel =? -1) || (sel_slotIndex sel =? -1)
         then Thrown noSlotSelected
         else Returned (sel_trackIndex sel, sel_slotIndex sel)
     end,
     s,
     mkWorld (snd (respond (backend w) target clip_getSelection))
             (trace w ++ [Sent target clip_getSelection])).
Proof.
  intros Hnone target.
  assert (resolveClipIndices respond dawManager daw t sl s w
          = resolveClipIndices respond dawManager daw None None s w) as ->.
  { destruct Hnone as [-> | ->]; [done|]. by destruct t. }
  unfold resolveClipIndices, bind, Bridge.send, throw, ret. fold target.
  destruct (respond (backend w) target clip_getSelection) as [[e|sel] b']; simpl;
    [done|].
  by destruct ((sel_trackIndex sel =? -1) || (sel_slotIndex sel =? -1)).
Qed.

Lemma selectClipIfNeeded_explicit {S} config daw args t sl (s : S) (w : @World B) :
  arg_trackIndex args = Some t -> arg_slotIndex args = Some sl ->
  let target := default (defaultDaw dawManager) daw in
  let select := clip_select (t - 1) (Some (sl - 1)) in
  selectClipIfNeeded respond dawManager config daw args s w
  = match fst (respond (backend w) target select) with
    | inl e =>
        (Thrown e, s,
         mkWorld (snd (respond (backend w) target select))
                 (trace w ++ [Sent target select]))
    | inr _ =>
        (Returned tt, s,
         mkWorld (snd (respond (backend w) target select))
                 (trace w ++ [Sent target select; Slept (selectionDelayMs config)]))
    end.
Proof.
  intros Ht Hs target select. unfold selectClipIfNeeded. rewrite Ht, Hs.
  unfold bind. rewrite resolveClipIndices_explicit. simpl.
  unfold Bridge.send, sleep. fold target. fold select.
  destruct (respond (backend w) target select) as [[e|v] b']; simpl; [done|].
  by rewrite <- app_assoc.
Qed.

Lemma selectClipIfNeeded_cursor {S} config daw args (s : S) (w : @World B) :
  arg_trackIndex args = None \/ arg_slotIndex args = None ->
  let target := default (defaultDaw dawManager) daw in
  selectClipIfNeeded respond dawManager config daw args s w
  = (match fst (respond (backend w) target clip_getSelection) with
     | inl e => Thrown e
     | inr sel =>
         if (sel_trackIndex sel =? -1) || (sel_slotIndex sel =? -1)
         then Thrown noSlotSelected
         else Returned tt
     end,
     s,
     mkWorld (snd (respond (backend w) target clip_getSelection))
             (trace w ++ [Sent target clip_getSelection])).
Proof.
  intros Hnone target. unfold selectClipIfNeeded, bind.
  rewrite resolveClipIndices_cursor by done. fold target.
  destruct (respond (backend w) target clip_getSelection) as [[e|sel] b'];
    simpl; [done|].
  destruct ((sel_trackIndex sel =? -1) || (sel_slotIndex sel =? -1)); [done|].
  by destruct Hnone as [-> | ->]; destruct (arg_trackIndex args).
Qed.

(** C10. Partial explicit addressing is ignored. With exactly one of
    [trackIndex] and [slotIndex] supplied, [resolveClipIndices] is the
    computation it is with none supplied: it queries [clip.getSelection]
    and nothing else; when the query answers it throws the "No clip slot
    selected" error exactly when the track or the slot reported is -1 and
    otherwise returns the reported address as it is; when the query fails
    its error is thrown. [selectClipIfNeeded] then sends that one query
    only: no [clip.select] and no delay. *)
Theorem partial_addressing_ignored (daw : option DAWType)
    (trackIndex slotIndex : option Z) (b : B) :
  partially trackIndex slotIndex = true ->
  let target := default (defaultDaw dawManager) daw in
  (forall S (s : S) w,
     resolveClipIndices respond dawManager daw trackIndex slotIndex s w
     = resolveClipIndices respond dawManager daw None None s w) /\
  (let '(r, tr) :=
     runFrom b (resolveClipIndices respond dawManager daw trackIndex slotIndex) in
   tr = [Sent target clip_getSelection] /\
   match fst (respond b target clip_getSelection) with
   | inr sel =>
       (r = Thrown noSlotSelected <->
        sel_trackIndex sel = -1 \/ sel_slotIndex sel = -1) /\
       (sel_trackIndex sel <> -1 -> sel_slotIndex sel <> -1 ->
        r = Returned (sel_trackIndex sel, sel_slotIndex sel))
   | inl e => r = Thrown e
   end) /\
  (forall config args,
     arg_trackIndex args = trackIndex -> arg_slotIndex args = slotIndex ->
     let '(_, tr) :=
       runFrom b (selectClipIfNeeded respond dawManager config daw args) in
     tr = [Sent target clip_getSelection] /\
     existsb isSelect tr = false /\ existsb isSleep tr = false).
Proof.
  intros Hpartial target.
  assert (Hnone : trackIndex = None \/ slotIndex = None).
  { destruct trackIndex, slotIndex; try done; auto. }
  split; [|split].
  - intros S s w. rewrite !resolveClipIndices_cursor; auto.
  - unfold runFrom. rewrite resolveClipIndices_cursor by done. fold target. simpl.
    split; [done|].
    destruct (respond b target clip_getSelection) as [[e|sel] b']; simpl; [done|].
    destruct (Z.eqb_spec (sel_trackIndex sel) (-1)) as [Ht|Ht]; simpl.
    { split; [tauto|]. intros; congruence. }
    destruct (Z.eqb_spec (sel_slotIndex sel) (-1)) as [Hs|Hs].
    { split; [tauto|]. intros; congruence. }
    split; [|done]. split; [done|]. intros [?|?]; congruence.
  - intros config args Ht Hs. unfold runFrom.
    rewrite selectClipIfNeeded_cursor by (rewrite Ht, Hs; done). by fold target.
Qed.

(** C6, as the code has it. [selectClipIfNeeded] sends [clip.select] if
    and only if both [trackIndex] and [slotIndex] are supplied, and then
    for the 0-based address; when the backend acknowledges it, the
    configured delay follows and the call returns, and when the select
    fails the call throws without a delay. When the addressing is not
    fully supplied, neither a [clip.select] nor a delay occurs: the call
    sends one [clip.getSelection] query and returns when a slot is
    selected, and throws when the query fails or reports -1. *)
Theorem selectClipIfNeeded_policy (config : Config) (daw : option DAWType)
    (args : Args) (b : B) :
  let target := default (defaultDaw dawManager) daw in
  let '(r, tr) :=
    runFrom b (selectClipIfNeeded respond dawManager config daw args) in
  match arg_trackIndex args, arg_slotIndex args with
  | Some t, Some sl =>
      let select := clip_select (toInternal t) (Some (toInternal sl)) in
      existsb isSelect tr = true /\
      match fst (respond b target select) with
      | inr _ =>
          r = Returned tt /\
          tr = [Sent target select; Slept (selectionDelayMs config)]
      | inl e => r = Thrown e /\ tr = [Sent target select]
      end
  | _, _ =>
      existsb isSelect tr = false /\ existsb isSleep tr = false /\
      tr = [Sent target clip_getSelection] /\
      match fst (respond b target clip_getSelection) with
      | inr sel =>
          if (sel_trackIndex sel =? -1) || (sel_slotIndex sel =? -1)
          then r = Thrown noSlotSelected
          else r = Returned tt
      | inl e => r = Thrown e
      end
  end.
Proof.
  intros target. unfold runFrom.
  destruct (arg_trackIndex args) as [t|] eqn:Et;
    [destruct (arg_slotIndex args) as [sl|] eqn:Es|].
  - rewrite (selectClipIfNeeded_explicit config daw args t sl) by done.
    fold target. unfold toInternal. simpl.
    destruct (respond b target (clip_select (t - 1) (Some (sl - 1))))
      as [[e|v] b']; simpl; done.
  - rewrite selectClipIfNeeded_cursor by auto. fold target. simpl.
    destruct (respond b target clip_getSelection) as [[e|sel] b']; simpl; [done|].
    by destruct ((sel_trackIndex sel =? -1) || (sel_slotIndex sel =? -1)).
  - rewrite selectClipIfNeeded_cursor by auto. fold target. simpl.
    destruct (respond b target clip_getSelection) as [[e|sel] b']; simpl; [done|].
    by destruct ((sel_trackIndex sel =? -1) || (sel_slotIndex sel =? -1)).
Qed.

(** *** Auto-remediation *)

Lemma findEmptySlotsWithAutoCreate_run {S} daw trackIndex startSlot n
    (s : S) (w : @World B) :
  let target := default (defaultDaw dawManager) daw in
  let query := clip_findEmptySlots trackIndex startSlot n in
  let b1 := snd (respond (backend w) target query) in
  findEmptySlotsWithAutoCreate respond dawManager daw trackIndex startSlot n s w
  = match fst (respond (backend w) target query) with
    | inl e => (Thrown e, s, mkWorld b1 (trace w ++ [Sent target query]))
    | inr first =>
        if found first <? n then
          let expand := clip_createScene (n - found first) in
          let b2 := snd (respond b1 target expand) in
          match fst (respond b1 target expand) with
          | inr createResult =>
              if sc_success createResult then
                (Returned
                   (match fst (respond b2 target query) with
                    | inr again => again
                    | inl _ => first
                    end, created createResult),
                 s,
                 mkWorld (snd (respond b2 target query))
                   (trace w ++ [Sent target query; Sent target expand;
                                Slept 50; Sent target query]))
              else
                (Returned (first, 0), s,
                 mkWorld b2 (trace w ++ [Sent target query; Sent target expand]))
          | inl _ =>
              (Returned (first, 0), s,
               mkWorld b2 (trace w ++ [Sent target query; Sent target expand]))
          end
        else (Returned (first, 0), s, mkWorld b1 (trace w ++ [Sent target query]))
    end.
Proof.
  intros target query b1. subst b1.
  unfold findEmptySlotsWithAutoCreate, findEmptySlots, call, bind, try_,
    Bridge.send, sleep, modify, get, ret.
  fold target. fold query.
  destruct (respond (backend w) target query) as [[e|first] b1]; simpl; [done|].
  destruct (found first <? n); simpl; [|done].
  destruct (respond b1 target (clip_createScene (n - found first)))
    as [[e|createResult] b2]; simpl; [by rewrite <- app_assoc|].
  destruct (sc_success createResult); simpl; [|by rewrite <- app_assoc].
  destruct (respond b2 target query) as [[e|again] b3]; simpl;
    by rewrite <- !app_assoc.
Qed.

(** C4, as the code has it. One call of [findEmptySlotsWithAutoCreate]
    for [n] free slots sends the capacity query once; if it reports at
    least [n] slots nothing else happens. If it reports fewer, exactly one
    [clip.createScene] is sent, for the shortfall [n - found]. When that
    command succeeds and reports success, a delay of 50 ms and exactly
    one more capacity query follow, whose result (if it answers) is
    returned whether or not it still falls short; when the command fails
    or reports no success, neither a delay nor a second query follows.
    In no case is a second [clip.createScene] sent. *)
Theorem autoCreate_one_pass (daw : option DAWType) (trackIndex : Z)
    (startSlot : option Z) (n : Z) (b : B) :
  let target := default (defaultDaw dawManager) daw in
  let query := clip_findEmptySlots trackIndex startSlot n in
  let b1 := snd (respond b target query) in
  let '(r, tr) :=
    runFrom b (findEmptySlotsWithAutoCreate respond dawManager daw
                 trackIndex startSlot n) in
  (length (List.filter isCreateScene tr) <= 1)%nat /\
  (length (List.filter isCapacityQuery tr) <= 2)%nat /\
  match fst (respond b target query) with
  | inl e => r = Thrown e /\ tr = [Sent target query]
  | inr first =>
      if found first <? n then
        let expand := clip_createScene (n - found first) in
        let b2 := snd (respond b1 target expand) in
        match fst (respond b1 target expand) with
        | inr createResult =>
            if sc_success createResult then
              tr = [Sent target query; Sent target expand; Slept 50;
                    Sent target query] /\
              r = Returned (match fst (respond b2 target query) with
                            | inr again => again
                            | inl _ => first
                            end, created createResult)
            else
              tr = [Sent target query; Sent target expand] /\
              r = Returned (first, 0)
        | inl _ =>
            tr = [Sent target query; Sent target expand] /\
            r = Returned (first, 0)
        end
      else tr = [Sent target query] /\ r = Returned (first, 0)
  end.
Proof.
  intros target query b1. unfold runFrom.
  rewrite findEmptySlotsWithAutoCreate_run. fold target. fold query. simpl.
  subst b1.
  destruct (respond b target query) as [[e|first] b1]; simpl; [auto|].
  destruct (found first <? n); simpl; [|auto].
  destruct (respond b1 target (clip_createScene (n - found first)))
    as [[e|createResult] b2]; simpl; [auto|].
  destruct (sc_success createResult); simpl; auto.
Qed.

(** *** Sorting *)

Lemma insertBy_perm compare x l : insertBy compare x l ≡ₚ x :: l.
Proof.
  induction l as [|y l IH]; simpl; [done|].
  destruct (compare y x <=? 0); [|done].
  rewrite IH. apply perm_swap.
Qed.

Lemma sort_fold_perm compare xs acc :
  fold_left (fun sorted x => insertBy compare x sorted) xs acc ≡ₚ xs ++ acc.
Proof.
  revert acc. induction xs as [|x xs IH]; intros acc; simpl; [done|].
  rewrite IH, insertBy_perm. by rewrite Permutation_middle.
Qed.

Lemma sort_perm compare xs : sort compare xs ≡ₚ xs.
Proof. unfold sort. rewrite sort_fold_perm. by rewrite app_nil_r. Qed.

Lemma insertBy_descending x l :
  StronglySorted Z.ge l -> StronglySorted Z.ge (insertBy (fun a b => b - a) x l).
Proof.
  induction 1 as [|y l Hs IH Hy]; simpl.
  - repeat constructor.
  - destruct (Z.leb_spec (x - y) 0) as [Hle|Hgt].
    + constructor; [done|].
      rewrite (insertBy_perm (fun a b => b - a) x l).
      constructor; [lia|done].
    + constructor; [by constructor|].
      constructor; [lia|].
      eapply Forall_impl; [exact Hy|]. intros z Hz. simpl in Hz. lia.
Qed.

Lemma sort_descending xs :
  StronglySorted Z.ge (sort (fun a b => b - a) xs).
Proof.
  unfold sort.
  assert (H : forall acc, StronglySorted Z.ge acc ->
    StronglySorted Z.ge
      (fold_left (fun sorted x => insertBy (fun a b => b - a) x sorted) xs acc)).
  { induction xs as [|x xs IH]; intros acc Hacc; simpl; [done|].
    by apply IH, insertBy_descending. }
  apply H. constructor.
Qed.

(** *** Loops that send one command per item *)

Lemma attempt_length b d cs : length (fst (attempt respond b d cs)) = length cs.
Proof.
  revert b. induction cs as [|c cs IH]; intros b; simpl; [done|].
  destruct (respond b d c) as [r b']. specialize (IH b').
  destruct (attempt respond b' d cs) as [os b'']. simpl in *. by rewrite IH.
Qed.

Lemma forEach_attempts {A} (cmd : A -> Command) (tag : Z -> A -> Z)
    (d : DAWType) (xs : list A) (i : Z) (l : Locals) (w : @World B) :
  forEach (fun j x =>
             try_ (bind (Bridge.send respond dawManager (cmd x) (Some d))
                        (fun _ => incrCompleted))
                  (fun e => pushError (tag j x) e))
          i xs l w
  = (Returned tt,
     mkLocals (l_completed l + successes (fst (attempt respond (backend w) d (map cmd xs))))
              (l_errors l ++ failures tag i xs
                 (fst (attempt respond (backend w) d (map cmd xs))))
              (l_createdClips l) (l_cursorSlot l),
     mkWorld (snd (attempt respond (backend w) d (map cmd xs)))
             (trace w ++ map (fun x => Sent d (cmd x)) xs)).
Proof.
  revert i l w. induction xs as [|x xs IH]; intros i l w; simpl.
  - unfold ret, successes, count. simpl.
    rewrite Z.add_0_r, !app_nil_r. by destruct l, w.
  - unfold bind at 1. unfold try_ at 1. unfold bind at 1.
    unfold Bridge.send at 1. simpl.
    destruct (respond (backend w) d (cmd x)) as [[e|v] b'] eqn:E; simpl.
    + rewrite IH. simpl.
      destruct (attempt respond b' d (map cmd xs)) as [os b'']. simpl.
      by rewrite <- !app_assoc.
    + rewrite IH. simpl.
      destruct (attempt respond b' d (map cmd xs)) as [os b'']. simpl.
      rewrite <- !app_assoc. simpl. do 2 f_equal.
      unfold successes, count. simpl. f_equal. lia.
Qed.

Lemma failures_successes {A} (tag : Z -> A -> Z) i (xs : list A) os :
  length os = length xs ->
  successes os + count (failures tag i xs os) = count xs.
Proof.
  unfold successes, count. revert i os.
  induction xs as [|x xs IH]; intros i [|o os] Hlen; simpl in *; try done.
  injection Hlen as Hlen. specialize (IH (i + 1) os Hlen).
  destruct o; simpl; lia.
Qed.

(** An entry of [failures] is the report of a failed item, under the tag
    of that item and its position. *)
Lemma failures_lookup {A} (tag : Z -> A -> Z) i (xs : list A) os j e :
  mkError j e ∈ failures tag i xs os <->
  exists k x, xs !! k = Some x /\ os !! k = Some (Some e) /\
              j = tag (i + Z.of_nat k) x.
Proof.
  revert i os. induction xs as [|x xs IH]; intros i os; simpl.
  - split; [by intros H%elem_of_nil|]. by intros (k & y & H & _).
  - destruct os as [|o os].
    { split; [by intros H%elem_of_nil|]. by intros (k & y & _ & H & _). }
    assert (Hrest : (exists k y, xs !! k = Some y /\ os !! k = Some (Some e) /\
                                 j = tag (i + 1 + Z.of_nat k) y) <->
                    (exists k y, (x :: xs) !! S k = Some y /\
                                 (o :: os) !! S k = Some (Some e) /\
                                 j = tag (i + Z.of_nat (S k)) y)).
    { split; intros (k & y & H1 & H2 & H3); exists k, y; simpl in *;
        (split; [done|split; [done|]]); rewrite H3; f_equal; lia. }
    destruct o as [e'|].
    + rewrite elem_of_cons, IH, Hrest. split.
      * intros [Heq|(k & y & H)]; [|by exists (S k), y].
        injection Heq as -> ->. exists 0%nat, x. simpl.
        by rewrite Z.add_0_r.
      * intros ([|k] & y & H1 & H2 & H3); [|right; by exists k, y].
        left. simpl in *. injection H1 as <-. injection H2 as <-.
        by rewrite H3, Z.add_0_r.
    + rewrite IH, Hrest. split.
      * intros (k & y & H). by exists (S k), y.
      * intros ([|k] & y & H1 & H2 & H3); [done|by exists k, y].
Qed.

Lemma failures_sorted {A} i (xs : list A) os :
  StronglySorted Z.lt (map index (failures (fun j _ => j) i xs os)).
Proof.
  assert (Hlow : forall i (xs : list A) os,
            Forall (fun e => i <= index e) (failures (fun j _ => j) i xs os)).
  { clear. intros i xs. revert i.
    induction xs as [|x xs IH]; intros i [|o os]; simpl; try constructor.
    - destruct o; [constructor; [simpl; lia|]|];
        (eapply Forall_impl; [apply IH|]; simpl; intros; lia). }
  revert i os. induction xs as [|x xs IH]; intros i [|o os]; simpl;
    try constructor.
  destruct o; simpl; [|apply IH].
  constructor; [apply IH|]. apply Forall_map.
  eapply Forall_impl; [apply (Hlow (i + 1))|]. simpl. intros; lia.
Qed.

Lemma tally_summary l :
  completed (tally l) = l_completed l /\
  failed (tally l) = count (l_errors l) /\
  success (tally l) = (failed (tally l) =? 0) /\
  (errors (tally l) = None <-> failed (tally l) = 0) /\
  (failed (tally l) <> 0 -> errors (tally l) = Some (l_errors l)).
Proof.
  unfold tally, errorsField, count. simpl.
  destruct (l_errors l) as [|e es]; simpl; repeat split; try done; lia.
Qed.

(** *** [handleBatchDeleteTracks] *)

Lemma handleBatchDeleteTracks_run {S} daw args (s : S) (w : @World B) :
  let sorted := sort (fun a b => b - a) (map toInternal (arg_trackIndices args)) in
  let os := fst (attempt respond (backend w) daw (map track_delete sorted)) in
  handleBatchDeleteTracks respond dawManager daw args s w
  = (Returned (tally (mkLocals (successes os)
                        (failures (fun _ x => toUser x) 0 sorted os) [] None)),
     s,
     mkWorld (snd (attempt respond (backend w) daw (map track_delete sorted)))
             (trace w ++ map (fun x => Sent daw (track_delete x)) sorted)).
Proof.
  intros sorted os. unfold handleBatchDeleteTracks, call. fold sorted.
  unfold bind at 1.
  rewrite (forEach_attempts track_delete (fun _ x => toUser x)). by simpl.
Qed.

(** *** Loops whose items take several commands *)

Lemma successes_nonneg os : 0 <= successes os.
Proof. unfold successes, count. lia. Qed.

Lemma successes_cons o os :
  successes (o :: os)
  = match o with None => 1 | Some _ => 0 end + successes os.
Proof. unfold successes, count. destruct o; simpl; lia. Qed.

(** What a result built from the accumulators of such a loop says. *)
Lemma fates_reported {A} (xs : list A) (fates : list (option string))
    (r : BatchResult) :
  length fates = length xs ->
  completed r = successes fates ->
  failed r = count (failures (fun j _ => j) 0 xs fates) ->
  errors r = errorsField (failures (fun j _ => j) 0 xs fates) ->
  success r = (failed r =? 0) ->
  aggregated (count xs) r /\ reportsByPosition fates r.
Proof.
  intros Hlen Hc Hf He Hs. split.
  - unfold aggregated. rewrite Hc, Hf.
    split; [by apply failures_successes|].
    split; [apply successes_nonneg|]. split; [unfold count; lia|].
    split; [by rewrite Hs, Hf|]. rewrite He. unfold errorsField.
    split; [|intros es; destruct (0 <? _); congruence].
    destruct (Z.ltb_spec 0 (count (failures (fun j _ => j) 0 xs fates)));
      split; try done; try lia. unfold count in *. lia.
  - split; [done|]. exists (failures (fun j _ => j) 0 xs fates).
    split; [done|]. split; [done|]. split; [apply failures_sorted|].
    intros j e. rewrite failures_lookup. split.
    + intros (k & x & Hx & Ho & ->). exists k. split; [done|lia].
    + intros (k & Ho & ->).
      assert (Hk : (k < length xs)%nat).
      { rewrite <- Hlen. by apply lookup_lt_Some in Ho. }
      destruct (lookup_lt_is_Some_2 xs k Hk) as [x Hx].
      exists k, x. split; [done|split; [done|lia]].
Qed.

Lemma aggregated_tally l n :
  0 <= l_completed l -> l_completed l + count (l_errors l) = n ->
  aggregated n (tally l).
Proof.
  intros Hpos Hsum. destruct (tally_summary l) as (Hc & Hf & Hs & Hnone & Hsome).
  unfold aggregated. split; [by rewrite Hc, Hf|].
  split; [by rewrite Hc|]. split; [rewrite Hf; unfold count; lia|].
  split; [done|]. split; [done|].
  intros es Hes. rewrite Hf. unfold tally, errorsField in Hes. simpl in Hes.
  destruct (0 <? count (l_errors l)); congruence.
Qed.

(** The helpers do not depend on the [let] variables of their caller. *)
Lemma resolveClipIndices_locals {S} daw t sl (s : S) (w : @World B) :
  resolveClipIndices respond dawManager daw t sl s w
  = let '(r, _, w') := resolveClipIndices respond dawManager daw t sl tt w in
    (r, s, w').
Proof.
  destruct t as [t|]; [destruct sl as [sl|]|]; [done| |];
    rewrite !resolveClipIndices_cursor by auto; done.
Qed.

Lemma selectClipIfNeeded_locals {S} config daw args (s : S) (w : @World B) :
  selectClipIfNeeded respond dawManager config daw args s w
  = let '(r, _, w') :=
      selectClipIfNeeded respond dawManager config daw args tt w in
    (r, s, w').
Proof.
  destruct (arg_trackIndex args) as [t|] eqn:Et;
    [destruct (arg_slotIndex args) as [sl|] eqn:Es|].
  - rewrite !(selectClipIfNeeded_explicit config daw args t sl) by done. simpl.
    by destruct (respond (backend w) (default (defaultDaw dawManager) daw)
                   (clip_select (t - 1) (Some (sl - 1)))) as [[e|v] b'].
  - rewrite !selectClipIfNeeded_cursor by auto. done.
  - rewrite !selectClipIfNeeded_cursor by auto. done.
Qed.

(** *** [handleBatchMoveNotes] and [handleBatchClearNotes] *)

Lemma handleBatchMoveNotes_run {S} config daw args (s : S) (w : @World B) :
  handleBatchMoveNotes respond dawManager config daw args s w
  = match selectClipIfNeeded respond dawManager config (Some daw) args tt w with
    | (Thrown e, _, w1) => (Thrown e, s, w1)
    | (Returned _, _, w1) =>
        let cs := map clip_moveNote (arg_moves args) in
        (Returned (tally (mkLocals
                     (successes (fst (attempt respond (backend w1) daw cs)))
                     (failures (fun i _ => i) 0 (arg_moves args)
                        (fst (attempt respond (backend w1) daw cs)))
                     [] None)),
         s,
         mkWorld (snd (attempt respond (backend w1) daw cs))
                 (trace w1 ++ map (fun x => Sent daw (clip_moveNote x)) (arg_moves args)))
    end.
Proof.
  unfold handleBatchMoveNotes, call. unfold bind at 1.
  rewrite selectClipIfNeeded_locals.
  destruct (selectClipIfNeeded respond dawManager config (Some daw) args tt w)
    as [[[u|e] u'] w1]; [|done].
  unfold bind at 1.
  rewrite (forEach_attempts clip_moveNote (fun i _ => i)). by simpl.
Qed.

Lemma handleBatchClearNotes_run {S} config daw args note notes (s : S)
    (w : @World B) :
  arg_notes args = Some (note :: notes) ->
  handleBatchClearNotes respond dawManager config daw args s w
  = match selectClipIfNeeded respond dawManager config (Some daw) args tt w with
    | (Thrown e, _, w1) => (Thrown e, s, w1)
    | (Returned _, _, w1) =>
        let cs := map clip_clearNote (note :: notes) in
        (Returned (tally (mkLocals
                     (successes (fst (attempt respond (backend w1) daw cs)))
                     (failures (fun i _ => i) 0 (note :: notes)
                        (fst (attempt respond (backend w1) daw cs)))
                     [] None)),
         s,
         mkWorld (snd (attempt respond (backend w1) daw cs))
                 (trace w1 ++ map (fun x => Sent daw (clip_clearNote x)) (note :: notes)))
    end.
Proof.
  intros Hnotes. unfold handleBatchClearNotes, call. rewrite Hnotes.
  unfold bind at 1. rewrite selectClipIfNeeded_locals.
  destruct (selectClipIfNeeded respond dawManager config (Some daw) args tt w)
    as [[[u|e] u'] w1]; [|done].
  unfold bind at 1.
  rewrite (forEach_attempts clip_clearNote (fun i _ => i)). by simpl.
Qed.

(** A loop whose body does to the accumulators and to the world what
    [item] says of each item. *)
Lemma forEach_batch {A X} (body : Z -> A -> M Locals unit)
    (item : X -> A -> option string * list Action * X)
    (view : Locals -> @World B -> X) :
  (forall i a l w, exists l' w',
     body i a l w = (Returned tt, l', w') /\
     view l' w' = (item (view l w) a).2 /\
     trace w' = trace w ++ (item (view l w) a).1.2 /\
     l_completed l'
     = l_completed l + match (item (view l w) a).1.1 with None => 1 | Some _ => 0 end /\
     l_errors l'
     = l_errors l ++ match (item (view l w) a).1.1 with
                     | None => []
                     | Some e => [mkError i e]
                     end) ->
  forall xs i l w, exists l' w',
    forEach body i xs l w = (Returned tt, l', w') /\
    view l' w' = (batch item (view l w) xs).2 /\
    trace w' = trace w ++ concat (batch item (view l w) xs).1.*2 /\
    l_completed l' = l_completed l + successes (batch item (view l w) xs).1.*1 /\
    l_errors l'
    = l_errors l ++ failures (fun j _ => j) i xs (batch item (view l w) xs).1.*1.
Proof.
  intros Hbody. induction xs as [|a xs IH]; intros i l w.
  - exists l, w. cbn. unfold successes, count. cbn.
    rewrite !app_nil_r. repeat split; try done. lia.
  - destruct (Hbody i a l w) as (l1 & w1 & Hrun & Hview & Htrace & Hc & He).
    destruct (IH (i + 1) l1 w1) as (l2 & w2 & Hloop & Hview2 & Htrace2 & Hc2 & He2).
    exists l2, w2. cbn [forEach batch]. unfold bind. rewrite Hrun, Hloop.
    split; [done|]. rewrite Hview in *.
    destruct (item (view l w) a) as [[fate acts] x']. cbn [fst snd] in *.
    destruct (batch item x' xs) as [outs x'']. cbn [fst snd fmap list_fmap concat] in *.
    split; [done|]. split; [by rewrite Htrace2, Htrace, <- app_assoc|].
    rewrite Hc2, He2, Hc, He, successes_cons.
    destruct fate; cbn [failures]; rewrite <- ?app_assoc; split; try done; lia.
Qed.

Ltac item_simpl :=
  cbn [perform carry default from_option id fst snd backend trace
       l_completed l_errors l_createdClips l_cursorSlot app option_map
       andb orb negb].

Ltac item_cases :=
  item_simpl;
  repeat match goal with
         | r : Reply (clip_hasContent _ _) |- _ => destruct r; item_simpl
         | |- context [if ?c then _ else _] =>
             match type of c with bool => destruct c; item_simpl end
         | |- context [match givenName ?n with _ => _ end] =>
             destruct (givenName n); item_simpl
         | |- context [respond ?b ?d ?c] =>
             destruct (respond b d c) as [[?|?] ?]; item_simpl
         end.

Ltac item_leaf :=
  eexists _, _; split; [reflexivity|]; item_simpl;
  rewrite <- ?app_assoc, ?app_nil_r; repeat split; try reflexivity; try lia.

Lemma deleteOne_item daw i clip l (w : @World B) :
  exists l' w',
    deleteOne respond dawManager daw i clip l w = (Returned tt, l', w') /\
    backend w' = (deletion respond daw (backend w) clip).2 /\
    trace w' = trace w ++ (deletion respond daw (backend w) clip).1.2 /\
    l_completed l'
    = l_completed l + match (deletion respond daw (backend w) clip).1.1 with
                      | None => 1
                      | Some _ => 0
                      end /\
    l_errors l'
    = l_errors l ++ match (deletion respond daw (backend w) clip).1.1 with
                    | None => []
                    | Some e => [mkError i e]
                    end.
Proof.
  unfold deleteOne, deletion, try_, bind, resolveClipIndices, bind, Bridge.send,
    throw, ret, incrCompleted, pushError, modify, unselected, toInternal.
  destruct (cr_trackIndex clip) as [t|], (cr_slotIndex clip) as [sl|];
    item_cases; item_leaf.
Qed.

Lemma createOne_item config daw overwrite cursorTrack i clip l (w : @World B) :
  let out := creation respond dawManager config daw overwrite cursorTrack
               (backend w, l_cursorSlot l) clip in
  exists l' w',
    createOne respond dawManager config daw overwrite cursorTrack i clip l w
    = (Returned tt, l', w') /\
    (backend w', l_cursorSlot l') = out.2 /\
    trace w' = trace w ++ out.1.2 /\
    l_completed l'
    = l_completed l + match out.1.1 with None => 1 | Some _ => 0 end /\
    l_errors l'
    = l_errors l ++ match out.1.1 with None => [] | Some e => [mkError i e] end.
Proof.
  intros out. subst out. unfold createOne, creation, try_.
  destruct overwrite, (cr_trackIndex clip) as [t|];
    (destruct (cr_slotIndex clip) as [requested|]; cbn [negb andb];
     [ unfold slotHasContent, createAt, createPlan, bind, Bridge.send, sleep, ret,
         incrCompleted, pushError, pushCreated, modify, toInternal, toUser;
       item_cases; item_leaf
     | unfold capacity, get; unfold bind at 1; unfold bind at 1;
       rewrite !findEmptySlotsWithAutoCreate_run;
       unfold createAt, createPlan, setCursorSlot, bind, Bridge.send, sleep, ret,
         incrCompleted, pushError, pushCreated, modify, toInternal, toUser;
       item_cases; item_leaf ]).
Qed.

(** *** [handleBatchDeleteClips] and [handleBatchCreateClips], item by
    item *)

Lemma handleBatchDeleteClips_batch {S} daw args clip clips (s : S) (w : @World B) :
  arg_clips args = Some (clip :: clips) ->
  let outs := batch (deletion respond daw) (backend w) (clip :: clips) in
  handleBatchDeleteClips respond dawManager daw args s w
  = (Returned (tally (mkLocals (successes outs.1.*1)
                        (failures (fun j _ => j) 0 (clip :: clips) outs.1.*1)
                        [] None)),
     s, mkWorld outs.2 (trace w ++ concat outs.1.*2)).
Proof.
  intros Hclips outs. unfold handleBatchDeleteClips, call. rewrite Hclips.
  destruct (forEach_batch (deleteOne respond dawManager daw)
              (deletion respond daw) (fun _ w => backend w)
              (deleteOne_item daw) (clip :: clips) 0 start w)
    as (l' & w' & Hloop & Hb & Htrace & Hc & He).
  unfold bind at 1. rewrite Hloop. unfold bind, get, ret.
  fold outs in Hb, Htrace, Hc, He.
  cbn [l_errors l_completed start app] in He, Hc.
  unfold tally. cbn [l_errors l_completed]. rewrite He, Hc, Z.add_0_l.
  destruct w' as [b' tr']. cbn [backend trace] in Hb, Htrace. by subst.
Qed.

Lemma handleBatchCreateClips_batch {S} config daw args clip clips (s : S)
    (w : @World B) :
  arg_clips args = Some (clip :: clips) ->
  match cursorAndScenes respond dawManager daw tt w with
  | (Thrown e, _, w1) =>
      handleBatchCreateClips respond dawManager config daw args s w
      = (Thrown e, s, w1)
  | (Returned (cursor, sceneCount), _, w1) =>
      let cursorSlot := if snd cursor >=? sceneCount then 0 else snd cursor in
      let outs :=
        batch (creation respond dawManager config daw
                 (default false (arg_overwrite args)) (fst cursor))
              (backend w1, Some cursorSlot) (clip :: clips) in
      exists createdClips,
        handleBatchCreateClips respond dawManager config daw args s w
        = (Returned
             (mkBatchResult
                (count (failures (fun j _ => j) 0 (clip :: clips) outs.1.*1) =? 0)
                (successes outs.1.*1)
                (count (failures (fun j _ => j) 0 (clip :: clips) outs.1.*1))
                (errorsField (failures (fun j _ => j) 0 (clip :: clips) outs.1.*1))
                None (Some createdClips) None None),
           s, mkWorld outs.2.1 (trace w1 ++ concat outs.1.*2))
  end.
Proof.
  intros Hclips. unfold handleBatchCreateClips, cursorAndScenes, call.
  rewrite Hclips.
  cbv beta iota zeta delta [bind resolveClipIndices Bridge.send setCursorSlot
    modify ret get throw].
  cbn [default from_option id].
  destruct (respond (backend w) daw clip_getSelection) as [[e|sel] b1];
    cbn [fst snd backend trace]; [done|].
  destruct ((sel_trackIndex sel =? -1) || (sel_slotIndex sel =? -1));
    cbn [fst snd backend trace]; [done|].
  destruct (respond b1 daw clip_getSceneCount) as [[e|n] b2];
    cbn [fst snd backend trace]; [done|].
  set (item := creation respond dawManager config daw
                 (default false (arg_overwrite args)) (sel_trackIndex sel)).
  pose proof (forEach_batch
                (createOne respond dawManager config daw
                   (default false (arg_overwrite args)) (sel_trackIndex sel))
                item (fun l w => (backend w, l_cursorSlot l))
                (createOne_item config daw _ _) (clip :: clips) 0) as Hloop.
  destruct (sel_slotIndex sel >=? n);
    match goal with
    | |- context [forEach _ 0 (clip :: clips) ?l0 ?w0] =>
        destruct (Hloop l0 w0) as (l' & w' & -> & Hview & Htrace & Hc & He)
    end;
    cbn [l_errors l_completed l_cursorSlot backend trace start app] in *;
    exists (l_createdClips l'); rewrite He, Hc, Z.add_0_l;
    destruct w' as [b' tr']; cbn [backend trace] in *;
    rewrite <- Hview, Htrace; reflexivity.
Qed.

End WithBackend.

(** *** Deleting from a bank of tracks *)

Lemma keepFrom_all {A} i keep (xs : list A) :
  (forall j, i <= j -> keep j = true) -> keepFrom i keep xs = xs.
Proof.
  revert i. induction xs as [|x xs IH]; intros i Hkeep; simpl; [done|].
  rewrite Hkeep by lia. f_equal. apply IH. intros j Hj. apply Hkeep. lia.
Qed.

Lemma keepFrom_shift {A} i keep keep' (xs : list A) :
  (forall j, keep j = keep' (j + 1)) ->
  keepFrom i keep xs = keepFrom (i + 1) keep' xs.
Proof.
  intros Hshift. revert i. induction xs as [|x xs IH]; intros i; simpl; [done|].
  by rewrite Hshift, IH.
Qed.

(** Deleting position [d] and then dropping lower positions is dropping
    them together with [d]. *)
Lemma keepFrom_delete {A} i d keep keep' (xs : list A) :
  i <= d ->
  (forall j, j < d -> keep' j = keep j) -> keep' d = false ->
  (forall j, d <= j -> keep j = true) -> (forall j, d < j -> keep' j = true) ->
  keepFrom i keep (delete (Z.to_nat (d - i)) xs) = keepFrom i keep' xs.
Proof.
  intros Hid Hlow Hd Hhigh Hhigh'. revert i Hid.
  induction xs as [|x xs IH]; intros i Hid; simpl.
  - by destruct (Z.to_nat (d - i)).
  - destruct (Z.eq_dec d i) as [->|Hne].
    + rewrite Z.sub_diag, Hd. simpl.
      rewrite !keepFrom_all; [done| |]; intros j Hj; [apply Hhigh'|apply Hhigh]; lia.
    + replace (Z.to_nat (d - i)) with (S (Z.to_nat (d - (i + 1)))) by lia. simpl.
      rewrite Hlow by lia. rewrite IH by lia. done.
Qed.

Lemma among_spec xs i : among xs i = true <-> i ∈ xs.
Proof.
  unfold among. rewrite existsb_exists. split.
  - intros (x & Hin & ->%Z.eqb_eq). by apply list_elem_of_In.
  - intros Hin. exists i. split; [by apply list_elem_of_In|apply Z.eqb_refl].
Qed.

Lemma among_false xs i : among xs i = false <-> i ∉ xs.
Proof.
  rewrite <- among_spec. destruct (among xs i); split; try done.
Qed.

(** Against a bank of tracks, deletions at strictly descending positions
    all succeed and remove exactly the tracks at those positions. *)
Lemma attempt_trackBank daw ds tracks :
  StronglySorted Z.gt ds ->
  Forall (fun d => 0 <= d < count tracks) ds ->
  attempt trackBank tracks daw (map track_delete ds)
  = (map (fun _ => None) ds,
     keepFrom 0 (fun j => negb (among ds j)) tracks).
Proof.
  intros Hsorted. revert tracks.
  induction Hsorted as [|d ds Hs IH Hd]; intros tracks Hrange; simpl.
  - f_equal. symmetry. by apply keepFrom_all.
  - apply Forall_cons in Hrange as [Hdr Hrange].
    destruct (Z.leb_spec 0 d); [|lia]. destruct (Z.ltb_spec d (count tracks)); [|lia].
    simpl. rewrite IH.
    + f_equal.
      rewrite <- (keepFrom_delete 0 d (fun j => negb (among ds j))
                    (fun j => negb (among (d :: ds) j))), Z.sub_0_r; try done.
      * intros j Hj. unfold among. simpl.
        destruct (Z.eqb_spec j d); [lia|done].
      * unfold among. simpl. by rewrite Z.eqb_refl.
      * intros j Hj. apply negb_true_iff, among_false. intros Hin.
        rewrite Forall_forall in Hd. apply Hd in Hin. lia.
      * intros j Hj. apply negb_true_iff, among_false.
        intros [->|Hin]%elem_of_cons; [lia|].
        rewrite Forall_forall in Hd. apply Hd in Hin. lia.
    + rewrite Forall_forall in *. intros d' Hin.
      specialize (Hd _ Hin). specialize (Hrange _ Hin).
      unfold count in *. rewrite length_delete by (apply lookup_lt_is_Some_2; lia).
      lia.
Qed.

Lemma descending_strict ds :
  StronglySorted Z.ge ds -> NoDup ds -> StronglySorted Z.gt ds.
Proof.
  induction 1 as [|d ds Hs IH Hd]; intros Hnd; [constructor|].
  apply NoDup_cons in Hnd as [Hnotin Hnd].
  constructor; [by apply IH|].
  rewrite Forall_forall in *. intros x Hin. specialize (Hd x Hin).
  assert (x <> d) by (by intros ->). lia.
Qed.

(** C7. Descending-order destructive deletion. The commands
    [handleBatchDeleteTracks] sends are [track.delete] commands only, one
    per requested track, whether or not earlier ones fail; their indices
    are the caller's 1-based indices each less one, rearranged, and they
    descend: every index sent is at most the ones sent before it, in
    whatever order the caller gave them. So no deletion moves a track
    that is still to be deleted: against a bank of tracks, for distinct
    indices of existing tracks, every deletion succeeds and the tracks
    left are exactly those the caller did not name. *)
Theorem deleteTracks_descending {B : Type}
    (respond : B -> DAWType -> forall c : Command, (string + Reply c) * B)
    (dawManager : DAWClientManager) (daw : DAWType) (args : Args) (b : B) :
  (exists sent : list Z,
     snd (runFrom b (handleBatchDeleteTracks respond dawManager daw args))
       = map (fun x => Sent daw (track_delete x)) sent /\
     sent ≡ₚ map (fun n => n - 1) (arg_trackIndices args) /\
     StronglySorted Z.ge sent) /\
  (forall tracks : list string,
     NoDup (arg_trackIndices args) ->
     Forall (fun i => 1 <= i <= count tracks) (arg_trackIndices args) ->
     exists r,
       fst (runFrom tracks (handleBatchDeleteTracks trackBank dawManager daw args))
         = Returned r /\
       completed r = count (arg_trackIndices args) /\ failed r = 0 /\
       stateAfter tracks (handleBatchDeleteTracks trackBank dawManager daw args)
         = remaining (arg_trackIndices args) tracks).
Proof.
  split.
  - exists (sort (fun a b => b - a) (map toInternal (arg_trackIndices args))).
    split; [|split].
    + unfold runFrom. by rewrite handleBatchDeleteTracks_run.
    + apply sort_perm.
    + apply sort_descending.
  - intros tracks Hnd Hrange. unfold runFrom, stateAfter.
    rewrite handleBatchDeleteTracks_run. cbn [fst snd backend trace].
    set (ds := sort (fun a b => b - a) (map toInternal (arg_trackIndices args))).
    assert (Hperm : ds ≡ₚ map toInternal (arg_trackIndices args)) by apply sort_perm.
    assert (Hstrict : StronglySorted Z.gt ds).
    { apply descending_strict; [apply sort_descending|].
      rewrite Hperm. apply NoDup_fmap; [|done].
      intros x y. unfold toInternal. lia. }
    assert (Hin : Forall (fun d => 0 <= d < count tracks) ds).
    { rewrite Forall_forall. intros d Hd.
      rewrite Hperm in Hd. apply list_elem_of_fmap in Hd as (i & -> & Hi).
      rewrite Forall_forall in Hrange. apply Hrange in Hi.
      unfold toInternal. lia. }
    rewrite (attempt_trackBank daw ds tracks Hstrict Hin). cbn [fst snd].
    assert (Hnone : forall i (xs : list Z),
              failures (fun _ x => toUser x) i xs (map (fun _ => None) xs) = []).
    { clear. intros i xs. revert i. induction xs as [|x xs IH]; intros i; simpl; auto. }
    assert (Hall : forall xs : list Z, successes (map (fun _ : Z => None) xs) = count xs).
    { clear. intros xs. unfold successes, count.
      induction xs as [|x xs IH]; simpl; [done|]. lia. }
    eexists. split; [reflexivity|]. simpl. rewrite Hnone, Hall.
    split; [|split; [done|]].
    + unfold count. by rewrite Hperm, length_map.
    + unfold remaining. apply keepFrom_shift. intros j. f_equal.
      apply eq_true_iff_eq. rewrite !among_spec, Hperm.
      rewrite list_elem_of_fmap. unfold toInternal. split.
      * intros (i & -> & Hi). by replace (i - 1 + 1) with i by lia.
      * intros Hi. exists (j + 1). split; [lia|done].
Qed.

Lemma deleteTracks_descending_witness :
  let args := mkArgs None None [] None None None [2; 4; 1] in
  let tracks := ["Drums"; "Bass"; "Keys"; "Lead"; "Pad"] in
  NoDup (arg_trackIndices args) /\
  snd (runFrom tracks (handleBatchDeleteTracks trackBank manager bitwig args))
  = [Sent bitwig (track_delete 3); Sent bitwig (track_delete 1);
     Sent bitwig (track_delete 0)] /\
  stateAfter tracks (handleBatchDeleteTracks trackBank manager bitwig args)
  = ["Keys"; "Pad"].
Proof.
  intros args tracks.
  assert (Hnd : NoDup (arg_trackIndices args)).
  { apply (bool_decide_unpack _). vm_compute. exact I. }
  split; [exact Hnd|].
  destruct (deleteTracks_descending trackBank manager bitwig args tracks)
    as [_ Hbank].
  destruct (Hbank tracks Hnd) as (r & _ & _ & _ & Hleft).
  { repeat constructor; vm_compute; discriminate. }
  split; [reflexivity|]. rewrite Hleft. reflexivity.
Defined.
Lemma resolveDaw_policy_witness :
  resolveDaw scripted manager (Some "ableton") bitwig tt (mkWorld [ok; ok] [])
    = (Returned ableton, tt, mkWorld [ok; ok] []) /\
  resolveDaw scripted manager None bitwig tt (mkWorld [failing "ECONNREFUSED"; ok] [])
    = (Returned ableton, tt,
       mkWorld [] [Sent bitwig project_getInfo; Sent ableton project_getInfo]) /\
  resolveDaw scripted manager (Some "reaper") ableton tt (mkWorld [ok; ok] [])
    = (Returned ableton, tt,
       mkWorld [] [Sent bitwig project_getInfo; Sent ableton project_getInfo]).
Proof.
  split; [|split].
  - exact (proj1 (resolveDaw_policy scripted manager (Some "ableton") bitwig tt
                    (mkWorld [ok; ok] [])) ableton eq_refl).
  - refine (proj2 (resolveDaw_policy scripted manager None bitwig tt
                     (mkWorld [failing "ECONNREFUSED"; ok] [])) _ _); discriminate.
  - refine (proj2 (resolveDaw_policy scripted manager (Some "reaper") ableton tt
                     (mkWorld [ok; ok] [])) _ _); discriminate.
Defined.


Lemma partial_addressing_ignored_witness :
  runFrom [selectionIs (mkSelection 2 5)]
    (resolveClipIndices scripted manager (Some ableton) (Some 7) None)
  = (Returned (2, 5), [Sent ableton clip_getSelection]) /\
  runFrom [selectionIs (mkSelection 2 (-1))]
    (resolveClipIndices scripted manager (Some ableton) (Some 7) None)
  = (Thrown noSlotSelected, [Sent ableton clip_getSelection]).
Proof.
  split.
  - pose proof (partial_addressing_ignored scripted manager (Some ableton)
                  (Some 7) None [selectionIs (mkSelection 2 5)] eq_refl) as (_ & H & _).
    destruct (runFrom _ _) as [r tr]. destruct H as (-> & _ & Hret).
    by rewrite Hret.
  - pose proof (partial_addressing_ignored scripted manager (Some ableton)
                  (Some 7) None [selectionIs (mkSelection 2 (-1))] eq_refl) as (_ & H & _).
    destruct (runFrom _ _) as [r tr]. destruct H as (-> & Hthrow & _).
    rewrite (proj2 Hthrow); [done|]. by right.
Defined.

(** With addressing omitted and nothing selected in the DAW the call
    does not return: it throws, after a query to the backend. *)
Lemma selectClipIfNeeded_omitted_throws :
  runFrom [selectionIs (mkSelection (-1) (-1))]
    (selectClipIfNeeded scripted manager config (Some bitwig) noArgs)
  = (Thrown noSlotSelected, [Sent bitwig clip_getSelection]).
Proof. reflexivity. Qed.

Lemma selectClipIfNeeded_policy_witness :
  runFrom [ok]
    (selectClipIfNeeded scripted manager config (Some bitwig)
       (mkArgs (Some 3) (Some 1) [] None None None []))
  = (Returned tt, [Sent bitwig (clip_select 2 (Some 0)); Slept 100]) /\
  runFrom [selectionIs (mkSelection 4 0)]
    (selectClipIfNeeded scripted manager config (Some bitwig) noArgs)
  = (Returned tt, [Sent bitwig clip_getSelection]).
Proof.
  split.
  - pose proof (selectClipIfNeeded_policy scripted manager config (Some bitwig)
                  (mkArgs (Some 3) (Some 1) [] None None None []) [ok]) as H.
    destruct (runFrom _ _) as [r tr]. simpl in H.
    destruct H as (_ & -> & ->). reflexivity.
  - pose proof (selectClipIfNeeded_policy scripted manager config (Some bitwig)
                  noArgs [selectionIs (mkSelection 4 0)]) as H.
    destruct (runFrom _ _) as [r tr]. simpl in H.
    destruct H as (_ & _ & -> & ->). reflexivity.
Defined.

(** When the expansion command fails, the run ends without a settle
    delay (and without a second query). *)
Lemma autoCreate_failed_expansion_no_delay :
  runFrom [slotsAre (mkEmptySlots [] 0 1 8); failing "Internal error: no scene"]
    (findEmptySlotsWithAutoCreate scripted manager (Some bitwig) 0 (Some 0) 1)
  = (Returned (mkEmptySlots [] 0 1 8, 0),
     [Sent bitwig (clip_findEmptySlots 0 (Some 0) 1);
      Sent bitwig (clip_createScene 1)]).
Proof. reflexivity. Qed.

Lemma autoCreate_one_pass_witness :
  runFrom [slotsAre (mkEmptySlots [7] 1 3 8);
           sceneCreationIs (mkSceneCreation true 2 10);
           slotsAre (mkEmptySlots [7; 8] 2 3 10)]
    (findEmptySlotsWithAutoCreate scripted manager (Some bitwig) 0 (Some 0) 3)
  = (Returned (mkEmptySlots [7; 8] 2 3 10, 2),
     [Sent bitwig (clip_findEmptySlots 0 (Some 0) 3);
      Sent bitwig (clip_createScene 2); Slept 50;
      Sent bitwig (clip_findEmptySlots 0 (Some 0) 3)]).
Proof.
  pose proof (autoCreate_one_pass scripted manager (Some bitwig) 0 (Some 0) 3
                [slotsAre (mkEmptySlots [7] 1 3 8);
                 sceneCreationIs (mkSceneCreation true 2 10);
                 slotsAre (mkEmptySlots [7; 8] 2 3 10)]) as H.
  destruct (runFrom _ _) as [r tr]. simpl in H.
  destruct H as (_ & _ & -> & ->). reflexivity.
Defined.

(** The round trip fails on larger numbers: 2^53 + 1 is not a double, so
    [toUser] leaves 2^53 where it is and [toInternal] then goes one
    down; and from 2^53 + 2, a double as well, [toInternal] and [toUser]
    both end at 2^53. *)
Lemma index_round_trip_fails_from_2_53 :
  Double.representable (2 ^ 53) /\
  Double.toUser (2 ^ 53) = 2 ^ 53 /\
  Double.toInternal (Double.toUser (2 ^ 53)) = 2 ^ 53 - 1 /\
  Double.toInternal (Double.toUser (2 ^ 53)) <> 2 ^ 53 /\
  Double.representable (2 ^ 53 + 2) /\
  Double.toUser (Double.toInternal (2 ^ 53 + 2)) = 2 ^ 53 /\
  Double.toUser (Double.toInternal (2 ^ 53 + 2)) <> 2 ^ 53 + 2.
Proof. repeat split; vm_compute; congruence. Qed.

Lemma index_round_trip_witness :
  let n := 2 ^ 53 - 1 in
  - 2 ^ 53 < n < 2 ^ 53 /\
  Double.toUser (Double.toInternal n) = n /\
  Double.toInternal (Double.toUser n) = n.
Proof.
  intros n. assert (Hn : - 2 ^ 53 < n < 2 ^ 53) by (vm_compute; split; reflexivity).
  destruct (index_round_trip n Hn) as (H1 & H2 & _).
  split; [exact Hn|]. split; [exact H1 | exact H2].
Defined.

End Handlers.


From stdpp Require Import sorting.
From Stdlib Require Lqa.

Open Scope Z_scope.

Module Wire.
Import DAWClient ChannelSpec Framing FramingSpec.

Lemma append_cons x (a b : string) : String x a +:+ b = String x (a +:+ b).
Proof. reflexivity. Qed.

Lemma append_nil (b : string) : "" +:+ b = b.
Proof. reflexivity. Qed.

Lemma append_assoc (a b c : string) : (a +:+ b) +:+ c = a +:+ (b +:+ c).
Proof.
  induction a as [|x a IH]; [done|].
  by rewrite !append_cons, IH.
Qed.

Lemma append_empty (a : string) : a +:+ "" = a.
Proof.
  induction a as [|x a IH]; [done|].
  by rewrite append_cons, IH.
Qed.

Lemma split_nonempty text : split text <> [].
Proof.
  destruct text as [|c rest]; simpl; [done|].
  destruct (Ascii.eqb c newline); [done|].
  by destruct (split rest).
Qed.

Lemma split_partial text : complete text = false -> split text = [text].
Proof.
  induction text as [|c rest IH]; simpl; [done|].
  destruct (Ascii.eqb c newline); simpl; [done|].
  intros H. by rewrite (IH H).
Qed.

Lemma split_pieces text piece : piece ∈ split text -> complete piece = false.
Proof.
  revert piece. induction text as [|c rest IH]; simpl; intros piece.
  - intros ->%list_elem_of_singleton. done.
  - destruct (Ascii.eqb c newline) eqn:Hc.
    + intros [->|H]%elem_of_cons; [done | by apply IH].
    + destruct (split rest) as [|p ps] eqn:Hs.
      { by destruct (split_nonempty rest). }
      intros [->|H]%elem_of_cons.
      * simpl. rewrite Hc. simpl. apply IH. by left.
      * apply IH. by right.
Qed.

Lemma last_elem_of {A} (l : list A) d : l <> [] -> List.last l d ∈ l.
Proof.
  induction l as [|x l IH]; [done|]. intros _.
  destruct l as [|y l]; [by left|].
  right. by apply IH.
Qed.

Lemma split_last_partial text : complete (List.last (split text) "") = false.
Proof. apply (split_pieces text), last_elem_of, split_nonempty. Qed.

Lemma split_app (s t : string) :
  split (s +:+ t)
  = removelast (split s) ++ glue (List.last (split s) "") (split t).
Proof.
  induction s as [|c s IH].
  - rewrite append_nil. simpl.
    destruct (split t) eqn:Ht; [by destruct (split_nonempty t)|done].
  - rewrite append_cons. cbn [split]. destruct (Ascii.eqb c newline).
    + rewrite IH. destruct (split s) as [|p ps] eqn:Hs.
      { by destruct (split_nonempty s). }
      done.
    + rewrite IH. destruct (split s) as [|p ps] eqn:Hs.
      { by destruct (split_nonempty s). }
      destruct ps as [|q ps].
      * simpl. destruct (split t); done.
      * done.
Qed.

Lemma glue_nonempty line pieces : glue line pieces <> [].
Proof. by destruct pieces. Qed.

Section Decoding.

Variable parse : string -> option JsonRpcResponse.

Lemma handleData_app (a b : string) (st : string * World) :
  handleData parse b (handleData parse a st) = handleData parse (a +:+ b) st.
Proof.
  destruct st as [buffer w]. unfold handleData. cbn [fst snd].
  rewrite <- append_assoc.
  rewrite (split_app (buffer +:+ a) b).
  rewrite (split_app (List.last (split (buffer +:+ a)) "") b).
  rewrite (split_partial _ (split_last_partial (buffer +:+ a))).
  cbn [removelast List.last app].
  set (g := glue _ _).
  assert (g <> []) as Hg by apply glue_nonempty.
  f_equal.
  - clear -Hg. induction (removelast (split (buffer +:+ a))) as [|x l IH]; [done|].
    simpl. destruct (l ++ g) eqn:E; [|done].
    by destruct l, g.
  - rewrite removelast_app by done. by rewrite fold_left_app.
Qed.

Lemma handleData_buffer (data : string) (st : string * World) :
  complete (fst (handleData parse data st)) = false.
Proof. unfold handleData. cbn [fst]. apply split_last_partial. Qed.

Lemma handleData_partial (data : string) (st : string * World) :
  complete (fst st +:+ data) = false ->
  handleData parse data st = (fst st +:+ data, snd st).
Proof.
  intros H. unfold handleData. by rewrite (split_partial _ H).
Qed.

Lemma receive_joined (chunks : list string) (st : string * World) :
  complete (fst st) = false ->
  receive parse chunks st = handleData parse (joined chunks) st.
Proof.
  revert st. induction chunks as [|c cs IH]; intros st Hst.
  - simpl. rewrite handleData_partial; rewrite append_empty; [by destruct st|done].
  - cbn [receive fold_left joined foldr].
    fold (receive parse cs (handleData parse c st)).
    rewrite IH by apply handleData_buffer.
    apply handleData_app.
Qed.

Lemma split_line (line : string) :
  complete line = false -> split (line +:+ endOfLine) = [line; ""].
Proof.
  intros H. rewrite split_app, (split_partial _ H).
  change (split endOfLine) with [""; ""].
  cbn [removelast List.last app glue]. by rewrite append_empty.
Qed.

(** X1: two consecutive calls of [handleData], with the texts [a] and
    [b] that the ['data'] listener decoded from two chunks, have the
    effect of one call with the text [a + b], on the buffer and on every
    pending request; and a sequence of such calls has the effect of one
    call with the texts joined. This is about the decoded texts: the
    listener decodes every chunk on its own. *)
Theorem chunking_invariance (a b : string) (chunks : list string)
    (st : string * World) :
  handleData parse b (handleData parse a st) = handleData parse (a +:+ b) st /\
  receive parse (a :: chunks) st = handleData parse (joined (a :: chunks)) st.
Proof.
  split; [apply handleData_app|].
  cbn [receive fold_left joined foldr].
  fold (receive parse chunks (handleData parse a st)).
  rewrite receive_joined by apply handleData_buffer.
  apply handleData_app.
Qed.

(** X2: after every ['data'] event the buffer holds no newline, so no
    complete line is ever left waiting for later data; and data that
    completes no line is only appended to the buffer, no request being
    settled. *)
Theorem buffer_keeps_partial_line (data : string) (st : string * World) :
  complete (fst (handleData parse data st)) = false /\
  (complete (fst st +:+ data) = false ->
   handleData parse data st = (fst st +:+ data, snd st)).
Proof. split; [apply handleData_buffer | apply handleData_partial]. Qed.

(** X3: a response frame followed by a newline settles the caller that
    is pending under its id, with the frame's result or error, however
    the frame is cut into chunks; the entry is removed and the buffer is
    empty again. *)
Theorem split_frame_settles_caller (w : World) (frame : string)
    (r : JsonRpcResponse) (p : nat) (chunks : list string) :
  wf w ->
  complete frame = false ->
  parse frame = Some r ->
  pending w !! resp_id r = Some p ->
  joined chunks = frame +:+ endOfLine ->
  receive parse chunks ("", w) = ("", handleResponse r w) /\
  promises (snd (receive parse chunks ("", w))) !! p = Some (outcome r) /\
  pending (snd (receive parse chunks ("", w))) !! resp_id r = None.
Proof.
  intros Hwf Hframe Hparse Hp Hjoin.
  assert (receive parse chunks ("", w) = ("", handleResponse r w)) as ->.
  { rewrite receive_joined by done. rewrite Hjoin.
    unfold handleData. cbn [fst snd]. rewrite append_nil, (split_line _ Hframe).
    cbn [List.last removelast fold_left]. unfold handleLine. by rewrite Hparse. }
  split; [done|]. cbn [snd].
  destruct (Channel.handleResponse_pending _ _ _ Hwf Hp) as (Hs & Hd & _).
  split; [done|]. rewrite Hd. apply lookup_delete_eq.
Qed.

End Decoding.

Lemma split_frame_settles_caller_witness :
  let w := threeInFlight in
  let chunks := ["{'id':'2','res"; "ult':120}" +:+ endOfLine] in
  wf w /\
  receive twoFrames chunks ("", w)
    = ("", handleResponse (mkResponse "2" (Some (JNum 120)) None) w) /\
  promises (snd (receive twoFrames chunks ("", w))) !! 1%nat
    = Some (Resolved (Some (JNum 120))).
Proof.
  intros w chunks.
  assert (Hwf : wf w) by apply Channel.wf_run, Channel.wf_init.
  split; [exact Hwf|].
  destruct (split_frame_settles_caller twoFrames w "{'id':'2','result':120}"
              (mkResponse "2" (Some (JNum 120)) None) 1%nat chunks Hwf
              eq_refl eq_refl eq_refl eq_refl) as (H1 & H2 & _).
  split; [exact H1 | exact H2].
Defined.

(** *** Correlation ids *)

(** The ids [String(1)], ..., [String(n)]. *)
Lemma idsUpTo_succ (n : nat) :
  idsUpTo (S n) = idsUpTo n ++ [pretty (N.of_nat (S n))].
Proof. unfold idsUpTo. by rewrite seq_S, fmap_app. Qed.

Lemma allocated_drop_and_settle id p o w :
  requests (drop_and_settle id p o w) = requests w /\
  requestId (client (drop_and_settle id p o w)) = requestId (client w).
Proof. done. Qed.

Lemma allocated_fireTimer tm w :
  requests (fireTimer w tm) = requests w /\
  requestId (client (fireTimer w tm)) = requestId (client w).
Proof.
  unfold fireTimer. by destruct (pendingRequests (client w) !! timer_id tm).
Qed.

Lemma allocated_fireTimers l w :
  requests (fold_left fireTimer l w) = requests w /\
  requestId (client (fold_left fireTimer l w)) = requestId (client w).
Proof.
  revert w. induction l as [|tm l IH]; intros w; [done|].
  simpl. destruct (IH (fireTimer w tm)) as [-> ->]. apply allocated_fireTimer.
Qed.

Lemma allocated_register m ps s w :
  (requests w).*1 = idsUpTo (N.to_nat (requestId (client w))) ->
  (requests (register m ps s w)).*1
  = idsUpTo (N.to_nat (requestId (client (register m ps s w)))).
Proof.
  intros H. unfold register, requests. cbn [writeCallbacks client requestId].
  rewrite fmap_app. fold (requests w). rewrite H.
  replace (N.to_nat (requestId (client w) + 1)) with (S (N.to_nat (requestId (client w))))
    by lia.
  rewrite idsUpTo_succ. cbn [fmap list_fmap fst]. do 3 f_equal. lia.
Qed.

Lemma allocated_step e w :
  (requests w).*1 = idsUpTo (N.to_nat (requestId (client w))) ->
  (requests (step w e)).*1 = idsUpTo (N.to_nat (requestId (client (step w e)))).
Proof.
  intros H. destruct e as [m ps cf|r|i err|t|]; cbn [step].
  - unfold send. destruct (liveSocket (client w)).
    + by apply allocated_register.
    + destruct cf; [done | by apply allocated_register].
  - unfold handleResponse. by destruct (pendingRequests (client w) !! resp_id r).
  - unfold writeFailed. by destruct (writeCallbacks w !! i) as [[??]|].
  - unfold advance, requests. cbn [writeCallbacks client].
    destruct (allocated_fireTimers (List.filter (isDue t) (timers w)) w) as [H1 H2].
    unfold requests in H1. by rewrite H1, H2.
  - done.
Qed.

(** X4: on one client the k-th request that is registered carries the
    id [String(k)], whatever happened on the channel in between
    (responses, timeouts, failed writes, closes and reconnections): the
    ids handed out so far are exactly [1], ..., [requestId], in order,
    so no id is ever used twice. *)
Theorem ids_count_up (d : DAWType) (t : N) (es : list Event) :
  (requests (run es (init d t))).*1
    = idsUpTo (N.to_nat (requestId (client (run es (init d t))))) /\
  NoDup (requests (run es (init d t))).*1.
Proof.
  split; [|apply wf_nodup, Channel.wf_run, Channel.wf_init].
  assert (forall w, (requests w).*1 = idsUpTo (N.to_nat (requestId (client w))) ->
            (requests (run es w)).*1
            = idsUpTo (N.to_nat (requestId (client (run es w))))) as Hinv.
  { unfold run. induction es as [|e es IH]; intros w Hw; [exact Hw|].
    simpl. apply IH. by apply allocated_step. }
  by apply Hinv.
Qed.

End Wire.


(** ** Properties of the Bitwig extension *)

Module Remote.
Import Extension ExtensionSpec.

Lemma prefix_append (p rest : string) : String.prefix p (p +:+ rest) = true.
Proof.
  induction p as [|c p IH]; [by destruct rest|].
  rewrite Wire.append_cons. simpl. by destruct (Ascii.ascii_dec c c).
Qed.

Lemma contains_append (needle before after : string) :
  contains needle (before +:+ (needle +:+ after)) = true.
Proof.
  induction before as [|c before IH].
  - rewrite Wire.append_nil.
    pose proof (prefix_append needle after) as H.
    destruct (needle +:+ after); cbn [contains]; by rewrite H.
  - rewrite Wire.append_cons. cbn [contains]. rewrite IH. apply orb_true_r.
Qed.

Lemma unknown_action_text (c : Category) (action : string) :
  contains " action:" ("Unknown " +:+ categoryName c +:+ " action: " +:+ action) = true.
Proof.
  rewrite <- Wire.append_assoc.
  change (" action: " +:+ action) with (" action:" +:+ (" " +:+ action)).
  apply contains_append.
Qed.

Lemma unknown_category_text (category : string) :
  contains "category:" ("Unknown category: " +:+ category) = true.
Proof.
  change ("Unknown category: " +:+ category)
    with ("Unknown " +:+ ("category:" +:+ (" " +:+ category))).
  apply contains_append.
Qed.

Section WithHost.

Context {Host : Type}.
Variable perform : Category -> string -> list (string * Json) -> Host
                   -> (Exception + Json) * Host.

Lemma dispatch_unknown (method : string) params (host : Host) :
  dispatchable method = false ->
  exists text,
    dispatch perform method params host
      = (inl (IllegalArgumentException (Some text)), host) /\
    (contains " action:" text || contains "category:" text
     || startsWith "Invalid method" text) = true.
Proof.
  unfold dispatchable, dispatch. intros H.
  destruct (splitAtDot method) as [[category action]|].
  - destruct (categoryOf category) as [c|].
    + unfold handle.
      destruct c; try discriminate H; rewrite H;
        eexists; (split; [reflexivity|]); by rewrite unknown_action_text.
    + eexists. split; [reflexivity|].
      rewrite unknown_category_text. by rewrite orb_true_r.
  - eexists. split; [reflexivity|]. apply orb_true_r.
Qed.

(** X5: a request whose method the extension cannot route (no dot in
    the name, a category other than project, track, clip, transport and
    ping, or an action the handler of the category has no case for) is
    answered with error -32601 and the message [Method not found: ]
    followed by the method, under the id of the request; nothing is done
    to the DAW. *)
Theorem unknown_method_not_found (request : gmap string Json)
    (method : string) (host : Host) :
  request !! "method" = Some (JStr method) ->
  is_Some (paramsOf request) ->
  dispatchable method = false ->
  processRequest perform request host
  = (Some (mkResponse "2.0" (request !! "id") None
             (Some (mkRpcError (-32601) ("Method not found: " +:+ method)))),
     host).
Proof.
  intros Hm [params Hp] Hd. unfold processRequest.
  rewrite Hm. cbn [getAsString]. rewrite Hp.
  destruct (dispatch_unknown method params host Hd) as (text & -> & ->).
  done.
Qed.

(** X6: every request whose [method] is a string (or missing) and
    whose [params] is an object (or missing) gets a response; it is
    tagged [jsonrpc 2.0], carries the id of the request exactly when the
    request has one, and holds either a result or an error with one of
    the four codes, never both; a request without [method] gets error
    -32600 and does nothing to the DAW. *)
Theorem response_envelope (request : gmap string Json) (host : Host) :
  wellFormed request = true ->
  exists response,
    fst (processRequest perform request host) = Some response /\
    jsonrpc response = "2.0" /\
    id response = request !! "id" /\
    ((is_Some (result response) /\ error response = None) \/
     (result response = None /\
      exists e, error response = Some e /\ code e ∈ errorCodes)) /\
    (request !! "method" = None ->
     processRequest perform request host
     = (Some (mkResponse "2.0" (request !! "id") None
                (Some (mkRpcError (-32600) "Invalid Request: missing method"))),
        host)).
Proof.
  unfold wellFormed, processRequest, paramsOf. intros H.
  destruct (request !! "method") as [member|] eqn:Hm.
  - destruct member; try discriminate H. cbn [getAsString].
    destruct (request !! "params") as [ps|] eqn:Hp.
    + destruct ps; try discriminate H.
      destruct (dispatch perform s fields host) as [[e|r] host'].
      * destruct e as [[t|]|m].
        -- destruct (contains " action:" t || contains "category:" t
                     || startsWith "Invalid method" t);
             eexists; (split; [reflexivity|]); repeat split; try done;
             right; (split; [done|]); eexists; (split; [reflexivity|]);
             unfold errorCodes; set_solver.
        -- eexists; (split; [reflexivity|]); repeat split; try done.
           right; (split; [done|]); eexists; (split; [reflexivity|]).
           unfold errorCodes. set_solver.
        -- eexists; (split; [reflexivity|]); repeat split; try done.
           right; (split; [done|]); eexists; (split; [reflexivity|]).
           unfold errorCodes. set_solver.
      * eexists; (split; [reflexivity|]); repeat split; try done.
        left. split; [by eexists | done].
    + destruct (dispatch perform s [] host) as [[e|r] host'].
      * destruct e as [[t|]|m].
        -- destruct (contains " action:" t || contains "category:" t
                     || startsWith "Invalid method" t);
             eexists; (split; [reflexivity|]); repeat split; try done;
             right; (split; [done|]); eexists; (split; [reflexivity|]);
             unfold errorCodes; set_solver.
        -- eexists; (split; [reflexivity|]); repeat split; try done.
           right; (split; [done|]); eexists; (split; [reflexivity|]).
           unfold errorCodes. set_solver.
        -- eexists; (split; [reflexivity|]); repeat split; try done.
           right; (split; [done|]); eexists; (split; [reflexivity|]).
           unfold errorCodes. set_solver.
      * eexists; (split; [reflexivity|]); repeat split; try done.
        left. split; [by eexists | done].
  - eexists; (split; [reflexivity|]); repeat split; try done.
    right; (split; [done|]); eexists; (split; [reflexivity|]).
    unfold errorCodes. set_solver.
Qed.

End WithHost.

(** *** ClipHandler.java *)

Lemma scan_spec (hasContent : Z -> bool) (count : Z) (slots acc : list Z) :
  scan hasContent count slots acc
  = acc ++ take (Z.to_nat count - length acc)
             (List.filter (isEmpty hasContent) slots).
Proof.
  revert acc. induction slots as [|i rest IH]; intros acc.
  - simpl. by rewrite take_nil, app_nil_r.
  - cbn [scan List.filter]. unfold isEmpty at 1.
    destruct (Z.of_nat (length acc) <? count) eqn:Hlt.
    + apply Z.ltb_lt in Hlt. rewrite IH. destruct (hasContent i); cbn [negb].
      * done.
      * rewrite length_app. cbn [length].
        replace (Z.to_nat count - length acc)%nat
          with (S (Z.to_nat count - (length acc + 1)))%nat by lia.
        cbn [take]. by rewrite <- app_assoc.
    + apply Z.ltb_ge in Hlt.
      replace (Z.to_nat count - length acc)%nat with 0%nat by lia.
      by rewrite take_0, app_nil_r.
Qed.

Lemma sorted_seqZ (m n : Z) : StronglySorted Z.lt (seqZ m n).
Proof.
  remember (Z.to_nat n) as k eqn:Hk. revert m n Hk.
  induction k as [|k IH]; intros m n Hk.
  - rewrite seqZ_nil by lia. constructor.
  - rewrite seqZ_cons by lia. constructor.
    + apply IH. lia.
    + apply Forall_forall. intros x Hx. apply elem_of_seqZ in Hx. lia.
Qed.

Lemma sorted_filter {A} (R : A -> A -> Prop) (f : A -> bool) (l : list A) :
  StronglySorted R l -> StronglySorted R (List.filter f l).
Proof.
  induction 1 as [|a l Hs IH Ha]; [constructor|].
  simpl. destruct (f a); [|done]. constructor; [done|].
  apply Forall_forall. intros x Hx.
  apply list_elem_of_In, filter_In in Hx as [Hx _].
  rewrite Forall_forall in Ha. by apply Ha, list_elem_of_In.
Qed.

Lemma sorted_take {A} (R : A -> A -> Prop) (n : nat) (l : list A) :
  StronglySorted R l -> StronglySorted R (take n l).
Proof.
  intros H. rewrite <- (take_drop n l) in H.
  by apply StronglySorted_app_1_l in H.
Qed.

(** X7: when the track exists, [findEmptySlots] returns the first
    [count] empty slots at or after [startSlot] below the scene count of
    the project, in ascending order: every slot it returns is empty and in
    range, no empty slot is skipped before one that is returned, and when
    fewer than [count] are found every empty slot of the range is among
    them; [found] is their number and never exceeds [count]. *)
Theorem findEmptySlots_leftmost (hasContent : Z -> bool)
    (sceneCount trackIndex startSlot count : Z) :
  exists r,
    findEmptySlots true hasContent sceneCount trackIndex startSlot count = inr r /\
    es_trackIndex r = trackIndex /\ requested r = count /\
    Extension.sceneCount r = sceneCount /\
    found r = Z.of_nat (length (emptySlots r)) /\
    found r <= Z.max 0 count /\
    StronglySorted Z.lt (emptySlots r) /\
    (forall i, i ∈ emptySlots r ->
       startSlot <= i < sceneCount /\ hasContent i = false) /\
    (forall i j, j ∈ emptySlots r -> startSlot <= i < j ->
       hasContent i = false -> i ∈ emptySlots r) /\
    (found r < count -> forall i, startSlot <= i < sceneCount ->
       hasContent i = false -> i ∈ emptySlots r).
Proof.
  unfold findEmptySlots. cbn [negb]. eexists. split; [reflexivity|].
  cbn [es_trackIndex requested Extension.sceneCount found emptySlots].
  rewrite scan_spec. cbn [app length]. rewrite Nat.sub_0_r.
  set (range := seqZ startSlot (sceneCount - startSlot)).
  set (empties := List.filter (isEmpty hasContent) range).
  assert (Hsorted : StronglySorted Z.lt empties)
    by apply sorted_filter, sorted_seqZ.
  assert (Hin : forall i, i ∈ empties <->
                  startSlot <= i < sceneCount /\ hasContent i = false).
  { intros i. unfold empties, range, isEmpty.
    rewrite list_elem_of_In, filter_In, <- list_elem_of_In, elem_of_seqZ.
    rewrite negb_true_iff. split; intros [H1 H2]; (split; [lia|done]). }
  assert (Hsub : forall i, i ∈ take (Z.to_nat count) empties -> i ∈ empties).
  { intros i (k & Hk & _)%elem_of_take. by eapply list_elem_of_lookup_2. }
  split; [done|]. split; [done|]. split; [done|]. split; [done|].
  split; [rewrite length_take; lia|].
  split; [by apply sorted_take|].
  split; [intros i Hi; by apply Hin, Hsub|].
  split.
  - intros i j Hj Hij Hi.
    assert (i ∈ empties) as Hi'.
    { apply Hin. apply Hsub, Hin in Hj. split; [lia|done]. }
    rewrite <- (take_drop (Z.to_nat count) empties) in Hi', Hsorted.
    apply elem_of_app in Hi' as [Hi'|Hi']; [done|].
    pose proof (StronglySorted_app_1_elem_of _ _ _ _ _ Hsorted Hj Hi'). lia.
  - intros Hfew i Hi Hc. rewrite length_take in Hfew.
    rewrite take_ge by lia. by apply Hin.
Qed.

Lemma midiNoteToName_table :
  forallb (fun a => forallb (fun b => implb (sameName a b) (a =? b)) midiNotes)
          midiNotes = true.
Proof. vm_compute. reflexivity. Qed.

Lemma midiNoteToName_named :
  forallb (fun a => sameName a a) midiNotes = true.
Proof. vm_compute. reflexivity. Qed.

(** X8: [midiNoteToName] names every MIDI note (0 to 127), and no two
    of them alike: the name tells the pitch. *)
Theorem midiNoteToName_injective (a b : Z) :
  0 <= a <= 127 -> 0 <= b <= 127 ->
  is_Some (midiNoteToName a) /\
  (midiNoteToName a = midiNoteToName b -> a = b).
Proof.
  intros Ha Hb.
  assert (In a midiNotes) as Ia by (apply list_elem_of_In, elem_of_seqZ; lia).
  assert (In b midiNotes) as Ib by (apply list_elem_of_In, elem_of_seqZ; lia).
  pose proof midiNoteToName_named as Hn.
  rewrite forallb_forall in Hn. specialize (Hn a Ia).
  pose proof midiNoteToName_table as H.
  rewrite forallb_forall in H. specialize (H a Ia).
  rewrite forallb_forall in H. specialize (H b Ib).
  unfold sameName in *.
  destruct (midiNoteToName a) as [x|]; [|discriminate Hn].
  split; [by eexists|]. intros E. rewrite <- E, String.eqb_refl in H.
  simpl in H. by apply Z.eqb_eq.
Qed.

Lemma midiNoteToName_injective_witness :
  midiNoteToName 60 = Some "C3" /\
  (midiNoteToName 60 = midiNoteToName 61 -> 60 = 61).
Proof.
  split; [reflexivity|].
  exact (proj2 (midiNoteToName_injective 60 61 ltac:(lia) ltac:(lia))).
Defined.

Lemma unknown_method_not_found_witness :
  let request : gmap string Json :=
    <["id" := JNum 7]> (<["method" := JStr "ping"]> ∅) in
  processRequest counting request 0%nat
  = (Some (mkResponse "2.0" (Some (JNum 7)) None
             (Some (mkRpcError (-32601) "Method not found: ping"))), 0%nat).
Proof.
  intros request.
  exact (unknown_method_not_found counting request "ping" 0%nat
           eq_refl (ex_intro _ [] eq_refl) eq_refl).
Defined.

Lemma response_envelope_witness :
  let request : gmap string Json :=
    <["id" := JStr "12"]>
      (<["method" := JStr "track.delete"]>
         (<["params" := JObj [("index", JNum 7)]]> ∅)) in
  wellFormed request = true /\
  exists response,
    fst (processRequest counting request 0%nat) = Some response /\
    jsonrpc response = "2.0" /\
    id response = Some (JStr "12").
Proof.
  intros request. split; [reflexivity|].
  destruct (response_envelope counting request 0%nat eq_refl)
    as (response & H1 & H2 & H3 & _).
  exists response. split; [exact H1|]. split; [exact H2|]. exact H3.
Defined.

End Remote.


(** ** Properties of the note helpers *)

Module Score.
Import QArith_base Qround Lqa Notes NotesSpec.
Local Open Scope Z_scope.

Lemma filter_none {A} (f : A -> bool) (l : list A) :
  (forall z, In z l -> f z = false) -> List.filter f l = [].
Proof.
  induction l as [|a l IH]; [done|]. intros H. simpl.
  rewrite (H a) by (by left). apply IH. intros z Hz. apply H. by right.
Qed.

Section Sorting.

Context {A : Type} (compare : A -> A -> Q).

Hypothesis total : forall a b, notAfter compare a b \/ notAfter compare b a.
Hypothesis trans : forall a b c,
  notAfter compare a b -> notAfter compare b c -> notAfter compare a c.

Lemma insertWith_perm (item : A) (sorted : list A) :
  insertWith compare item sorted ≡ₚ item :: sorted.
Proof.
  induction sorted as [|other rest IH]; [done|].
  simpl. destruct (Qle_bool (compare other item) 0); [|done].
  rewrite IH. apply Permutation_swap.
Qed.

Lemma sortWith_fold_perm (items acc : list A) :
  fold_left (fun sorted item => insertWith compare item sorted) items acc
  ≡ₚ acc ++ items.
Proof.
  revert acc. induction items as [|item items IH]; intros acc.
  - by rewrite app_nil_r.
  - simpl. rewrite IH, insertWith_perm.
    by rewrite (Permutation_middle acc items item).
Qed.

Lemma sortWith_perm (items : list A) : sortWith compare items ≡ₚ items.
Proof. unfold sortWith. by rewrite sortWith_fold_perm. Qed.

Lemma insertWith_sorted (item : A) (sorted : list A) :
  StronglySorted (notAfter compare) sorted ->
  StronglySorted (notAfter compare) (insertWith compare item sorted).
Proof.
  induction 1 as [|other rest Hs IH Hall]; [repeat constructor|].
  simpl. destruct (Qle_bool (compare other item) 0) eqn:E.
  - constructor; [done|].
    apply Forall_forall. intros z Hz.
    rewrite insertWith_perm in Hz. apply elem_of_cons in Hz as [->|Hz]; [done|].
    rewrite Forall_forall in Hall. by apply Hall.
  - assert (notAfter compare item other) as Hio.
    { destruct (total item other) as [H|H]; [done|].
      unfold notAfter in H. congruence. }
    constructor; [by constructor|].
    constructor; [done|].
    apply Forall_forall. intros z Hz. apply (trans _ other); [done|].
    rewrite Forall_forall in Hall. by apply Hall.
Qed.

Lemma sortWith_fold_sorted (items acc : list A) :
  StronglySorted (notAfter compare) acc ->
  StronglySorted (notAfter compare)
    (fold_left (fun sorted item => insertWith compare item sorted) items acc).
Proof.
  revert acc. induction items as [|item items IH]; intros acc Hacc; [done|].
  simpl. by apply IH, insertWith_sorted.
Qed.

Lemma sortWith_sorted (items : list A) :
  StronglySorted (notAfter compare) (sortWith compare items).
Proof. apply sortWith_fold_sorted. constructor. Qed.

Lemma tied_spec k a :
  tied compare k a = true <-> notAfter compare k a /\ notAfter compare a k.
Proof. unfold tied, notAfter. by rewrite andb_true_iff. Qed.

Lemma tied_after_greater k item other :
  tied compare k item = true -> notAfter compare item other ->
  Qle_bool (compare other item) 0 = false -> tied compare k other = false.
Proof.
  intros [Hki Hik]%tied_spec Hio Hoi.
  destruct (tied compare k other) eqn:E; [|done].
  apply tied_spec in E as [Hko Hok].
  assert (notAfter compare other item) as H by (by apply (trans _ k)).
  unfold notAfter in H. congruence.
Qed.

Lemma insertWith_tied (k item : A) (sorted : list A) :
  StronglySorted (notAfter compare) sorted ->
  List.filter (tied compare k) (insertWith compare item sorted)
  = List.filter (tied compare k) sorted
    ++ (if tied compare k item then [item] else []).
Proof.
  induction 1 as [|other rest Hs IH Hall].
  { simpl. by destruct (tied compare k item). }
  cbn [insertWith]. destruct (Qle_bool (compare other item) 0) eqn:E.
  - cbn [List.filter]. rewrite IH. by destruct (tied compare k other).
  - assert (notAfter compare item other) as Hio.
    { destruct (total item other) as [H|H]; [done|].
      unfold notAfter in H. congruence. }
    cbn [List.filter]. destruct (tied compare k item) eqn:Hk.
    + rewrite (tied_after_greater k item other Hk Hio E).
      assert (List.filter (tied compare k) rest = []) as ->; [|done].
      apply filter_none. intros z Hz.
      rewrite Forall_forall in Hall.
      apply (tied_after_greater k item z Hk).
      * apply (trans _ other); [done|]. by apply Hall, list_elem_of_In.
      * destruct (Qle_bool (compare z item) 0) eqn:Ez; [|done].
        assert (notAfter compare other item) as H.
        { apply (trans _ z); [by apply Hall, list_elem_of_In | done]. }
        unfold notAfter in H. congruence.
    + by rewrite app_nil_r.
Qed.

Lemma sortWith_fold_tied (k : A) (items acc : list A) :
  StronglySorted (notAfter compare) acc ->
  List.filter (tied compare k)
    (fold_left (fun sorted item => insertWith compare item sorted) items acc)
  = List.filter (tied compare k) acc ++ List.filter (tied compare k) items.
Proof.
  revert acc. induction items as [|item items IH]; intros acc Hacc.
  - by rewrite app_nil_r.
  - cbn [fold_left]. rewrite IH by (by apply insertWith_sorted).
    rewrite insertWith_tied by done. cbn [List.filter].
    rewrite <- app_assoc. by destruct (tied compare k item).
Qed.

Lemma sortWith_stable (k : A) (items : list A) :
  List.filter (tied compare k) (sortWith compare items)
  = List.filter (tied compare k) items.
Proof. unfold sortWith. rewrite sortWith_fold_tied; [done | constructor]. Qed.

End Sorting.

Lemma notAfter_inOrder (a b : Note) :
  notAfter byTimeThenPitch a b <-> inOrder a b.
Proof.
  unfold notAfter, byTimeThenPitch, inOrder. cbv zeta.
  destruct (Qeq_bool (x a - x b) 0) eqn:E.
  - apply Qeq_bool_eq in E. rewrite Qle_bool_iff.
    assert ((inject_Z (y a - y b) <= 0)%Q <-> y a <= y b) as ->.
    { unfold Qle. simpl. lia. }
    split.
    + intros H. right. split; [lra | done].
    + intros [H|[_ H]]; [lra | done].
  - apply Qeq_bool_neq in E. rewrite Qle_bool_iff. split.
    + intros H. left. lra.
    + intros [H|[H _]]; lra.
Qed.

Lemma inOrder_total (a b : Note) : inOrder a b \/ inOrder b a.
Proof.
  unfold inOrder.
  destruct (Qlt_le_dec (x a) (x b)) as [H|H]; [by left; left|].
  destruct (Qlt_le_dec (x b) (x a)) as [H'|H']; [by right; left|].
  assert (x a == x b)%Q as E by lra.
  destruct (Z_le_gt_dec (y a) (y b)).
  - left. by right.
  - right. right. split; [lra | lia].
Qed.

Lemma inOrder_trans (a b c : Note) : inOrder a b -> inOrder b c -> inOrder a c.
Proof.
  unfold inOrder. intros [H1|[H1 H1']] [H2|[H2 H2']].
  - left. lra.
  - left. lra.
  - left. lra.
  - right. split; [lra | lia].
Qed.

Lemma tied_sameKey (k a : Note) : tied byTimeThenPitch k a = sameKey k a.
Proof.
  apply eq_true_iff_eq. rewrite tied_spec, !notAfter_inOrder.
  unfold sameKey, inOrder. rewrite andb_true_iff, Qeq_bool_iff, Z.eqb_eq.
  split.
  - intros [[H1|[H1 H1']] [H2|[H2 H2']]]; try lra. split; [lra | lia].
  - intros [H1 H2]. split; right; (split; [lra | lia]).
Qed.

(** X9: [sortNotes] returns the notes it is given, each as often as it
    occurs, ordered by start and, among notes that start together, by
    pitch; notes that agree in both keep the order they came in. *)
Theorem sortNotes_sorted (notes : list Note) :
  sortNotes notes ≡ₚ notes /\
  StronglySorted inOrder (sortNotes notes) /\
  (forall k, List.filter (sameKey k) (sortNotes notes)
             = List.filter (sameKey k) notes).
Proof.
  assert (Htotal : forall a b, notAfter byTimeThenPitch a b
                               \/ notAfter byTimeThenPitch b a).
  { intros a b. rewrite !notAfter_inOrder. apply inOrder_total. }
  assert (Htrans : forall a b c, notAfter byTimeThenPitch a b ->
                     notAfter byTimeThenPitch b c -> notAfter byTimeThenPitch a c).
  { intros a b c. rewrite !notAfter_inOrder. apply inOrder_trans. }
  split; [apply sortWith_perm|]. split.
  - pose proof (sortWith_sorted byTimeThenPitch Htotal Htrans notes) as H.
    unfold sortNotes. induction H as [|a l Hs IH Hall]; constructor; [done|].
    eapply Forall_impl; [exact Hall|]. intros z. apply notAfter_inOrder.
  - intros k.
    pose proof (sortWith_stable byTimeThenPitch Htotal Htrans k notes) as H.
    unfold sortNotes.
    rewrite <- (filter_ext (tied byTimeThenPitch k) _ (tied_sameKey k)).
    rewrite H. apply filter_ext, tied_sameKey.
Qed.

(** *** Pitches *)

Lemma minimum_le (first : Z) (rest : list Z) :
  minimum first rest <= first /\ (forall v, v ∈ rest -> minimum first rest <= v) /\
  (minimum first rest = first \/ minimum first rest ∈ rest).
Proof.
  unfold minimum. revert first. induction rest as [|v rest IH]; intros first.
  - simpl. split; [lia|]. split; [intros v Hv; by apply elem_of_nil in Hv | by left].
  - simpl. destruct (IH (Z.min first v)) as (H1 & H2 & H3).
    split; [lia|]. split.
    + intros w [->|Hw]%elem_of_cons; [lia | by apply H2].
    + destruct H3 as [H3|H3].
      * destruct (Z.min_spec first v) as [[_ E]|[_ E]].
        -- left. congruence.
        -- right. rewrite H3, E. by left.
      * right. by right.
Qed.

Lemma maximum_ge (first : Z) (rest : list Z) :
  first <= maximum first rest /\ (forall v, v ∈ rest -> v <= maximum first rest) /\
  (maximum first rest = first \/ maximum first rest ∈ rest).
Proof.
  unfold maximum. revert first. induction rest as [|v rest IH]; intros first.
  - simpl. split; [lia|]. split; [intros v Hv; by apply elem_of_nil in Hv | by left].
  - simpl. destruct (IH (Z.max first v)) as (H1 & H2 & H3).
    split; [lia|]. split.
    + intros w [->|Hw]%elem_of_cons; [lia | by apply H2].
    + destruct H3 as [H3|H3].
      * destruct (Z.max_spec first v) as [[_ E]|[_ E]].
        -- right. rewrite H3, E. by left.
        -- left. congruence.
      * right. by right.
Qed.

Lemma seen_spec (v : Z) (seen : list Z) : existsb (Z.eqb v) seen = true <-> v ∈ seen.
Proof.
  rewrite existsb_exists. split.
  - intros (w & Hw & ->%Z.eqb_eq). by apply list_elem_of_In.
  - intros H. exists v. split; [by apply list_elem_of_In | apply Z.eqb_refl].
Qed.

Lemma distinct_spec (seen values : list Z) :
  NoDup (distinct seen values) /\
  (forall v, v ∈ distinct seen values <-> v ∈ values /\ v ∉ seen).
Proof.
  revert seen. induction values as [|w rest IH]; intros seen.
  - simpl. split; [constructor|]. intros v. split; [by intros H%elem_of_nil|].
    by intros [H%elem_of_nil _].
  - cbn [distinct]. destruct (existsb (Z.eqb w) seen) eqn:E.
    + apply seen_spec in E. destruct (IH seen) as [H1 H2]. split; [done|].
      intros v. rewrite H2, elem_of_cons. split; [intros [??]; by split; [right|]|].
      intros [[->|H] Hn]; [done | by split].
    + assert (w ∉ seen) as Hw.
      { intros H%seen_spec. congruence. }
      destruct (IH (seen ++ [w])) as [H1 H2]. split.
      * constructor; [|done]. rewrite H2. intros [_ H]. apply H, elem_of_app.
        right. by left.
      * intros v. rewrite !elem_of_cons, H2, elem_of_app, list_elem_of_singleton.
        split.
        -- intros [->|[H Hn]]; [by split; [left|] | split; [by right | tauto]].
        -- intros [[->|H] Hn]; [by left|].
           destruct (decide (v = w)) as [->|Hne]; [by left|].
           right. split; [done | tauto].
Qed.

Lemma insertBy_ascending_perm (v : Z) (l : list Z) :
  Bridge.insertBy (fun a b => a - b) v l ≡ₚ v :: l.
Proof.
  induction l as [|w l IH]; simpl; [done|].
  destruct (w - v <=? 0); [|done].
  rewrite IH. apply Permutation_swap.
Qed.

Lemma insertBy_ascending (v : Z) (l : list Z) :
  StronglySorted Z.le l ->
  StronglySorted Z.le (Bridge.insertBy (fun a b => a - b) v l).
Proof.
  induction 1 as [|w l Hs IH Hw]; simpl.
  - repeat constructor.
  - destruct (Z.leb_spec (w - v) 0) as [Hle|Hgt].
    + constructor; [done|].
      rewrite (insertBy_ascending_perm v l).
      constructor; [lia|done].
    + constructor; [by constructor|].
      constructor; [lia|].
      eapply Forall_impl; [exact Hw|]. intros z Hz. simpl in Hz. lia.
Qed.

Lemma sort_ascending (values : list Z) :
  StronglySorted Z.le (Bridge.sort (fun a b => a - b) values) /\
  Bridge.sort (fun a b => a - b) values ≡ₚ values.
Proof.
  unfold Bridge.sort.
  assert (H : forall acc, StronglySorted Z.le acc ->
    StronglySorted Z.le
      (fold_left (fun sorted v => Bridge.insertBy (fun a b => a - b) v sorted)
                 values acc) /\
    fold_left (fun sorted v => Bridge.insertBy (fun a b => a - b) v sorted)
              values acc ≡ₚ acc ++ values).
  { induction values as [|v values IH]; intros acc Hacc; simpl.
    - split; [done | by rewrite app_nil_r].
    - destruct (IH _ (insertBy_ascending v acc Hacc)) as [H1 H2].
      split; [done|]. rewrite H2, insertBy_ascending_perm.
      by rewrite (Permutation_middle acc values v). }
  destruct (H [] (SSorted_nil _)) as [H1 H2]. by split.
Qed.

Lemma sorted_strict (l : list Z) :
  StronglySorted Z.le l -> NoDup l -> StronglySorted Z.lt l.
Proof.
  induction 1 as [|v l Hs IH Hv]; intros Hnd; [constructor|].
  apply NoDup_cons in Hnd as [Hn Hnd]. constructor; [by apply IH|].
  apply Forall_forall. intros w Hw. rewrite Forall_forall in Hv.
  specialize (Hv w Hw). simpl in Hv.
  assert (v <> w) by (intros ->; done). lia.
Qed.

(** X10: [computeClipStats] gives a clip without notes no pitch range
    and no pitch class. Given notes, it throws a [RangeError] only when
    there are more of them than the engine lets a call spread; otherwise
    it reports as [pitchRange] the lowest and the highest pitch played
    and their distance, and as [pitchClasses] the remainders modulo 12
    of the pitches played, each once, in ascending order; for MIDI
    pitches these lie between 0 and 11. *)
Theorem pitch_statistics (spreadLimit : nat) (notes : list Note) :
  (pitchRange spreadLimit notes = None <->
     notes <> [] /\ (spreadLimit < length notes)%nat) /\
  (pitchRange spreadLimit notes = Some None <-> notes = []) /\
  (forall r, pitchRange spreadLimit notes = Some (Some r) ->
     span r = max r - min r /\ 0 <= span r /\
     (forall n, n ∈ notes -> min r <= y n <= max r) /\
     (exists n, n ∈ notes /\ y n = min r) /\
     (exists n, n ∈ notes /\ y n = max r) /\
     StronglySorted Z.lt (pitchClasses notes) /\
     (forall c, c ∈ pitchClasses notes <->
        exists n, n ∈ notes /\ c = Z.rem (y n) 12) /\
     ((forall n, n ∈ notes -> 0 <= y n) ->
      forall c, c ∈ pitchClasses notes -> 0 <= c < 12)) /\
  (notes = [] -> pitchClasses notes = []).
Proof.
  assert (Hclass : forall c, c ∈ pitchClasses notes <->
                     exists n, n ∈ notes /\ c = Z.rem (y n) 12).
  { intros c. unfold pitchClasses.
    rewrite (proj2 (sort_ascending _)).
    rewrite (proj2 (distinct_spec [] _)).
    split.
    - intros [H _]. apply list_elem_of_In, in_map_iff in H as (p & <- & Hp).
      apply in_map_iff in Hp as (n & <- & Hn). exists n. split; [|done].
      by apply list_elem_of_In.
    - intros (n & Hn & ->). split; [|by intros H%elem_of_nil].
      apply list_elem_of_In, in_map_iff. exists (y n). split; [done|].
      apply in_map_iff. exists n. split; [done | by apply list_elem_of_In]. }
  split; [|split; [|split]].
  - unfold pitchRange. destruct notes as [|first rest]; cbn [map].
    + split; [done | by intros [? _]].
    + destruct (Nat.ltb_spec spreadLimit (length (first :: rest))).
      * by split.
      * split; [done | intros [_ ?]; lia].
  - unfold pitchRange. destruct notes as [|first rest]; cbn [map]; [done|].
    by destruct (spreadLimit <? length (first :: rest))%nat.
  - intros r. unfold pitchRange. destruct notes as [|first rest]; [done|].
    cbn [map]. destruct (spreadLimit <? length (first :: rest))%nat; [done|].
    intros [= <-]. cbn [span min max].
    destruct (minimum_le (y first) (map y rest)) as (L1 & L2 & L3).
    destruct (maximum_ge (y first) (map y rest)) as (G1 & G2 & G3).
    split; [done|]. split; [lia|]. split; [|split; [|split; [|split; [|split]]]].
    + intros n [->|Hn]%elem_of_cons; [lia|].
      assert (y n ∈ map y rest) as Hy.
      { apply list_elem_of_In, in_map. by apply list_elem_of_In. }
      specialize (L2 _ Hy). specialize (G2 _ Hy). lia.
    + destruct L3 as [L3|L3].
      * exists first. split; [by left | done].
      * apply list_elem_of_In, in_map_iff in L3 as (n & Hn & Hin).
        exists n. split; [right; by apply list_elem_of_In | done].
    + destruct G3 as [G3|G3].
      * exists first. split; [by left | done].
      * apply list_elem_of_In, in_map_iff in G3 as (n & Hn & Hin).
        exists n. split; [right; by apply list_elem_of_In | done].
    + unfold pitchClasses. apply sorted_strict; [apply sort_ascending|].
      rewrite (proj2 (sort_ascending _)). apply distinct_spec.
    + exact Hclass.
    + intros Hpos c (n & Hn & ->)%Hclass. specialize (Hpos n Hn).
      pose proof (Z.rem_bound_pos (y n) 12 Hpos ltac:(lia)). lia.
  - by intros ->.
Qed.

(** *** The beat grid *)

Lemma markBeat_length gridSize grid note :
  length (markBeat gridSize grid note) = length grid.
Proof.
  unfold markBeat.
  destruct ((0 <=? Qfloor (x note)) && (Qfloor (x note) <? gridSize)); [|done].
  apply length_insert.
Qed.

Lemma markBeat_lookup gridSize grid note (i : nat) :
  length grid = Z.to_nat gridSize -> (i < length grid)%nat ->
  markBeat gridSize grid note !! i
  = if startsIn i note then Some 1 else grid !! i.
Proof.
  intros Hlen Hi. unfold markBeat, startsIn.
  destruct (Z.eqb_spec (Qfloor (x note)) (Z.of_nat i)) as [E|E].
  - rewrite E.
    replace ((0 <=? Z.of_nat i) && (Z.of_nat i <? gridSize)) with true
      by (symmetry; apply andb_true_iff; split; [apply Z.leb_le | apply Z.ltb_lt]; lia).
    rewrite Nat2Z.id. by apply list_lookup_insert_eq.
  - destruct ((0 <=? Qfloor (x note)) && (Qfloor (x note) <? gridSize)) eqn:B; [|done].
    apply andb_true_iff in B as [B1%Z.leb_le B2%Z.ltb_lt].
    apply list_lookup_insert_ne. lia.
Qed.

Lemma markBeats_length gridSize notes grid :
  length (fold_left (markBeat gridSize) notes grid) = length grid.
Proof.
  revert grid. induction notes as [|note notes IH]; intros grid; [done|].
  simpl. by rewrite IH, markBeat_length.
Qed.

Lemma markBeats_lookup gridSize notes grid (i : nat) :
  length grid = Z.to_nat gridSize -> (i < length grid)%nat ->
  fold_left (markBeat gridSize) notes grid !! i
  = if existsb (startsIn i) notes then Some 1 else grid !! i.
Proof.
  revert grid. induction notes as [|note notes IH]; intros grid Hlen Hi; [done|].
  cbn [fold_left existsb].
  rewrite IH by (by rewrite markBeat_length).
  rewrite markBeat_lookup by done.
  destruct (startsIn i note); simpl; [|done].
  by destruct (existsb (startsIn i) notes).
Qed.

(** X11: [computeClipStats] lays out one cell per started beat of the
    clip, and a cell holds 1 exactly when a note starts within that beat
    and 0 otherwise; notes that start before the clip or behind its end
    mark nothing. *)
Theorem beatGrid_marks (notes : list Note) (clipLengthBeats : Q) :
  0 <= Qceiling clipLengthBeats <= 4294967295 ->
  exists grid,
    beatGrid notes clipLengthBeats = Some grid /\
    length grid = Z.to_nat (Qceiling clipLengthBeats) /\
    forall i, (i < length grid)%nat ->
      grid !! i = Some (if existsb (startsIn i) notes then 1 else 0).
Proof.
  intros Hsize. unfold beatGrid. cbv zeta.
  replace ((Qceiling clipLengthBeats <? 0) || (4294967295 <? Qceiling clipLengthBeats))
    with false
    by (symmetry; apply orb_false_iff; split; apply Z.ltb_ge; lia).
  eexists. split; [reflexivity|].
  set (gridSize := Qceiling clipLengthBeats) in *.
  set (blank := replicate (Z.to_nat gridSize) 0).
  assert (length blank = Z.to_nat gridSize) as Hblank by apply length_replicate.
  split; [by rewrite markBeats_length|].
  intros i Hi. rewrite markBeats_length in Hi.
  rewrite (markBeats_lookup gridSize notes blank i Hblank Hi).
  destruct (existsb (startsIn i) notes); [done|].
  unfold blank. apply lookup_replicate_2. by rewrite <- Hblank.
Qed.

Lemma beatGrid_marks_witness :
  0 <= Qceiling (7 # 2) <= 4294967295 /\
  beatGrid phrase (7 # 2) = Some [1; 1; 0; 0].
Proof.
  split; [vm_compute; split; discriminate|].
  destruct (beatGrid_marks phrase (7 # 2)) as (grid & H & _).
  - vm_compute. split; discriminate.
  - rewrite H. f_equal. vm_compute in H. by injection H as <-.
Defined.

End Score.


(** ** Properties of the other tool handlers *)

Module Toolbox.
Import QArith_base Tools ToolsSpec.
Import Bridge(Returned, Thrown, Outcome).
Import BridgeSpec(perform, batch).
Local Open Scope Z_scope.

(** What [perform] carries out of a plan. *)
Lemma perform_carriedOut {X Act} (run : X -> Act -> option string * X) (x : X)
    (plan : list Act) :
  carriedOut plan (perform run x plan).1.1 (perform run x plan).1.2.
Proof.
  revert x. induction plan as [|a plan IH]; intros x; [done|].
  cbn [perform]. destruct (run x a) as [[e|] x'].
  - split; [|done]. by exists plan.
  - specialize (IH x'). destruct (perform run x' plan) as [[[e|] acts] x''];
      cbn [fst snd carriedOut] in *.
    + destruct IH as [[k ->] Hne]. split; [|done]. by exists k.
    + by rewrite IH.
Qed.

Lemma batch_carriedOut {X A Act} (run : X -> Act -> option string * X)
    (plan : A -> list Act) (x : X) (items : list A) :
  Forall2 (fun a out => carriedOut (plan a) out.1 out.2) items
    (batch (fun x a => perform run x (plan a)) x items).1.
Proof.
  revert x. induction items as [|a items IH]; intros x; cbn [batch]; [constructor|].
  pose proof (perform_carriedOut run x (plan a)) as H.
  destruct (perform run x (plan a)) as [[fate acts] x']. specialize (IH x').
  destruct (batch _ x' items) as [outs x'']. by constructor.
Qed.

(** What a result built from the outcomes of a batch says. *)
Lemma outcomes_reported {A Act} (items : list A)
    (outs : list (option string * list Act)) (r : Bridge.BatchResult) :
  length outs = length items ->
  r = tally (BridgeSpec.successes outs.*1)
            (BridgeSpec.failures (fun j _ => j) 0 items outs.*1) ->
  BridgeSpec.aggregated (Bridge.count items) r /\
  BridgeSpec.reportsByPosition outs.*1 r.
Proof.
  intros Hlen ->. apply Handlers.fates_reported; try done.
  by rewrite length_fmap.
Qed.

Section WithBackend.

Context {B : Type}.
Variable respond : B -> DAWType -> forall c : Command, (string + Reply c) * B.
Variable dawManager : Bridge.DAWClientManager.

(** A loop whose body does to the accumulators and to the world what
    [item] says of each item; [measure] is what the handler reports as
    [completed]. *)
Lemma forEach_outcomes {A X} (body : Z -> A -> M Locals unit)
    (item : X -> A -> option string * list Action * X)
    (view : Locals -> @World B -> X) (measure : Locals -> Z) :
  (forall i a l w, exists l' w',
     body i a l w = (Returned tt, l', w') /\
     view l' w' = (item (view l w) a).2 /\
     trace w' = trace w ++ (item (view l w) a).1.2 /\
     measure l'
     = measure l + match (item (view l w) a).1.1 with None => 1 | Some _ => 0 end /\
     l_errors l'
     = l_errors l ++ match (item (view l w) a).1.1 with
                     | None => []
                     | Some e => [Bridge.mkError i e]
                     end) ->
  forall xs i l w, exists l' w',
    forEach body i xs l w = (Returned tt, l', w') /\
    view l' w' = (batch item (view l w) xs).2 /\
    trace w' = trace w ++ concat (batch item (view l w) xs).1.*2 /\
    measure l' = measure l + BridgeSpec.successes (batch item (view l w) xs).1.*1 /\
    l_errors l'
    = l_errors l
      ++ BridgeSpec.failures (fun j _ => j) i xs (batch item (view l w) xs).1.*1.
Proof.
  intros Hbody. induction xs as [|a xs IH]; intros i l w.
  - exists l, w. cbn. unfold BridgeSpec.successes, Bridge.count. cbn.
    rewrite !app_nil_r. repeat split; try done. lia.
  - destruct (Hbody i a l w) as (l1 & w1 & Hrun & Hview & Htrace & Hc & He).
    destruct (IH (i + 1) l1 w1) as (l2 & w2 & Hloop & Hview2 & Htrace2 & Hc2 & He2).
    exists l2, w2. cbn [forEach batch]. unfold bind. rewrite Hrun, Hloop.
    split; [done|]. rewrite Hview in *.
    destruct (item (view l w) a) as [[fate acts] x']. cbn [fst snd] in *.
    destruct (batch item x' xs) as [outs x'']. cbn [fst snd fmap list_fmap concat] in *.
    split; [done|]. split; [by rewrite Htrace2, Htrace, <- app_assoc|].
    rewrite Hc2, He2, Hc, He, Handlers.successes_cons.
    destruct fate; cbn [BridgeSpec.failures]; rewrite <- ?app_assoc; split; try done; lia.
Qed.

(** One command sent. *)
Lemma send_run {S} (c : Command) (daw : DAWType) (s : S) (w : @World B) :
  send respond dawManager c (Some daw) s w
  = (match fst (respond (backend w) daw c) with
     | inl e => Thrown e
     | inr v => Returned v
     end, s,
     mkWorld (snd (respond (backend w) daw c)) (trace w ++ [Sent daw c])).
Proof. unfold send. simpl. by destruct (respond (backend w) daw c). Qed.

Lemma selectClipIfNeeded_lifted {S} config daw args (s : S) (w : @World B) :
  selectClipIfNeeded respond dawManager config daw args s w
  = let '(r, _, w1) := selectClipIfNeeded respond dawManager config daw args tt w in
    (r, s, w1).
Proof.
  unfold selectClipIfNeeded, lift.
  rewrite (Handlers.selectClipIfNeeded_locals (coreRespond respond) dawManager
             config daw args s).
  by destruct (Bridge.selectClipIfNeeded (coreRespond respond) dawManager config
                 daw args tt (Bridge.mkWorld (backend w) [])) as [[r u] w1].
Qed.

Ltac item_simpl :=
  cbn [perform carry planned default from_option id fst snd backend trace
       l_completed l_errors l_createdIndices l_results l_clips app option_map
       andb orb negb map].

Ltac item_cases :=
  item_simpl;
  repeat match goal with
         | |- context [if ?c then _ else _] =>
             match type of c with bool => destruct c; item_simpl end
         | |- context [match Bridge.givenName ?n with _ => _ end] =>
             destruct (Bridge.givenName n); item_simpl
         | |- context [respond ?b ?d ?c] =>
             destruct (respond b d c) as [[?|?] ?]; item_simpl
         end.

Ltac item_leaf :=
  eexists _, _; split; [reflexivity|]; item_simpl;
  rewrite <- ?app_assoc, ?app_nil_r; repeat split; try reflexivity; try lia.

(** The end of a handler that counts in [completed] and [errors]. *)
Lemma planned_loop {A} (body : Z -> A -> M Locals unit) (plan : A -> list Action) :
  (forall i a l w, exists l' w',
     body i a l w = (Returned tt, l', w') /\
     backend w' = (planned respond plan (backend w) a).2 /\
     trace w' = trace w ++ (planned respond plan (backend w) a).1.2 /\
     l_completed l'
     = l_completed l + match (planned respond plan (backend w) a).1.1 with
                       | None => 1
                       | Some _ => 0
                       end /\
     l_errors l'
     = l_errors l ++ match (planned respond plan (backend w) a).1.1 with
                     | None => []
                     | Some e => [Bridge.mkError i e]
                     end) ->
  forall (xs : list A) (w : @World B),
    let outs := batch (planned respond plan) (backend w) xs in
    exists l',
      forEach body 0 xs start w
      = (Returned tt, l', mkWorld outs.2 (trace w ++ concat outs.1.*2)) /\
      tally (l_completed l') (l_errors l')
      = tally (BridgeSpec.successes outs.1.*1)
              (BridgeSpec.failures (fun j _ => j) 0 xs outs.1.*1).
Proof.
  intros Hbody xs w outs.
  destruct (forEach_outcomes body (planned respond plan) (fun _ w => backend w)
              l_completed Hbody xs 0 start w)
    as (l' & w' & Hloop & Hb & Htrace & Hc & He).
  fold outs in Hb, Htrace, Hc, He. exists l'.
  cbn [l_errors l_completed start app] in He, Hc.
  rewrite Hloop, He, Hc, Z.add_0_l. split; [|done].
  destruct w' as [b' tr']. cbn [backend trace] in Hb, Htrace. by subst.
Qed.

(** *** The bodies of the loops, item by item *)

Lemma setTrackProperties_item (daw : DAWType) :
  forall i a l (w : @World B), exists l' w',
    (setTrackProperties respond dawManager daw) i a l w = (Returned tt, l', w') /\
    backend w' = (planned respond (trackPlan daw) (backend w) a).2 /\
    trace w' = trace w ++ (planned respond (trackPlan daw) (backend w) a).1.2 /\
    l_completed l'
    = l_completed l + match (planned respond (trackPlan daw) (backend w) a).1.1 with None => 1 | Some _ => 0 end /\
    l_errors l'
    = l_errors l ++ match (planned respond (trackPlan daw) (backend w) a).1.1 with
                    | None => []
                    | Some e => [Bridge.mkError i e]
                    end.
Proof.
  intros i track l w. unfold setTrackProperties, planned, trackPlan, wanted.
  destruct (tp_name track) as [name|], (tp_volume track) as [volume|],
    (tp_mute track) as [mute|], (tp_solo track) as [solo|];
    cbv beta iota zeta delta [try_ bind send ret incrCompleted pushError modify];
    item_cases; item_leaf.
Qed.

Lemma operate_item (daw : DAWType) :
  forall i a l (w : @World B), exists l' w',
    (fun i op => try_ (bind (operate respond dawManager daw op)
                                (fun _ => incrCompleted))
                          (fun e => pushError i e)) i a l w = (Returned tt, l', w') /\
    backend w' = (planned respond (operationPlan daw) (backend w) a).2 /\
    trace w' = trace w ++ (planned respond (operationPlan daw) (backend w) a).1.2 /\
    l_completed l'
    = l_completed l + match (planned respond (operationPlan daw) (backend w) a).1.1 with None => 1 | Some _ => 0 end /\
    l_errors l'
    = l_errors l ++ match (planned respond (operationPlan daw) (backend w) a).1.1 with
                    | None => []
                    | Some e => [Bridge.mkError i e]
                    end.
Proof.
  intros i op l w. unfold operate, planned, operationPlan, commandOf.
  cbv beta iota zeta delta [try_ bind send ret incrCompleted pushError modify].
  item_cases; item_leaf.
Qed.

Lemma transpose_item (daw : DAWType) (semitones : Z) :
  forall i a l (w : @World B), exists l' w',
    (fun i note =>
       try_ (bind (send respond dawManager
                     (clip_moveNote (Some (Notes.x note)) (Some (Notes.y note))
                        0 semitones) (Some daw))
                  (fun _ => incrCompleted))
            (fun e => pushError i e)) i a l w = (Returned tt, l', w') /\
    backend w' = (planned respond (transposePlan daw semitones) (backend w) a).2 /\
    trace w' = trace w ++ (planned respond (transposePlan daw semitones) (backend w) a).1.2 /\
    l_completed l'
    = l_completed l + match (planned respond (transposePlan daw semitones) (backend w) a).1.1 with None => 1 | Some _ => 0 end /\
    l_errors l'
    = l_errors l ++ match (planned respond (transposePlan daw semitones) (backend w) a).1.1 with
                    | None => []
                    | Some e => [Bridge.mkError i e]
                    end.
Proof.
  intros i note l w. unfold planned, transposePlan, transposition.
  cbv beta iota zeta delta [try_ bind send ret incrCompleted pushError modify].
  item_cases; item_leaf.
Qed.

Lemma setNote_item (daw : DAWType) :
  forall i a l (w : @World B), exists l' w',
    (fun i note =>
       try_ (bind (send respond dawManager (clip_setNote note) (Some daw))
                  (fun _ => incrCompleted))
            (fun e => pushError i e)) i a l w = (Returned tt, l', w') /\
    backend w' = (planned respond (notePlan daw) (backend w) a).2 /\
    trace w' = trace w ++ (planned respond (notePlan daw) (backend w) a).1.2 /\
    l_completed l'
    = l_completed l + match (planned respond (notePlan daw) (backend w) a).1.1 with None => 1 | Some _ => 0 end /\
    l_errors l'
    = l_errors l ++ match (planned respond (notePlan daw) (backend w) a).1.1 with
                    | None => []
                    | Some e => [Bridge.mkError i e]
                    end.
Proof.
  intros i note l w. unfold planned, notePlan.
  cbv beta iota zeta delta [try_ bind send ret incrCompleted pushError modify].
  item_cases; item_leaf.
Qed.

Lemma getNotes_item (midiVelocity : Q -> Z) (centiBeats : Q -> Q)
    (config : Bridge.Config) (daw : DAWType) (verbose usedCursor : bool) (n : Z) :
  forall i a l (w : @World B), exists l' w',
    (getNotes respond dawManager midiVelocity centiBeats config daw verbose
       usedCursor n) i a l w = (Returned tt, l', w') /\
    backend w' = (planned respond (getNotesPlan config daw (negb usedCursor || (1 <? n))) (backend w) a).2 /\
    trace w' = trace w ++ (planned respond (getNotesPlan config daw (negb usedCursor || (1 <? n))) (backend w) a).1.2 /\
    Bridge.count (l_clips l')
    = Bridge.count (l_clips l) + match (planned respond (getNotesPlan config daw (negb usedCursor || (1 <? n))) (backend w) a).1.1 with None => 1 | Some _ => 0 end /\
    l_errors l'
    = l_errors l ++ match (planned respond (getNotesPlan config daw (negb usedCursor || (1 <? n))) (backend w) a).1.1 with
                    | None => []
                    | Some e => [Bridge.mkError i e]
                    end.
Proof.
  intros i clip l w. unfold getNotes, planned, getNotesPlan, toInternal.
  cbv beta iota zeta delta [try_ bind send sleep ret pushClipNotes pushError modify].
  destruct (negb usedCursor || (1 <? n)); item_cases;
    eexists _, _; (split; [reflexivity|]); item_simpl;
    rewrite <- ?app_assoc, ?app_nil_r; unfold Bridge.count;
    rewrite ?length_app; cbn [length]; repeat split; try reflexivity; lia.
Qed.

Lemma createTrack_item (daw : DAWType) :
  forall i a l (w : @World B), exists l' w',
    (createTrack respond dawManager daw) i a l w = (Returned tt, l', w') /\
    (backend w', l_createdIndices l') = (trackCreation respond daw (backend w, l_createdIndices l) a).2 /\
    trace w' = trace w ++ (trackCreation respond daw (backend w, l_createdIndices l) a).1.2 /\
    l_completed l'
    = l_completed l + match (trackCreation respond daw (backend w, l_createdIndices l) a).1.1 with None => 1 | Some _ => 0 end /\
    l_errors l'
    = l_errors l ++ match (trackCreation respond daw (backend w, l_createdIndices l) a).1.1 with
                    | None => []
                    | Some e => [Bridge.mkError i e]
                    end.
Proof.
  intros i track l w. unfold createTrack, trackCreation, toUser.
  cbv beta iota zeta delta [try_ bind send ret incrCompleted pushError
                             pushCreatedIndex modify].
  item_simpl.
  destruct (respond (backend w) daw
              (track_create (tr_type track)
                 (option_map internalPosition (tr_position track))))
    as [[e|[index|]] b1]; item_cases; item_leaf.
Qed.

Lemma forOf_perform {S A} (daw : DAWType) (cmd : A -> Command) (entries : list A)
    (s : S) (w : @World B) :
  let out := perform (carry respond) (backend w)
               (map (fun entry => Sent daw (cmd entry)) entries) in
  forOf (fun entry => bind (send respond dawManager (cmd entry) (Some daw))
                           (fun _ => ret tt)) entries s w
  = (match out.1.1 with None => Returned tt | Some e => Thrown e end, s,
     mkWorld out.2 (trace w ++ out.1.2)).
Proof.
  revert w. induction entries as [|entry entries IH]; intros w.
  - cbn. unfold ret. rewrite app_nil_r. by destruct w.
  - cbn [forOf map perform carry]. unfold bind at 1. unfold bind at 1.
    rewrite send_run.
    destruct (respond (backend w) daw (cmd entry)) as [[e|v] b']; cbn [fst snd]; [done|].
    unfold ret at 1. rewrite IH. cbn [backend trace].
    destruct (perform (carry respond) b' (map _ entries)) as [[fate acts] b''].
    cbn [fst snd]. by rewrite <- app_assoc.
Qed.

Lemma setNoteProperties_item (daw : DAWType) :
  forall i a l (w : @World B), exists l' w',
    setNoteProperties respond dawManager daw i a l w = (Returned tt, l', w') /\
    backend w' = (planned respond (notePropertiesPlan daw) (backend w) a).2 /\
    trace w' = trace w ++ (planned respond (notePropertiesPlan daw) (backend w) a).1.2 /\
    l_completed l'
    = l_completed l
      + match (planned respond (notePropertiesPlan daw) (backend w) a).1.1 with
        | None => 1
        | Some _ => 0
        end /\
    l_errors l'
    = l_errors l
      ++ match (planned respond (notePropertiesPlan daw) (backend w) a).1.1 with
         | None => []
         | Some e => [Bridge.mkError i e]
         end.
Proof.
  intros i note l w. unfold setNoteProperties, planned, notePropertiesPlan.
  unfold try_, bind at 1. rewrite forOf_perform.
  destruct (perform (carry respond) (backend w) _) as [[[e|] acts] b'];
    cbn [fst snd]; unfold incrCompleted, pushError, modify; item_leaf.
Qed.

(** *** The handlers, from the first item to the result *)

Lemma handleBatchSetTrackProperties_batch {S} (daw : DAWType)
    (tracks : list TrackProperties) (s : S) (w : @World B) :
  let outs := batch (planned respond (trackPlan daw)) (backend w) tracks in
  handleBatchSetTrackProperties respond dawManager daw tracks s w
  = (Returned (mkResult
                 (tally (BridgeSpec.successes outs.1.*1)
                        (BridgeSpec.failures (fun j _ => j) 0 tracks outs.1.*1))
                 None None None None),
     s, mkWorld outs.2 (trace w ++ concat outs.1.*2)).
Proof.
  intros outs. unfold handleBatchSetTrackProperties, call.
  destruct (planned_loop _ _ (setTrackProperties_item daw) tracks w)
    as (l' & Hloop & Htally).
  unfold bind at 1. rewrite Hloop. unfold bind, get, ret. by rewrite Htally.
Qed.

Lemma handleBatchCreateTracks_batch {S} (daw : DAWType)
    (tracks : list TrackRequest) (s : S) (w : @World B) :
  let outs := batch (trackCreation respond daw) (backend w, []) tracks in
  handleBatchCreateTracks respond dawManager daw tracks s w
  = (Returned (mkResult
                 (tally (BridgeSpec.successes outs.1.*1)
                        (BridgeSpec.failures (fun j _ => j) 0 tracks outs.1.*1))
                 (Some outs.2.2) None None None),
     s, mkWorld outs.2.1 (trace w ++ concat outs.1.*2)).
Proof.
  intros outs. unfold handleBatchCreateTracks, call.
  destruct (forEach_outcomes _ _ (fun l w => (backend w, l_createdIndices l))
              l_completed (createTrack_item daw) tracks 0 start w)
    as (l' & w' & Hloop & Hview & Htrace & Hc & He).
  cbn [backend l_createdIndices l_completed l_errors start app] in *.
  fold outs in Hview, Htrace, Hc, He.
  unfold bind at 1. rewrite Hloop. unfold bind, get, ret.
  rewrite He, Hc, Z.add_0_l. destruct w' as [b' tr'].
  cbn [backend trace] in *. rewrite <- Hview, Htrace. reflexivity.
Qed.

(** The handlers that select the clip first. *)
Lemma selecting_handler {S R} (config : Bridge.Config) (daw : DAWType)
    (args : Bridge.Args) (rest : M Locals R) (s : S) (w : @World B) :
  call start (bind (selectClipIfNeeded respond dawManager config (Some daw) args)
                   (fun _ => rest)) s w
  = match selectClipIfNeeded respond dawManager config (Some daw) args tt w with
    | (Thrown e, _, w1) => (Thrown e, s, w1)
    | (Returned _, _, w1) => let '(r, _, w') := rest start w1 in (r, s, w')
    end.
Proof.
  unfold call, bind. rewrite selectClipIfNeeded_lifted.
  by destruct (selectClipIfNeeded respond dawManager config (Some daw) args tt w)
    as [[[u|e] u'] w1].
Qed.

Lemma handleBatchOperations_batch {S} (config : Bridge.Config) (daw : DAWType)
    (args : Bridge.Args) (operations : list Operation) (s : S) (w : @World B) :
  handleBatchOperations respond dawManager config daw args operations s w
  = match selectClipIfNeeded respond dawManager config (Some daw) args tt w with
    | (Thrown e, _, w1) => (Thrown e, s, w1)
    | (Returned _, _, w1) =>
        let outs := batch (planned respond (operationPlan daw)) (backend w1)
                      operations in
        (Returned (mkResult
                     (tally (BridgeSpec.successes outs.1.*1)
                            (BridgeSpec.failures (fun j _ => j) 0 operations outs.1.*1))
                     None None None None),
         s, mkWorld outs.2 (trace w1 ++ concat outs.1.*2))
    end.
Proof.
  unfold handleBatchOperations. rewrite selecting_handler.
  destruct (selectClipIfNeeded respond dawManager config (Some daw) args tt w)
    as [[[u|e] u'] w1]; [|done].
  destruct (planned_loop _ _ (operate_item daw) operations w1)
    as (l' & Hloop & Htally).
  unfold bind at 1. rewrite Hloop. unfold bind, get, ret. by rewrite Htally.
Qed.

Lemma handleBatchSetNoteProperties_batch {S} (config : Bridge.Config)
    (daw : DAWType) (args : Bridge.Args) (notes : list NoteProperties)
    (s : S) (w : @World B) :
  handleBatchSetNoteProperties respond dawManager config daw args notes s w
  = match selectClipIfNeeded respond dawManager config (Some daw) args tt w with
    | (Thrown e, _, w1) => (Thrown e, s, w1)
    | (Returned _, _, w1) =>
        let outs := batch (planned respond (notePropertiesPlan daw)) (backend w1)
                      notes in
        (Returned (mkResult
                     (tally (BridgeSpec.successes outs.1.*1)
                            (BridgeSpec.failures (fun j _ => j) 0 notes outs.1.*1))
                     None None None None),
         s, mkWorld outs.2 (trace w1 ++ concat outs.1.*2))
    end.
Proof.
  unfold handleBatchSetNoteProperties. rewrite selecting_handler.
  destruct (selectClipIfNeeded respond dawManager config (Some daw) args tt w)
    as [[[u|e] u'] w1]; [|done].
  destruct (planned_loop _ _ (setNoteProperties_item daw) notes w1)
    as (l' & Hloop & Htally).
  unfold bind at 1. rewrite Hloop. unfold bind, get, ret. by rewrite Htally.
Qed.

Lemma handleBatchSetNotes_batch {S} (quantizeForBitwig : Q -> Q)
    (config : Bridge.Config) (daw : DAWType) (args : Bridge.Args)
    (rawNotes : list RawNote) (s : S) (w : @World B) :
  handleBatchSetNotes respond dawManager quantizeForBitwig config daw args
    rawNotes s w
  = match selectClipIfNeeded respond dawManager config (Some daw) args tt w with
    | (Thrown e, _, w1) => (Thrown e, s, w1)
    | (Returned _, _, w1) =>
        match daw with
        | bitwig =>
            let notes := map (quantized quantizeForBitwig)
                           (map objectFormat rawNotes) in
            let outs := batch (planned respond (notePlan bitwig)) (backend w1)
                          notes in
            (Returned (mkResult
                         (tally (BridgeSpec.successes outs.1.*1)
                                (BridgeSpec.failures (fun j _ => j) 0 notes outs.1.*1))
                         None None None None),
             s, mkWorld outs.2 (trace w1 ++ concat outs.1.*2))
        | ableton =>
            let notes := map objectFormat rawNotes in
            let answer := respond (backend w1) ableton (clip_setNotes notes) in
            (Returned (mkResult
                         match answer.1 with
                         | inr _ =>
                             Bridge.mkBatchResult true (Bridge.count notes) 0
                               None None None None None
                         | inl e =>
                             Bridge.mkBatchResult false 0 (Bridge.count notes)
                               (Some [Bridge.mkError 0 e]) None None None None
                         end
                         None None None None),
             s, mkWorld answer.2 (trace w1 ++ [Sent ableton (clip_setNotes notes)]))
        end
    end.
Proof.
  unfold handleBatchSetNotes. rewrite selecting_handler.
  destruct (selectClipIfNeeded respond dawManager config (Some daw) args tt w)
    as [[[u|e] u'] w1]; [|done].
  destruct daw.
  - destruct (planned_loop _ _ (setNote_item bitwig)
                (map (quantized quantizeForBitwig) (map objectFormat rawNotes)) w1)
      as (l' & Hloop & Htally).
    unfold bind at 1. rewrite Hloop. unfold bind, get, ret. by rewrite Htally.
  - cbv beta iota zeta delta [try_ bind ret]. rewrite send_run.
    by destruct (respond (backend w1) ableton
                   (clip_setNotes (map objectFormat rawNotes))) as [[e|v] b2].
Qed.

Lemma handleTransposeRange_batch {S} (config : Bridge.Config) (daw : DAWType)
    (args : Bridge.Args) (startStep endStep : Q) (semitones : Z)
    (pitchFilter : option Z) (s : S) (w : @World B) :
  handleTransposeRange respond dawManager config daw args startStep endStep
    semitones pitchFilter s w
  = match selectClipIfNeeded respond dawManager config (Some daw) args tt w with
    | (Thrown e, _, w1) => (Thrown e, s, w1)
    | (Returned _, _, w1) =>
        let answer := respond (backend w1) daw clip_getNotes in
        let query := Sent daw clip_getNotes in
        match answer.1 with
        | inl e => (Thrown e, s, mkWorld answer.2 (trace w1 ++ [query]))
        | inr found =>
            let moved := List.filter (inRange startStep endStep pitchFilter)
                           (default [] (nr_notes found)) in
            let outs := batch (planned respond (transposePlan daw semitones))
                          answer.2 moved in
            (Returned
               match moved with
               | [] =>
                   mkResult
                     (Bridge.mkBatchResult true 0 0 None
                        (Some "No notes found in specified range") None None None)
                     None None None None
               | _ =>
                   mkResult
                     (tally (BridgeSpec.successes outs.1.*1)
                            (BridgeSpec.failures (fun j _ => j) 0 moved outs.1.*1))
                     None None (Some (Bridge.count moved)) None
               end,
             s, mkWorld outs.2 (trace w1 ++ query :: concat outs.1.*2))
        end
    end.
Proof.
  unfold handleTransposeRange. rewrite selecting_handler.
  destruct (selectClipIfNeeded respond dawManager config (Some daw) args tt w)
    as [[[u|e] u'] w1]; [|done].
  unfold bind at 1. rewrite send_run.
  destruct (respond (backend w1) daw clip_getNotes) as [[e|found] b2];
    cbn [fst snd]; [done|].
  destruct (List.filter (inRange startStep endStep pitchFilter)
              (default [] (nr_notes found))) as [|first rest] eqn:Emoved.
  - cbn [batch fst snd fmap list_fmap concat]. unfold ret. reflexivity.
  - destruct (planned_loop _ _ (transpose_item daw semitones) (first :: rest)
                (mkWorld b2 (trace w1 ++ [Sent daw clip_getNotes])))
      as (l' & Hloop & Htally).
    cbn [backend trace] in Hloop, Htally.
    unfold bind at 1. rewrite Hloop. unfold bind, get, ret.
    rewrite Htally, <- app_assoc. reflexivity.
Qed.

Lemma getClips_run (midiVelocity : Q -> Z) (centiBeats : Q -> Q)
    (config : Bridge.Config) (daw : DAWType) (verbose usedCursor : bool)
    (clips : list ClipAddress) (w : @World B) :
  let outs :=
    batch (planned respond
             (getNotesPlan config daw (negb usedCursor || (1 <? Bridge.count clips))))
          (backend w) clips in
  exists results l',
    getClips respond dawManager midiVelocity centiBeats config daw verbose
      usedCursor clips start w
    = (Returned (mkResult
                   (tally (BridgeSpec.successes outs.1.*1)
                          (BridgeSpec.failures (fun j _ => j) 0 clips outs.1.*1))
                   None None None (Some results)),
       l', mkWorld outs.2 (trace w ++ concat outs.1.*2)).
Proof.
  intros outs. unfold getClips.
  destruct (forEach_outcomes _ _ (fun _ w => backend w)
              (fun l => Bridge.count (l_clips l))
              (getNotes_item midiVelocity centiBeats config daw verbose usedCursor
                 (Bridge.count clips)) clips 0 start w)
    as (l' & w' & Hloop & Hb & Htrace & Hc & He).
  fold outs in Hb, Htrace, Hc, He.
  cbn [l_errors l_clips start app] in He, Hc. change (Bridge.count []) with 0 in Hc.
  exists (l_clips l'), l'. unfold bind at 1. rewrite Hloop. unfold bind, get, ret.
  rewrite He, Hc, Z.add_0_l. destruct w' as [b' tr'].
  cbn [backend trace] in Hb, Htrace. by subst.
Qed.

(** *** Plans of at most one action *)

Lemma batch_short {A} (plan : A -> list Action) (b : B) (items : list A) :
  (forall a, (length (plan a) <= 1)%nat) ->
  concat (batch (planned respond plan) b items).1.*2 = concat (map plan items).
Proof.
  intros Hshort. revert b. induction items as [|a items IH]; intros b; [done|].
  cbn [batch map concat]. unfold planned at 1.
  pose proof (Hshort a) as Ha.
  destruct (plan a) as [|act [|act' more]]; cbn [length] in Ha; [| |lia].
  - cbn [perform]. specialize (IH b).
    destruct (batch (planned respond plan) b items) as [outs b'].
    cbn [fst snd fmap list_fmap concat app] in *. by rewrite IH.
  - cbn [perform]. destruct (carry respond b act) as [[e|] b1];
      specialize (IH b1);
      destruct (batch (planned respond plan) b1 items) as [outs b'];
      cbn [fst snd fmap list_fmap concat app] in *; by rewrite IH.
Qed.

Lemma operationPlans (daw : DAWType) (operations : list Operation) :
  concat (map (operationPlan daw) operations)
  = map (Sent daw) (omap commandOf operations).
Proof.
  induction operations as [|op ops IH]; [done|].
  cbn [map concat omap list_omap]. unfold operationPlan at 1.
  destruct (commandOf op); cbn [app map]; by rewrite IH.
Qed.

Lemma trackCreation_first (daw : DAWType) (st : B * list Z)
    (tracks : list TrackRequest) :
  Forall2 (fun track out => head out.2 = Some (Sent daw (createCommand track)))
    tracks (batch (trackCreation respond daw) st tracks).1.
Proof.
  revert st. induction tracks as [|track tracks IH]; intros st; cbn [batch];
    [constructor|].
  assert (head (trackCreation respond daw st track).1.2
          = Some (Sent daw (createCommand track))) as Hhead.
  { unfold trackCreation, createCommand.
    destruct (respond st.1 daw _) as [[e|[index|]] b1]; try done.
    destruct (Bridge.givenName (tr_name track)); [|done].
    by destruct (perform (carry respond) b1 _) as [[fate acts] b2]. }
  destruct (trackCreation respond daw st track) as [[fate acts] st'].
  specialize (IH st').
  destruct (batch (trackCreation respond daw) st' tracks) as [outs st''].
  by constructor.
Qed.

(** *** [handleBatchSetTrackProperties] *)

(** X12: given tracks (objects with an index), the result of
    [handleBatchSetTrackProperties] tells of every track, by position,
    how it fared with the backend. For a track it sends only the
    properties that were supplied, to the track one below the 1-based
    index given, in the order name, volume, mute, solo; the track fails
    with the error of the first of these commands that the backend
    fails, the rest of that track is then left out, and the next track
    goes on from there. *)
Theorem track_properties_partial {S} (daw : DAWType)
    (tracks : list TrackProperties) (s : S) (w : @World B) :
  let outs := batch (planned respond (trackPlan daw)) (backend w) tracks in
  exists r,
    handleBatchSetTrackProperties respond dawManager daw tracks s w
    = (Returned r, s, mkWorld outs.2 (trace w ++ concat outs.1.*2)) /\
    BridgeSpec.aggregated (Bridge.count tracks) (summary r) /\
    BridgeSpec.reportsByPosition outs.1.*1 (summary r) /\
    Forall2 (fun track out =>
               carriedOut (map (Sent daw) (wanted track)) out.1 out.2)
      tracks outs.1.
Proof.
  intros outs. rewrite handleBatchSetTrackProperties_batch. fold outs.
  eexists. split; [reflexivity|]. cbn [summary].
  destruct (outcomes_reported tracks outs.1 _ (Handlers.batch_length _ _ _) eq_refl)
    as [Hagg Hrep].
  split; [exact Hagg|]. split; [exact Hrep|].
  apply (batch_carriedOut (carry respond) (trackPlan daw)).
Qed.

(** *** [handleBatchCreateTracks] *)

(** X13: the result of [handleBatchCreateTracks] tells of every
    requested track, by position, how it fared with the backend. For
    each track, in the order given, one creation is sent first, with the
    position one below the 1-based position given (-1 kept as it is,
    none when none is given). A track whose creation fails is reported
    failed. When the creation returns an index, that index plus one is
    added to [createdIndices], and a track with a name is then named
    under the index returned; if the naming fails the track is reported
    failed, its index staying in [createdIndices]. *)
Theorem created_tracks {S} (daw : DAWType) (tracks : list TrackRequest)
    (s : S) (w : @World B) :
  let outs := batch (trackCreation respond daw) (backend w, []) tracks in
  exists r,
    handleBatchCreateTracks respond dawManager daw tracks s w
    = (Returned r, s, mkWorld outs.2.1 (trace w ++ concat outs.1.*2)) /\
    BridgeSpec.aggregated (Bridge.count tracks) (summary r) /\
    BridgeSpec.reportsByPosition outs.1.*1 (summary r) /\
    createdIndices r = Some outs.2.2 /\
    Forall2 (fun track out => head out.2 = Some (Sent daw (createCommand track)))
      tracks outs.1.
Proof.
  intros outs. rewrite handleBatchCreateTracks_batch. fold outs.
  eexists. split; [reflexivity|]. cbn [summary createdIndices].
  destruct (outcomes_reported tracks outs.1 _ (Handlers.batch_length _ _ _) eq_refl)
    as [Hagg Hrep].
  split; [exact Hagg|]. split; [exact Hrep|]. split; [done|].
  apply trackCreation_first.
Qed.

(** *** [handleBatchListClips] *)

Lemma reported_count (trackIndices : list Z) answers :
  length answers = length trackIndices ->
  Bridge.count (reported trackIndices answers)
  = BridgeSpec.successes (map fateOf answers).
Proof.
  revert answers. induction trackIndices as [|t ts IH]; intros [|a answers] Hlen;
    try done.
  injection Hlen as Hlen. cbn [reported map]. rewrite Handlers.successes_cons.
  specialize (IH answers Hlen). unfold Bridge.count in *.
  destruct a as [e|clips]; cbn [listed fateOf length]; lia.
Qed.

Lemma listings_length (b : B) (daw : DAWType) (trackIndices : list Z) :
  length (fst (listings respond b daw trackIndices)) = length trackIndices.
Proof.
  revert b. induction trackIndices as [|t ts IH]; intros b; [done|].
  cbn [listings]. destruct (respond b daw (clip_list (toInternal t))) as [r b'].
  specialize (IH b'). destruct (listings respond b' daw ts) as [rs b''].
  simpl in *. by rewrite IH.
Qed.

Lemma listClips_loop (daw : DAWType) (trackIndices : list Z) (i : Z)
    (l : Locals) (w : @World B) :
  forEach (listClips respond dawManager daw) i trackIndices l w
  = (Returned tt,
     mkLocals (l_completed l)
       (l_errors l ++ BridgeSpec.failures (fun j _ => j) i trackIndices
                        (map fateOf (fst (listings respond (backend w) daw trackIndices))))
       (l_createdIndices l)
       (l_results l ++ reported trackIndices
                         (fst (listings respond (backend w) daw trackIndices)))
       (l_clips l),
     mkWorld (snd (listings respond (backend w) daw trackIndices))
             (trace w ++ map (fun t => Sent daw (clip_list (toInternal t)))
                             trackIndices)).
Proof.
  revert i l w. induction trackIndices as [|t ts IH]; intros i l w.
  - simpl. unfold ret. rewrite !app_nil_r. by destruct l, w.
  - cbn [forEach listings]. unfold bind at 1. unfold listClips at 1.
    cbv beta iota zeta delta [try_ bind send ret pushResult pushError modify
                               default from_option id].
    cbn [backend trace].
    destruct (respond (backend w) daw (clip_list (toInternal t))) as [[e|clips] b'];
      cbn [backend trace]; rewrite IH; cbn [backend trace l_completed l_errors
                                            l_createdIndices l_results l_clips];
      destruct (listings respond b' daw ts) as [rs b'']; cbn [fst snd map fateOf
        BridgeSpec.failures reported listed];
      by rewrite <- !app_assoc.
Qed.

Lemma listTracks_run (daw : DAWType) (trackIndices : list Z) (w : @World B) :
  let answers := fst (listings respond (backend w) daw trackIndices) in
  exists r,
    listTracks respond dawManager daw trackIndices start w
    = (Returned r,
       mkLocals 0 (BridgeSpec.failures (fun j _ => j) 0 trackIndices
                     (map fateOf answers))
                [] (reported trackIndices answers) [],
       mkWorld (snd (listings respond (backend w) daw trackIndices))
               (trace w ++ map (fun t => Sent daw (clip_list (toInternal t)))
                               trackIndices)) /\
    tracks r = Some (reported trackIndices answers) /\
    createdIndices r = None /\ notesFound r = None /\
    BridgeSpec.aggregated (Bridge.count trackIndices) (summary r) /\
    BridgeSpec.reportsByPosition (map fateOf answers) (summary r).
Proof.
  intros answers. unfold listTracks, bind. rewrite listClips_loop.
  unfold get, ret. cbn [l_results l_errors start app]. fold answers.
  eexists. split; [reflexivity|]. cbn [tracks createdIndices notesFound summary].
  split; [done|]. split; [done|]. split; [done|].
  assert (length (map fateOf answers) = length trackIndices) as Hlen.
  { rewrite length_map. apply listings_length. }
  apply Handlers.fates_reported; unfold tally; simpl; try done.
  apply reported_count. by rewrite length_map in Hlen.
Qed.

(** X14: given a list of tracks that is not empty, or else a single
    track, [handleBatchListClips] never throws and asks nothing about
    the cursor: it lists each track in turn, one below the 1-based index
    given, whatever the fate of the tracks before; a listing that
    succeeds is reported under the index as it was given, with the slot
    of every clip one above the slot the DAW reported, and [completed]
    and [failed] count the listings that succeeded and failed. *)
Theorem list_clips_explicit {S} (daw : DAWType) (args : Bridge.Args)
    (chosen : list Z) (s : S) (w : @World B) :
  requestedTracks args = Some chosen ->
  let answers := fst (listings respond (backend w) daw chosen) in
  exists r w',
    handleBatchListClips respond dawManager daw args s w = (Returned r, s, w') /\
    trace w' = trace w ++ map (fun t => Sent daw (clip_list (toInternal t))) chosen /\
    tracks r = Some (reported chosen answers) /\
    BridgeSpec.aggregated (Bridge.count chosen) (summary r) /\
    BridgeSpec.reportsByPosition (map fateOf answers) (summary r).
Proof.
  intros Hreq answers.
  destruct (listTracks_run daw chosen w) as (r & Hrun & Ht & _ & _ & Ha & Hr).
  exists r. eexists. split.
  - unfold handleBatchListClips, call. unfold requestedTracks in Hreq.
    destruct (Bridge.arg_trackIndices args) as [|first more].
    + destruct (Bridge.arg_trackIndex args) as [t|]; [|done].
      injection Hreq as <-. rewrite Hrun. reflexivity.
    + injection Hreq as <-. rewrite Hrun. reflexivity.
  - done.
Qed.

(** X15: given no track, [handleBatchListClips] asks for the selection:
    when that query fails the handler throws its error; when no track is
    selected (index -1) it returns a failed result with one error and
    lists nothing; otherwise it lists the selected track and reports it
    under its 1-based index. *)
Theorem list_clips_cursor {S} (daw : DAWType) (args : Bridge.Args)
    (s : S) (w : @World B) :
  requestedTracks args = None ->
  let query := Sent daw (core Bridge.clip_getSelection) in
  match respond (backend w) daw (core Bridge.clip_getSelection) with
  | (inl e, b1) =>
      handleBatchListClips respond dawManager daw args s w
      = (Thrown e, s, mkWorld b1 (trace w ++ [query]))
  | (inr selection, b1) =>
      if Bridge.sel_trackIndex selection =? -1 then
        exists r,
          handleBatchListClips respond dawManager daw args s w
          = (Returned r, s, mkWorld b1 (trace w ++ [query])) /\
          Bridge.success (summary r) = false /\
          Bridge.completed (summary r) = 0 /\ Bridge.failed (summary r) = 1 /\
          Bridge.errors (summary r) = Some [Bridge.mkError 0 noTrackSelected] /\
          tracks r = None
      else
        let track := toUser (Bridge.sel_trackIndex selection) in
        let answers := fst (listings respond b1 daw [track]) in
        exists r w',
          handleBatchListClips respond dawManager daw args s w
          = (Returned r, s, w') /\
          trace w' = trace w ++ [query; Sent daw (clip_list (Bridge.sel_trackIndex selection))] /\
          tracks r = Some (reported [track] answers) /\
          BridgeSpec.aggregated 1 (summary r)
  end.
Proof.
  intros Hreq query. unfold requestedTracks in Hreq.
  assert (handleBatchListClips respond dawManager daw args s w
          = match respond (backend w) daw (core Bridge.clip_getSelection) with
            | (inl e, b1) => (Thrown e, s, mkWorld b1 (trace w ++ [query]))
            | (inr selection, b1) =>
                let '(r, _, w') :=
                  (if Bridge.sel_trackIndex selection =? -1 then
                     ret (mkResult
                            (Bridge.mkBatchResult false 0 1
                               (Some [Bridge.mkError 0 noTrackSelected])
                               None None None None)
                            None None None None)
                   else listTracks respond dawManager daw
                          [toUser (Bridge.sel_trackIndex selection)])
                    start (mkWorld b1 (trace w ++ [query])) in
                (r, s, w')
            end) as ->.
  { unfold handleBatchListClips, call.
    destruct (Bridge.arg_trackIndices args) as [|first more]; [|done].
    destruct (Bridge.arg_trackIndex args) as [t|]; [done|].
    unfold bind at 1. rewrite send_run.
    by destruct (respond (backend w) daw (core Bridge.clip_getSelection))
      as [[e|selection] b1]. }
  destruct (respond (backend w) daw (core Bridge.clip_getSelection))
    as [[e|selection] b1]; [done|].
  destruct (Bridge.sel_trackIndex selection =? -1) eqn:E.
  - eexists. split; [reflexivity|]. done.
  - cbv zeta.
    destruct (listTracks_run daw [toUser (Bridge.sel_trackIndex selection)]
                (mkWorld b1 (trace w ++ [query])))
      as (r & Hrun & Ht & _ & _ & Ha & _).
    exists r. eexists. rewrite Hrun. split; [reflexivity|].
    cbn [trace backend map] in *. split.
    + rewrite <- app_assoc. cbn [app].
      replace (toInternal (toUser (Bridge.sel_trackIndex selection)))
        with (Bridge.sel_trackIndex selection)
        by (unfold toInternal, toUser; lia).
      reflexivity.
    + split; [exact Ht | exact Ha].
Qed.

(** *** operations.ts *)

(** X16: [handleTransposeRange] throws what [selectClipIfNeeded] or the
    reading of the notes throws. Otherwise it moves exactly the notes
    that start within [startStep] and [endStep] (both included) and,
    when a pitch filter is given, lie on that pitch: each by [semitones]
    in pitch and not at all in time, in the order the DAW listed them, a
    failed move not stopping the others. Without such a note nothing is
    moved and the result says so; with some, the result tells of each of
    them, by position, whether the backend carried out its move or with
    what error it failed, and [notesFound] is their number. *)
Theorem transpose_range_moves {S} (config : Bridge.Config) (daw : DAWType)
    (args : Bridge.Args) (startStep endStep : Q) (semitones : Z)
    (pitchFilter : option Z) (s : S) (w : @World B) :
  match selectClipIfNeeded respond dawManager config (Some daw) args tt w with
  | (Thrown e, _, w1) =>
      handleTransposeRange respond dawManager config daw args startStep endStep
        semitones pitchFilter s w = (Thrown e, s, w1)
  | (Returned _, _, w1) =>
      match respond (backend w1) daw clip_getNotes with
      | (inl e, b2) =>
          handleTransposeRange respond dawManager config daw args startStep endStep
            semitones pitchFilter s w
          = (Thrown e, s, mkWorld b2 (trace w1 ++ [Sent daw clip_getNotes]))
      | (inr answer, b2) =>
          let notes := default [] (nr_notes answer) in
          let moved := List.filter (inRange startStep endStep pitchFilter) notes in
          let outs := batch (planned respond (transposePlan daw semitones)) b2 moved in
          exists r,
            handleTransposeRange respond dawManager config daw args startStep
              endStep semitones pitchFilter s w
            = (Returned r, s,
               mkWorld outs.2
                 (trace w1 ++ Sent daw clip_getNotes
                    :: map (fun n => Sent daw (transposition semitones n)) moved)) /\
            (forall n, n ∈ moved <->
               n ∈ notes /\ (startStep <= Notes.x n)%Q /\ (Notes.x n <= endStep)%Q /\
               (forall pitch, pitchFilter = Some pitch -> Notes.y n = pitch)) /\
            match moved with
            | [] =>
                summary r = Bridge.mkBatchResult true 0 0 None
                              (Some "No notes found in specified range")
                              None None None /\
                notesFound r = None
            | _ =>
                BridgeSpec.aggregated (Bridge.count moved) (summary r) /\
                BridgeSpec.reportsByPosition outs.1.*1 (summary r) /\
                notesFound r = Some (Bridge.count moved)
            end
      end
  end.
Proof.
  rewrite handleTransposeRange_batch.
  destruct (selectClipIfNeeded respond dawManager config (Some daw) args tt w)
    as [[[u|e] u'] w1]; [|done].
  destruct (respond (backend w1) daw clip_getNotes) as [[e|answer] b2];
    cbn [fst snd]; [done|].
  set (notes := default [] (nr_notes answer)).
  set (moved := List.filter (inRange startStep endStep pitchFilter) notes).
  assert (Hmoved : forall n, n ∈ moved <->
            n ∈ notes /\ (startStep <= Notes.x n)%Q /\ (Notes.x n <= endStep)%Q /\
            (forall pitch, pitchFilter = Some pitch -> Notes.y n = pitch)).
  { intros n. unfold moved, inRange.
    rewrite list_elem_of_In, filter_In, <- list_elem_of_In.
    rewrite !andb_true_iff, !Qle_bool_iff. destruct pitchFilter as [pitch|].
    - rewrite Z.eqb_eq. split.
      + intros (Hn & (H1 & H2) & H3). repeat split; try done. by intros ? [= <-].
      + intros (Hn & H1 & H2 & H3). repeat split; try done. by apply H3.
    - split.
      + intros (Hn & (H1 & H2) & _). by repeat split.
      + intros (Hn & H1 & H2 & _). by repeat split. }
  assert (Hsent : concat (batch (planned respond (transposePlan daw semitones))
                            b2 moved).1.*2
                  = map (fun n => Sent daw (transposition semitones n)) moved).
  { rewrite batch_short by done. clear. induction moved as [|n ns IH]; [done|].
    cbn [map concat]. by rewrite IH. }
  rewrite <- Hsent. clearbody moved. destruct moved as [|first rest].
  - eexists. split; [reflexivity|]. split; [exact Hmoved|done].
  - eexists. split; [reflexivity|]. split; [exact Hmoved|].
    cbn [summary notesFound].
    destruct (outcomes_reported (first :: rest)
                (batch (planned respond (transposePlan daw semitones)) b2
                   (first :: rest)).1
                _ (Handlers.batch_length _ _ _) eq_refl) as [Hagg Hrep].
    split; [exact Hagg|]. split; [exact Hrep | reflexivity].
Qed.

(** X17: [handleBatchOperations] throws only what [selectClipIfNeeded]
    throws, before any operation. Otherwise its result tells of every
    operation, by position, how it fared with the backend. An operation
    sends the one command its action stands for, with 100 for a missing
    velocity, 0.25 for a missing duration and 0 for a missing [dx],
    [dy] or [semitones], whatever became of the operations before it,
    and fails exactly when the backend fails that command; an operation
    whose action is none of [set], [move], [clear] and [transpose_clip]
    sends nothing and counts as completed. *)
Theorem batch_operations_dispatch {S} (config : Bridge.Config) (daw : DAWType)
    (args : Bridge.Args) (operations : list Operation) (s : S) (w : @World B) :
  match selectClipIfNeeded respond dawManager config (Some daw) args tt w with
  | (Thrown e, _, w1) =>
      handleBatchOperations respond dawManager config daw args operations s w
      = (Thrown e, s, w1)
  | (Returned _, _, w1) =>
      let outs := batch (planned respond (operationPlan daw)) (backend w1)
                    operations in
      exists r,
        handleBatchOperations respond dawManager config daw args operations s w
        = (Returned r, s,
           mkWorld outs.2
             (trace w1 ++ map (Sent daw) (omap commandOf operations))) /\
        BridgeSpec.aggregated (Bridge.count operations) (summary r) /\
        BridgeSpec.reportsByPosition outs.1.*1 (summary r) /\
        Forall2 (fun op out => commandOf op = None -> out = (None, []))
          operations outs.1
  end.
Proof.
  rewrite handleBatchOperations_batch.
  destruct (selectClipIfNeeded respond dawManager config (Some daw) args tt w)
    as [[[u|e] u'] w1]; [|done].
  intros outs. eexists. split.
  { rewrite <- operationPlans, <- (batch_short _ (backend w1)).
    - reflexivity.
    - intros op. unfold operationPlan. destruct (commandOf op); simpl; lia. }
  cbn [summary].
  destruct (outcomes_reported operations outs.1 _ (Handlers.batch_length _ _ _)
              eq_refl) as [Hagg Hrep].
  split; [exact Hagg|]. split; [exact Hrep|].
  subst outs. generalize (backend w1). clear.
  induction operations as [|op ops IH]; intros b; cbn [batch]; [constructor|].
  assert (commandOf op = None ->
          planned respond (operationPlan daw) b op = (None, [], b)) as Hnone.
  { intros H. unfold planned, operationPlan. by rewrite H. }
  destruct (planned respond (operationPlan daw) b op) as [[fate acts] b1].
  specialize (IH b1).
  destruct (batch (planned respond (operationPlan daw)) b1 ops) as [outs b2].
  constructor; [|exact IH]. intros H. specialize (Hnone H). congruence.
Qed.

End WithBackend.

Lemma list_clips_explicit_witness :
  let w := mkWorld [ok; failing "no such track"] [] in
  requestedTracks twoTracks = Some [2; 5] /\
  exists r w',
    handleBatchListClips scripted BridgeSpec.manager bitwig twoTracks tt w
    = (Returned r, tt, w') /\
    trace w' = [Sent bitwig (clip_list 1); Sent bitwig (clip_list 4)] /\
    tracks r = Some [mkTrackClips 2 [mkClipInfo 1 JNull]].
Proof.
  intros w. split; [reflexivity|].
  destruct (list_clips_explicit scripted BridgeSpec.manager bitwig twoTracks
              [2; 5] tt w eq_refl) as (r & w' & H1 & H2 & H3 & _).
  exists r, w'. split; [exact H1|]. split; [exact H2 | exact H3].
Defined.

Lemma list_clips_cursor_witness :
  let w := mkWorld [ok; ok] [] in
  requestedTracks BridgeSpec.noArgs = None /\
  exists r w',
    handleBatchListClips scripted BridgeSpec.manager bitwig BridgeSpec.noArgs tt w
    = (Returned r, tt, w') /\
    trace w' = [Sent bitwig (core Bridge.clip_getSelection);
                Sent bitwig (clip_list 0)] /\
    tracks r = Some [mkTrackClips 1 [mkClipInfo 1 JNull]].
Proof.
  intros w. split; [reflexivity|].
  destruct (list_clips_cursor scripted BridgeSpec.manager bitwig
              BridgeSpec.noArgs tt w eq_refl) as (r & w' & H1 & H2 & H3 & _).
  exists r, w'. split; [exact H1|]. split; [exact H2 | exact H3].
Defined.

End Toolbox.


(** ** The batch handlers, one next to the other

    The handlers that return a Batch Result, all run against the same
    backend: those of batch-notes.ts, batch-clips.ts, batch-tracks.ts and
    [handleBatchOperations] of operations.ts. *)

Module Batches.
Import QArith_base Tools ToolsSpec.
Import Bridge(Returned, Thrown, Outcome).
Import BridgeSpec(perform, batch, guarded, aggregates, reports, aggregated,
                  reportsByPosition, successes, failures).
Local Open Scope Z_scope.

Section WithBackend.

Context {B : Type}.
Variable respond : B -> DAWType -> forall c : Command, (string + Reply c) * B.
Variable dawManager : Bridge.DAWClientManager.

Lemma count_map {A C} (f : A -> C) (xs : list A) :
  Bridge.count (map f xs) = Bridge.count xs.
Proof. unfold Bridge.count. by rewrite length_map. Qed.

Lemma handleBatchGetNotes_batch {S} (midiVelocity : Q -> Z) (centiBeats : Q -> Q)
    (config : Bridge.Config) (daw : DAWType) (args : Bridge.Args)
    (verbose : option bool) (first : ClipAddress) (more : list ClipAddress)
    (s : S) (w : @World B) :
  let outs := batch (planned respond (getNotesPlan config daw true)) (backend w)
                (first :: more) in
  exists results,
    handleBatchGetNotes respond dawManager midiVelocity centiBeats config daw
      args verbose (first :: more) s w
    = (Returned (mkResult
                   (tally (successes outs.1.*1)
                          (failures (fun j _ => j) 0 (first :: more) outs.1.*1))
                   None None None (Some results)),
       s, mkWorld outs.2 (trace w ++ concat outs.1.*2)).
Proof.
  intros outs. unfold handleBatchGetNotes, call.
  destruct (Toolbox.getClips_run respond dawManager midiVelocity centiBeats config
              daw (default false verbose) false (first :: more) w)
    as (results & l' & Hrun).
  cbn [negb orb] in Hrun. rewrite Hrun. by exists results.
Qed.

Lemma handleBatchListClips_listed {S} (daw : DAWType) (args : Bridge.Args)
    (first : Z) (more : list Z) (s : S) (w : @World B) :
  Bridge.arg_trackIndices args = first :: more ->
  let answers := (listings respond (backend w) daw (first :: more)).1 in
  exists r,
    handleBatchListClips respond dawManager daw args s w
    = (Returned r, s,
       mkWorld (listings respond (backend w) daw (first :: more)).2
         (trace w ++ map (fun t => Sent daw (clip_list (toInternal t)))
                         (first :: more))) /\
    aggregated (Bridge.count (first :: more)) (summary r) /\
    reportsByPosition (map fateOf answers) (summary r).
Proof.
  intros Hargs answers.
  destruct (Toolbox.listTracks_run respond dawManager daw (first :: more) w)
    as (r & Hrun & _ & _ & _ & Ha & Hr).
  exists r. split; [|done].
  unfold handleBatchListClips, call. by rewrite Hargs, Hrun.
Qed.

(** The results the handlers build from the outcomes of their items. *)
Lemma tally_outcomes {X A Act} (items : list A)
    (item : X -> A -> option string * list Act * X) (b : X) :
  let outs := (batch item b items).1 in
  aggregated (Bridge.count items)
    (tally (successes outs.*1) (failures (fun j _ => j) 0 items outs.*1)) /\
  reportsByPosition outs.*1
    (tally (successes outs.*1) (failures (fun j _ => j) 0 items outs.*1)).
Proof.
  intros outs. apply (Toolbox.outcomes_reported items outs); [|done].
  apply Handlers.batch_length.
Qed.

Lemma tally_attempts {A} (items : list A) (fates : list (option string)) :
  length fates = length items ->
  aggregated (Bridge.count items)
    (Bridge.tally (Bridge.mkLocals (successes fates)
                     (failures (fun j _ => j) 0 items fates) [] None)) /\
  reportsByPosition fates
    (Bridge.tally (Bridge.mkLocals (successes fates)
                     (failures (fun j _ => j) 0 items fates) [] None)).
Proof. intros Hlen. by apply Handlers.fates_reported. Qed.

Ltac open_selection :=
  unfold runFrom, Bridge.runFrom, stateAfter, BridgeSpec.stateAfter;
  match goal with
  | |- context [selectClipIfNeeded ?r ?m ?c ?d ?a tt ?w] =>
      destruct (selectClipIfNeeded r m c d a tt w) as [[[? | ?] ?] ?]
  | |- context [Bridge.selectClipIfNeeded ?r ?m ?c ?d ?a tt ?w] =>
      destruct (Bridge.selectClipIfNeeded r m c d a tt w) as [[[? | ?] ?] ?]
  end;
  cbn [guarded fst snd backend trace Bridge.backend Bridge.trace];
  [|reflexivity].


(** C8, as the code has it. In the result of a batch handler, once the
    step before its loop has returned, every item of the caller's list
    that failed is reported by one entry of [errors] whose [index] is
    the 0-based position of that item, the entries standing in the order
    of the items, and the items that did not fail are counted in
    [completed]; an item fails when the backend fails one of its
    commands, or when the handler refuses it, as [creation] and
    [deletion] tell. This holds of [handleBatchSetNotes] on Bitwig,
    [handleBatchMoveNotes], [handleBatchSetNoteProperties],
    [handleBatchOperations], [handleBatchCreateTracks] and
    [handleBatchSetTrackProperties] for every list, and of
    [handleBatchClearNotes], [handleBatchGetNotes],
    [handleBatchListClips], [handleBatchCreateClips] and
    [handleBatchDeleteClips] for every list that is not empty. Two
    handlers differ. On Ableton [handleBatchSetNotes] sends all notes
    in one command, and when that fails it reports all [n] notes failed
    by the single entry of index 0. In the result of
    [handleBatchDeleteTracks] the [index] of an entry is the 1-based
    index of the track whose deletion failed, as the caller gave it. *)
Theorem error_entries_origin (quantizeForBitwig : Q -> Q)
    (midiVelocity : Q -> Z) (centiBeats : Q -> Q) (config : Bridge.Config)
    (daw : DAWType) (args : Bridge.Args) (b : B) :
  let core := coreRespond respond in
  let coreSelect :=
    Bridge.selectClipIfNeeded core dawManager config (Some daw) args in
  let select d := selectClipIfNeeded respond dawManager config (Some d) args in
  (* handleBatchSetNotes, on Bitwig and on Ableton *)
  (forall rawNotes : list RawNote,
     let run := runFrom b (handleBatchSetNotes respond dawManager
                             quantizeForBitwig config bitwig args rawNotes) in
     let notes := map (quantized quantizeForBitwig) (map objectFormat rawNotes) in
     let outs := (batch (planned respond (notePlan bitwig))
                    (stateAfter b (select bitwig)) notes).1 in
     guarded (runFrom b (select bitwig)) run
       (fun _ _ => reports summary run outs.*1)) /\
  (forall rawNotes : list RawNote,
     let run := runFrom b (handleBatchSetNotes respond dawManager
                             quantizeForBitwig config ableton args rawNotes) in
     let command := clip_setNotes (map objectFormat rawNotes) in
     guarded (runFrom b (select ableton)) run
       (fun _ _ =>
          exists r,
            run.1 = Returned r /\
            match (respond (stateAfter b (select ableton)) ableton command).1 with
            | inr _ =>
                Bridge.failed (summary r) = 0 /\
                Bridge.errors (summary r) = None
            | inl e =>
                Bridge.failed (summary r) = Bridge.count rawNotes /\
                Bridge.errors (summary r) = Some [Bridge.mkError 0 e]
            end)) /\
  (* handleBatchMoveNotes *)
  (let run := Bridge.runFrom b (Bridge.handleBatchMoveNotes core dawManager
                                  config daw args) in
   guarded (Bridge.runFrom b coreSelect) run
     (fun _ _ =>
        reports id run
          (BridgeSpec.attempt core (BridgeSpec.stateAfter b coreSelect) daw
             (map Bridge.clip_moveNote (Bridge.arg_moves args))).1)) /\
  (* handleBatchClearNotes *)
  (forall note notes, Bridge.arg_notes args = Some (note :: notes) ->
     let run := Bridge.runFrom b (Bridge.handleBatchClearNotes core dawManager
                                    config daw args) in
     guarded (Bridge.runFrom b coreSelect) run
       (fun _ _ =>
          reports id run
            (BridgeSpec.attempt core (BridgeSpec.stateAfter b coreSelect) daw
               (map Bridge.clip_clearNote (note :: notes))).1)) /\
  (* handleBatchSetNoteProperties *)
  (forall notes : list NoteProperties,
     let run := runFrom b (handleBatchSetNoteProperties respond dawManager
                             config daw args notes) in
     let outs := (batch (planned respond (notePropertiesPlan daw))
                    (stateAfter b (select daw)) notes).1 in
     guarded (runFrom b (select daw)) run
       (fun _ _ => reports summary run outs.*1)) /\
  (* handleBatchOperations *)
  (forall operations : list Operation,
     let run := runFrom b (handleBatchOperations respond dawManager config daw
                             args operations) in
     let outs := (batch (planned respond (operationPlan daw))
                    (stateAfter b (select daw)) operations).1 in
     guarded (runFrom b (select daw)) run
       (fun _ _ => reports summary run outs.*1)) /\
  (* handleBatchGetNotes *)
  (forall verbose (clip : ClipAddress) clips,
     let run := runFrom b (handleBatchGetNotes respond dawManager midiVelocity
                             centiBeats config daw args verbose (clip :: clips)) in
     let outs := (batch (planned respond (getNotesPlan config daw true)) b
                    (clip :: clips)).1 in
     reports summary run outs.*1) /\
  (* handleBatchListClips *)
  (forall trackIndex trackIndices,
     Bridge.arg_trackIndices args = trackIndex :: trackIndices ->
     let run := runFrom b (handleBatchListClips respond dawManager daw args) in
     reports summary run
       (map fateOf (listings respond b daw (trackIndex :: trackIndices)).1)) /\
  (* handleBatchCreateClips *)
  (forall clip clips, Bridge.arg_clips args = Some (clip :: clips) ->
     let run := Bridge.runFrom b (Bridge.handleBatchCreateClips core dawManager
                                    config daw args) in
     let step := BridgeSpec.cursorAndScenes core dawManager daw in
     guarded (Bridge.runFrom b step) run
       (fun found _ =>
          let cursorTrack := found.1.1 in
          let cursorSlot :=
            if found.1.2 >=? found.2 then 0 else found.1.2 in
          let outs :=
            (batch (BridgeSpec.creation core dawManager config daw
                      (default false (Bridge.arg_overwrite args)) cursorTrack)
                   (BridgeSpec.stateAfter b step, Some cursorSlot)
                   (clip :: clips)).1 in
          reports id run outs.*1)) /\
  (* handleBatchDeleteClips *)
  (forall clip clips, Bridge.arg_clips args = Some (clip :: clips) ->
     let run := Bridge.runFrom b (Bridge.handleBatchDeleteClips core dawManager
                                    daw args) in
     let outs := (batch (BridgeSpec.deletion core daw) b (clip :: clips)).1 in
     reports id run outs.*1) /\
  (* handleBatchCreateTracks *)
  (forall tracks : list TrackRequest,
     let run := runFrom b (handleBatchCreateTracks respond dawManager daw tracks) in
     let outs := (batch (trackCreation respond daw) (b, []) tracks).1 in
     reports summary run outs.*1) /\
  (* handleBatchSetTrackProperties *)
  (forall tracks : list TrackProperties,
     let run := runFrom b (handleBatchSetTrackProperties respond dawManager daw
                             tracks) in
     let outs := (batch (planned respond (trackPlan daw)) b tracks).1 in
     reports summary run outs.*1) /\
  (* handleBatchDeleteTracks *)
  (let run := Bridge.runFrom b (Bridge.handleBatchDeleteTracks core dawManager
                                  daw args) in
   let sent := Bridge.sort (fun x y => y - x)
                 (map toInternal (Bridge.arg_trackIndices args)) in
   let fates := (BridgeSpec.attempt core b daw (map Bridge.track_delete sent)).1 in
   exists r es,
     run = (Returned r,
            map (fun index => Bridge.Sent daw (Bridge.track_delete index)) sent) /\
     Bridge.completed r = successes fates /\
     Bridge.errors r = Bridge.errorsField es /\
     Bridge.failed r = Bridge.count es /\
     forall j e, Bridge.mkError j e ∈ es <->
       exists k index, sent !! k = Some index /\ fates !! k = Some (Some e) /\
                       j = index + 1 /\ j ∈ Bridge.arg_trackIndices args).
Proof.
  intros core coreSelect select. subst core coreSelect select.
  repeat match goal with |- _ /\ _ => split end.
  - intros rawNotes run notes outs. subst run outs. unfold runFrom.
    rewrite Toolbox.handleBatchSetNotes_batch. open_selection.
    eexists. split; [reflexivity|]. apply tally_outcomes.
  - intros rawNotes run command. subst run command. unfold runFrom.
    rewrite Toolbox.handleBatchSetNotes_batch. open_selection.
    eexists. split; [reflexivity|]. cbn [summary].
    rewrite count_map.
    by destruct (respond _ ableton _) as [[e|v] b2].
  - intros run. subst run. unfold Bridge.runFrom.
    rewrite Handlers.handleBatchMoveNotes_run. open_selection.
    eexists. split; [reflexivity|].
    apply tally_attempts. by rewrite Handlers.attempt_length, length_map.
  - intros note notes Hnotes run. subst run. unfold Bridge.runFrom.
    rewrite (Handlers.handleBatchClearNotes_run _ _ _ _ _ note notes) by done.
    open_selection.
    eexists. split; [reflexivity|].
    apply tally_attempts. by rewrite Handlers.attempt_length, length_map.
  - intros notes run outs. subst run outs. unfold runFrom.
    rewrite Toolbox.handleBatchSetNoteProperties_batch. open_selection.
    eexists. split; [reflexivity|]. apply tally_outcomes.
  - intros operations run outs. subst run outs. unfold runFrom.
    rewrite Toolbox.handleBatchOperations_batch. open_selection.
    eexists. split; [reflexivity|]. apply tally_outcomes.
  - intros verbose clip clips run outs. subst run outs. unfold runFrom.
    destruct (handleBatchGetNotes_batch midiVelocity centiBeats config daw args
                verbose clip clips tt (mkWorld b [])) as (results & ->).
    eexists. split; [reflexivity|]. apply tally_outcomes.
  - intros trackIndex trackIndices Hargs run. subst run. unfold runFrom.
    destruct (handleBatchListClips_listed daw args trackIndex trackIndices tt
                (mkWorld b []) Hargs) as (r & -> & _ & Hr).
    by exists r.
  - intros clip clips Hclips run step. subst run step.
    pose proof (Handlers.handleBatchCreateClips_batch (coreRespond respond)
                  dawManager config daw args clip clips tt (Bridge.mkWorld b [])
                  Hclips) as Hrun.
    unfold Bridge.runFrom, BridgeSpec.stateAfter.
    destruct (BridgeSpec.cursorAndScenes (coreRespond respond) dawManager daw tt
                (Bridge.mkWorld b [])) as [[[[cursor sceneCount]|e] u] w1];
      cbn [guarded fst snd]; [|by rewrite Hrun].
    destruct Hrun as (createdClips & ->).
    eexists. split; [reflexivity|].
    eapply proj2, (Handlers.fates_reported (clip :: clips)); try done.
    by rewrite length_fmap, Handlers.batch_length.
  - intros clip clips Hclips run outs. subst run outs. unfold Bridge.runFrom.
    rewrite (Handlers.handleBatchDeleteClips_batch _ _ _ _ clip clips) by done.
    eexists. split; [reflexivity|].
    apply tally_attempts. by rewrite length_fmap, Handlers.batch_length.
  - intros tracks run outs. subst run outs. unfold runFrom.
    rewrite Toolbox.handleBatchCreateTracks_batch.
    eexists. split; [reflexivity|]. apply tally_outcomes.
  - intros tracks run outs. subst run outs. unfold runFrom.
    rewrite Toolbox.handleBatchSetTrackProperties_batch.
    eexists. split; [reflexivity|]. apply tally_outcomes.
  - intros run sent fates. subst run. unfold Bridge.runFrom.
    rewrite Handlers.handleBatchDeleteTracks_run.
    cbn [fst snd Bridge.backend Bridge.trace app]. fold sent. fold fates.
    eexists _, (failures (fun _ index => toUser index) 0 sent fates).
    split; [reflexivity|]. split; [reflexivity|].
    split; [reflexivity|]. split; [reflexivity|].
    intros j e. rewrite Handlers.failures_lookup. split.
    + intros (k & x & Hx & Ho & ->). exists k, x.
      split; [done|]. split; [done|]. unfold toUser. split; [lia|].
      apply list_elem_of_lookup_2 in Hx. unfold sent in Hx.
      rewrite (Handlers.sort_perm _ _) in Hx.
      apply list_elem_of_fmap in Hx as (y & -> & Hy).
      unfold toInternal. by replace (y - 1 + 1) with y by lia.
    + intros (k & x & Hx & Ho & -> & _). by exists k, x.
Qed.

End WithBackend.


Lemma error_entries_origin_witness :
  exists r,
    fst (Bridge.runFrom fiveReplies
           (Bridge.handleBatchMoveNotes (coreRespond scripted) BridgeSpec.manager
              BridgeSpec.config bitwig BridgeSpec.fiveMoves))
    = Returned r /\
    Bridge.errors r = Some [Bridge.mkError 1 "Invalid params: no note";
                            Bridge.mkError 3 "Request timeout (bitwig)"].
Proof.
  pose proof (error_entries_origin scripted BridgeSpec.manager (fun q => q)
                (fun _ => 0) (fun q => q) BridgeSpec.config bitwig
                BridgeSpec.fiveMoves fiveReplies) as H.
  cbv zeta in H. destruct H as (_ & _ & Hmove & _).
  destruct Hmove as (r & Hrun & _). exists r. split; [exact Hrun|].
  vm_compute in Hrun. injection Hrun as <-. reflexivity.
Defined.


(** Deleting the tracks 4 and 9 where the deletion of track 9 fails: the
    failing item is at position 1 of the caller's list, and the entry is
    tagged 9. Setting three notes on Ableton where the command fails:
    three items are reported failed, by one entry tagged 0. And given an
    empty list, where no item has a position, [batch_clear_notes],
    [batch_delete_clips], [batch_create_clips], [batch_list_clips] and
    [batch_get_notes] act on the clip or track that is selected or
    addressed, and report what fails under the index 0. *)
Lemma error_index_not_always_position :
  Bridge.runFrom [BridgeSpec.failing "Invalid params: index"; BridgeSpec.ok]
    (Bridge.handleBatchDeleteTracks BridgeSpec.scripted BridgeSpec.manager bitwig
       (Bridge.mkArgs None None [] None None None [4; 9]))
  = (Returned (Bridge.mkBatchResult false 1 1
                 (Some [Bridge.mkError 9 "Invalid params: index"])
                 None None None None),
     [Bridge.Sent bitwig (Bridge.track_delete 8);
      Bridge.Sent bitwig (Bridge.track_delete 3)]) /\
  (runFrom [ok; failing "Request timeout (ableton)"]
     (handleBatchSetNotes scripted BridgeSpec.manager (fun q => q)
        BridgeSpec.config ableton BridgeSpec.noArgs
        [noteArray (mkNoteInput (Some 0%Q) (Some 60) None None);
         noteArray (mkNoteInput (Some 1%Q) (Some 62) None None);
         noteArray (mkNoteInput (Some 2%Q) (Some 64) None None)])).1
  = Returned (mkResult
                (Bridge.mkBatchResult false 0 3
                   (Some [Bridge.mkError 0 "Request timeout (ableton)"])
                   None None None None)
                None None None None) /\
  (Bridge.runFrom [BridgeSpec.ok; BridgeSpec.failing "Request timeout (bitwig)"]
     (Bridge.handleBatchClearNotes BridgeSpec.scripted BridgeSpec.manager
        BridgeSpec.config bitwig
        (Bridge.mkArgs None None [] (Some []) None None []))).1
  = Returned (Bridge.mkBatchResult false 0 1
                (Some [Bridge.mkError 0 "Request timeout (bitwig)"])
                None None None None) /\
  (Bridge.runFrom [BridgeSpec.ok; BridgeSpec.failing "Request timeout (bitwig)"]
     (Bridge.handleBatchDeleteClips BridgeSpec.scripted BridgeSpec.manager bitwig
        (Bridge.mkArgs None None [] None (Some []) None []))).1
  = Returned (Bridge.mkBatchResult false 0 1
                (Some [Bridge.mkError 0 "Request timeout (bitwig)"])
                None None None None) /\
  (exists r,
     (Bridge.runFrom
        [BridgeSpec.ok; BridgeSpec.ok; BridgeSpec.ok;
         BridgeSpec.failing "Request timeout (bitwig)"]
        (Bridge.handleBatchCreateClips BridgeSpec.scripted BridgeSpec.manager
           BridgeSpec.config bitwig
           (Bridge.mkArgs None None [] None (Some []) None []))).1
     = Returned r /\
     Bridge.errors r = Some [Bridge.mkError 0 "Request timeout (bitwig)"]) /\
  (runFrom [failing "Request timeout (bitwig)"]
     (handleBatchListClips scripted BridgeSpec.manager bitwig
        (Bridge.mkArgs (Some 3) None [] None None None []))).1
  = Returned (mkResult
                (Bridge.mkBatchResult false 0 1
                   (Some [Bridge.mkError 0 "Request timeout (bitwig)"])
                   None None None None)
                None (Some []) None None) /\
  (runFrom [ok; failing "Request timeout (bitwig)"]
     (handleBatchGetNotes scripted BridgeSpec.manager (fun _ => 0) (fun q => q)
        BridgeSpec.config bitwig
        (Bridge.mkArgs (Some 3) (Some 2) [] None None None []) None [])).1
  = Returned (mkResult
                (Bridge.mkBatchResult false 0 1
                   (Some [Bridge.mkError 0 "Request timeout (bitwig)"])
                   None None None None)
                None None None (Some [])).
Proof.
  repeat match goal with |- _ /\ _ => split end; try reflexivity.
  eexists. split; [vm_compute; reflexivity | reflexivity].
Qed.

End Batches.
